(** * llnode heap scanner (src/llscan.h, src/llscan.cc): model and properties

    The scanning engine of llnode is embedded shallowly: unsigned 64-bit
    quantities are integers with the wrap-around written out, std::map and
    std::unordered_set become finite maps and sets, and the objects that the
    C++ code mutates through pointers (the LLScan session, the reference
    vectors, the serializer) are threaded explicitly as state.

    The V8 layout model (llv8) and the debugger (lldb) are not part of the
    two source files; what the scanner asks of them is taken as data: the
    result of decoding a word, the elements and entries of an object, the
    locals of a context. *)

From stdpp Require Import gmap strings list fin_maps pretty sorting.

Open Scope Z_scope.

(** ** Machine integers *)

(** uint64_t arithmetic: results are reduced modulo 2^64. *)
Definition wrap64 (z : Z) : Z := z mod 2 ^ 64.

(** The value uint64_t(-1), returned by several helpers as a failure code. *)
Definition UINT64_MAX : Z := 2 ^ 64 - 1.

(** ** Text *)

(** The newline written by "\n" and std::endl, and the double quote. *)
Definition endl : string := String (Ascii.ascii_of_nat 10) EmptyString.
Definition quote : string := String (Ascii.ascii_of_nat 34) EmptyString.

(** ** Reference vectors *)

(** typedef std::vector<uint64_t> ReferencesVector *)
Abbreviation ReferencesVector := (list Z).

(** ** TypeRecord (llscan.h) *)

Record TypeRecord := mkTypeRecord {
  type_name_ : string;
  instance_count_ : Z;
  total_instance_size_ : Z;
  instances_ : gset Z
}.

(** TypeRecord(std::string& type_name) *)
Definition TypeRecord_new (type_name : string) : TypeRecord :=
  mkTypeRecord type_name 0 0 ∅.

Definition GetTypeName (t : TypeRecord) : string := type_name_ t.
Definition GetInstanceCount (t : TypeRecord) : Z := instance_count_ t.
Definition GetTotalInstanceSize (t : TypeRecord) : Z := total_instance_size_ t.
Definition GetInstances (t : TypeRecord) : gset Z := instances_ t.

(** TypeRecord::AddInstance: the address is inserted in the set; the two
    counters move only when the insertion took place (result.second). *)
Definition AddInstance (address size : Z) (t : TypeRecord) : TypeRecord :=
  let inserted := bool_decide (address ∉ instances_ t) in
  let instances' := {[address]} ∪ instances_ t in
  if inserted
  then mkTypeRecord (type_name_ t)
         (wrap64 (instance_count_ t + 1))
         (wrap64 (total_instance_size_ t + size))
         instances'
  else mkTypeRecord (type_name_ t)
         (instance_count_ t) (total_instance_size_ t) instances'.

(** A sequence of AddInstance calls, oldest first, as (address, size). *)
Definition AddInstances (calls : list (Z * Z)) (t : TypeRecord) : TypeRecord :=
  foldl (λ t c, AddInstance c.1 c.2 t) t calls.

(** TypeRecord::CompareInstanceCounts *)
Definition CompareInstanceCounts (a b : TypeRecord) : bool :=
  if decide (instance_count_ a = instance_count_ b) then
    if decide (total_instance_size_ a = total_instance_size_ b) then
      String.ltb (type_name_ a) (type_name_ b)
    else bool_decide (total_instance_size_ a < total_instance_size_ b)
  else bool_decide (instance_count_ a < instance_count_ b).

(** The sizes that a sequence of calls records: the size given with the first
    call for each address; [seen] holds the addresses already met. *)
Fixpoint first_insertion_sizes (seen : gset Z) (calls : list (Z * Z)) : list Z :=
  match calls with
  | [] => []
  | (a, s) :: rest =>
      if decide (a ∈ seen) then first_insertion_sizes seen rest
      else s :: first_insertion_sizes ({[a]} ∪ seen) rest
  end.

Definition sumZ (l : list Z) : Z := foldr Z.add 0 l.

(** ** The reference indices (llscan.h) *)

(** std::map<K, ReferencesVector*>: every key owns the vector allocated for it
    by the lookup below, so a pointer to a vector is named by its key and the
    map holds the vectors themselves. *)

(** LLScan::GetReferencesByValue / ByProperty / ByString: an absent key gets a
    new empty vector; the vector stored under the key is returned. *)
Definition GetReferences `{Countable K} (k : K) (m : gmap K ReferencesVector)
    : ReferencesVector * gmap K ReferencesVector :=
  let m' := if decide (m !! k = None) then <[k := []]> m else m in
  (default [] (m' !! k), m').

(** references = Get...(k); references->push_back(src) *)
Definition push_back_reference `{Countable K} (k : K) (src : Z)
    (m : gmap K ReferencesVector) : gmap K ReferencesVector :=
  let '(references, m') := GetReferences k m in
  <[k := references ++ [src]]> m'.

(** AreReferencesBy...Loaded: size() > 0 *)
Definition AreReferencesLoaded `{Countable K} (m : gmap K ReferencesVector) : bool :=
  bool_decide (0 < size m)%nat.

(** ** The scan session LLScan (llscan.h) *)

Record DetailedTypeRecord := mkDetailedTypeRecord {
  dtr_record : TypeRecord;
  dtr_own_descriptors_count_ : Z;
  dtr_indexed_properties_count_ : Z
}.

(** lldb::SBTarget: the debugger's target, or nothing for the
    default-constructed object that LLScan starts with. *)
Definition SBTarget := option Z.

Definition IsValid (target : SBTarget) : bool := bool_decide (is_Some target).

Record LLScan := mkLLScan {
  target_ : SBTarget;
  mapstoinstances_ : gmap string TypeRecord;
  detailedmapstoinstances_ : gmap string DetailedTypeRecord;
  references_by_value_ : gmap Z ReferencesVector;
  references_by_property_ : gmap string ReferencesVector;
  references_by_string_ : gmap string ReferencesVector;
  contexts_ : gset Z
}.

(** LLScan(v8::LLV8* llv8): every container starts empty. *)
Definition LLScan_new : LLScan := mkLLScan None ∅ ∅ ∅ ∅ ∅ ∅.

Definition GetMapsToInstances (s : LLScan) := mapstoinstances_ s.
Definition GetDetailedMapsToInstances (s : LLScan) := detailedmapstoinstances_ s.
Definition GetContexts (s : LLScan) : gset Z := contexts_ s.
Definition AreContextsLoaded (s : LLScan) : bool := bool_decide (0 < size (contexts_ s))%nat.

Definition AreReferencesByValueLoaded (s : LLScan) : bool :=
  AreReferencesLoaded (references_by_value_ s).
Definition AreReferencesByPropertyLoaded (s : LLScan) : bool :=
  AreReferencesLoaded (references_by_property_ s).
Definition AreReferencesByStringLoaded (s : LLScan) : bool :=
  AreReferencesLoaded (references_by_string_ s).

Definition set_references_by_value (m : gmap Z ReferencesVector) (s : LLScan) : LLScan :=
  mkLLScan (target_ s) (mapstoinstances_ s) (detailedmapstoinstances_ s)
    m (references_by_property_ s) (references_by_string_ s) (contexts_ s).
Definition set_references_by_property (m : gmap string ReferencesVector) (s : LLScan) : LLScan :=
  mkLLScan (target_ s) (mapstoinstances_ s) (detailedmapstoinstances_ s)
    (references_by_value_ s) m (references_by_string_ s) (contexts_ s).
Definition set_references_by_string (m : gmap string ReferencesVector) (s : LLScan) : LLScan :=
  mkLLScan (target_ s) (mapstoinstances_ s) (detailedmapstoinstances_ s)
    (references_by_value_ s) (references_by_property_ s) m (contexts_ s).

Definition GetReferencesByValue (address : Z) (s : LLScan) : ReferencesVector * LLScan :=
  let '(v, m) := GetReferences address (references_by_value_ s) in
  (v, set_references_by_value m s).
Definition GetReferencesByProperty (property : string) (s : LLScan) : ReferencesVector * LLScan :=
  let '(v, m) := GetReferences property (references_by_property_ s) in
  (v, set_references_by_property m s).
Definition GetReferencesByString (string_value : string) (s : LLScan) : ReferencesVector * LLScan :=
  let '(v, m) := GetReferences string_value (references_by_string_ s) in
  (v, set_references_by_string m s).

(** LLScan::ClearMapsToInstances: the records of mapstoinstances_ are deleted
    and that map is cleared. *)
Definition ClearMapsToInstances (s : LLScan) : LLScan :=
  mkLLScan (target_ s) ∅ (detailedmapstoinstances_ s)
    (references_by_value_ s) (references_by_property_ s)
    (references_by_string_ s) (contexts_ s).

(** LLScan::ClearReferences: the three indices are cleared in turn. *)
Definition ClearReferences (s : LLScan) : LLScan :=
  mkLLScan (target_ s) (mapstoinstances_ s) (detailedmapstoinstances_ s)
    ∅ ∅ ∅ (contexts_ s).

(** ** FindJSObjectsVisitor (llscan.h, llscan.cc) *)

Record MapCacheEntry := mkMapCacheEntry {
  type_name : string;
  is_histogram : bool;
  is_context : bool;
  properties_ : list string;
  own_descriptors_count_ : Z;
  indexed_properties_count_ : Z
}.

Inductive ShowArrayLength := kShowArrayLength | kDontShowArrayLength.

Definition kNumberOfPropertiesForDetailedOutput : nat := 3.

(** MapCacheEntry::GetTypeNameWithProperties; the defaults of the two
    arguments are kShowArrayLength and 0. *)
Definition GetTypeNameWithProperties (e : MapCacheEntry)
    (show_array_length : ShowArrayLength) (max_properties : nat) : string :=
  let with_length :=
    match show_array_length with
    | kShowArrayLength =>
        type_name e +:+ "[" +:+ pretty (indexed_properties_count_ e) +:+ "]"
    | kDontShowArrayLength => type_name e
    end in
  let max_properties :=
    if decide (max_properties = 0%nat) then length (properties_ e)
    else (max_properties `min` length (properties_ e))%nat in
  let with_properties :=
    foldl (λ acc ip, acc +:+ (if decide (ip.1 = 0%nat) then ": " else ", ") +:+ ip.2)
      with_length (imap pair (take max_properties (properties_ e))) in
  if decide (max_properties < length (properties_ e))%nat
  then with_properties +:+ ", ..." else with_properties.

(** What llv8 answers about one word of memory handed to Visit. *)
Record Decoded := mkDecoded {
  smi_check : bool;            (* v8::Smi(v8_value).Check() *)
  heap_object_check : bool;    (* heap_object.Check() *)
  map_raw : option Z;          (* GetMap(err): the map's address, or nothing
                                  when err.Fail() or !map_object.Check() *)
  load_result : option MapCacheEntry;
                               (* MapCacheEntry::Load on this object; nothing
                                  when err.Fail() afterwards *)
  instance_size : Z;           (* map.InstanceSize(err) *)
  instance_size_fails : bool   (* err.Fail() after the two insertions *)
}.

Record FindJSObjectsVisitor := mkVisitor {
  found_count_ : Z;
  map_cache_ : gmap Z MapCacheEntry
}.

(** FindJSObjectsVisitor(target, llscan) *)
Definition FindJSObjectsVisitor_new : FindJSObjectsVisitor := mkVisitor 0 ∅.

Definition InsertOnContexts (word : Z) (s : LLScan) : LLScan :=
  mkLLScan (target_ s) (mapstoinstances_ s) (detailedmapstoinstances_ s)
    (references_by_value_ s) (references_by_property_ s)
    (references_by_string_ s) ({[word]} ∪ contexts_ s).

Definition InsertOnMapsToInstances (word : Z) (size : Z)
    (map_info : MapCacheEntry) (s : LLScan) : LLScan :=
  let t := default (TypeRecord_new (type_name map_info))
             (mapstoinstances_ s !! type_name map_info) in
  mkLLScan (target_ s)
    (<[type_name map_info := AddInstance word size t]> (mapstoinstances_ s))
    (detailedmapstoinstances_ s)
    (references_by_value_ s) (references_by_property_ s)
    (references_by_string_ s) (contexts_ s).

Definition InsertOnDetailedMapsToInstances (word : Z) (size : Z)
    (map_info : MapCacheEntry) (s : LLScan) : LLScan :=
  let type_name_with_properties :=
    GetTypeNameWithProperties map_info kShowArrayLength 0 in
  let t :=
    match detailedmapstoinstances_ s !! type_name_with_properties with
    | Some t => t
    | None =>
        let type_name_with_three_properties :=
          GetTypeNameWithProperties map_info kDontShowArrayLength
            kNumberOfPropertiesForDetailedOutput in
        mkDetailedTypeRecord (TypeRecord_new type_name_with_three_properties)
          (own_descriptors_count_ map_info) (indexed_properties_count_ map_info)
    end in
  let t' := mkDetailedTypeRecord (AddInstance word size (dtr_record t))
              (dtr_own_descriptors_count_ t) (dtr_indexed_properties_count_ t) in
  mkLLScan (target_ s) (mapstoinstances_ s)
    (<[type_name_with_properties := t']> (detailedmapstoinstances_ s))
    (references_by_value_ s) (references_by_property_ s)
    (references_by_string_ s) (contexts_ s).

(** FindJSObjectsVisitor::Visit. The value returned is address_byte_size_ on
    every path, so only the effect on the visitor and the session is kept. *)
Definition Visit (d : Decoded) (word : Z) (vs : FindJSObjectsVisitor * LLScan)
    : FindJSObjectsVisitor * LLScan :=
  let '(v, s) := vs in
  if smi_check d then vs else
  if negb (heap_object_check d) then vs else
  match map_raw d with
  | None => vs
  | Some map =>
      let cached :=
        match map_cache_ v !! map with
        | None =>
            match load_result d with
            | None => None
            | Some map_info =>
                Some (map_info, mkVisitor (found_count_ v) (<[map := map_info]> (map_cache_ v)))
            end
        | Some map_info => Some (map_info, v)
        end in
      match cached with
      | None => vs
      | Some (map_info, v) =>
          if is_context map_info then (v, InsertOnContexts word s) else
          if negb (is_histogram map_info) then (v, s) else
          let s := InsertOnMapsToInstances word (instance_size d) map_info s in
          let s := InsertOnDetailedMapsToInstances word (instance_size d) map_info s in
          if instance_size_fails d then (v, s)
          else (mkVisitor ((found_count_ v + 1) mod 2 ^ 32) (map_cache_ v), s)
      end
  end.

(** lldb::SBProcess as ScanMemoryRegions reads it: the words of the writable
    regions in the order they are handed to Visit (Visit always asks to
    advance by one word, so the order does not depend on what it finds), and
    the decoding of each word. *)
Record SBProcess := mkProcess {
  memory_words : list Z;
  decode : Z → Decoded
}.

Definition ScanMemoryRegions (process : SBProcess)
    (vs : FindJSObjectsVisitor * LLScan) : FindJSObjectsVisitor * LLScan :=
  foldl (λ vs word, Visit (decode process word) word vs) vs (memory_words process).

(** LLScan::ScanHeapForObjects; it returns true on every path. *)
Definition ScanHeapForObjects (target : SBTarget) (process : SBProcess)
    (s : LLScan) : LLScan :=
  let s :=
    if decide (target_ s ≠ target) then
      let s := ClearMapsToInstances s in
      let s := ClearReferences s in
      mkLLScan target (mapstoinstances_ s) (detailedmapstoinstances_ s)
        (references_by_value_ s) (references_by_property_ s)
        (references_by_string_ s) (contexts_ s)
    else s in
  if decide (mapstoinstances_ s = ∅)
  then (ScanMemoryRegions process (FindJSObjectsVisitor_new, s)).2
  else s.

(** ** The layout model as the scanners query it *)

(** The constants of v8->types() and v8->string() and the accessors of llv8
    that the two source files call. An accessor that reports through
    [Error& err] gives nothing when err is set; where the caller goes on to
    use the returned value without looking at err, the accessor gives the
    value and the success flag (Representation: the value under the
    CheckedType and its Check()). *)
Record LLV8 := mkLLV8 {
  IsObjectType : Z → bool;
  kJSArrayType : Z;
  kJSTypedArrayType : Z;
  kFirstNonstringType : Z;
  kCodeType : Z;
  kJSFunctionType : Z;
  kJSRegExpType : Z;
  kJSObjectType : Z;
  kHeapNumberType : Z;
  kJSArrayBufferType : Z;
  kFixedArrayType : Z;
  kSlicedStringTag : Z;
  kConsStringTag : Z;
  kThinStringTag : Z;
  Smi_Check : Z → bool;
  HeapObject_Check : Z → bool;
  GetMap : Z → option Z;
  InstanceSize : Z → Z;
  GetType : Z → Z * bool;
  GetArrayLength : Z → Z;
  GetArrayElement : Z → Z → option Z;
  Entries : Z → option (list (Z * Z));
  ToString : Z → option string;
  Representation : Z → Z * bool;
  Parent : Z → Z * bool;
  First : Z → Z * bool;
  Second : Z → Z * bool;
  Actual : Z → Z * bool;
  Locals : Z → option (list Z)
}.

(** The raw word of a default-constructed v8::Value(), which DoExecute hands
    to the scanner it builds for the recursive mode; no function of the two
    files reads it. *)
Definition default_Value_raw : Z := -1.

(** ** ScanOptions and the three scanners (llscan.h) *)

Inductive ScanType := kFieldValue | kPropertyName | kStringValue | kBadOption.

Record ScanOptions := mkScanOptions {
  scan_type : ScanType;
  recursive_scan : bool
}.

(** ScanOptions() *)
Definition ScanOptions_new : ScanOptions := mkScanOptions kFieldValue false.

(** The subclasses of FindReferencesCmd::ObjectScanner with their
    search_value_. *)
Inductive ObjectScanner :=
  | ReferenceScanner (search_value_ : Z)
  | PropertyScanner (search_value_ : string)
  | StringScanner (search_value_ : string).

#[global] Instance ScanType_eq_dec : EqDecision ScanType.
Proof. solve_decision. Defined.
#[global] Instance ObjectScanner_eq_dec : EqDecision ObjectScanner.
Proof. solve_decision. Defined.

Section Scanners.
Variable v8 : LLV8.

(** The iteration order of a std::unordered_set<uint64_t>, which the
    standard leaves to the implementation. *)
Variable unordered_iteration : gset Z → list Z.

Definition save_by_value (v src : Z) (s : LLScan) : LLScan :=
  set_references_by_value (push_back_reference v src (references_by_value_ s)) s.
Definition save_by_property (key : string) (src : Z) (s : LLScan) : LLScan :=
  set_references_by_property (push_back_reference key src (references_by_property_ s)) s.
Definition save_by_string (value : string) (src : Z) (s : LLScan) : LLScan :=
  set_references_by_string (push_back_reference value src (references_by_string_ s)) s.

(** *** ReferenceScanner::ScanRefs(v8::JSObject&) *)

(** The loop over the elements; it stops at the first element that cannot
    be read. *)
Fixpoint ReferenceScanner_scan_elements (js_obj : Z) (indices : list Z)
    (already_saved : gset Z) (s : LLScan) : gset Z * LLScan :=
  match indices with
  | [] => (already_saved, s)
  | i :: indices =>
      match GetArrayElement v8 js_obj i with
      | None => (already_saved, s)
      | Some v =>
          if decide (v ∈ already_saved)
          then ReferenceScanner_scan_elements js_obj indices already_saved s
          else ReferenceScanner_scan_elements js_obj indices
                 ({[v]} ∪ already_saved) (save_by_value v js_obj s)
      end
  end.

Definition ReferenceScanner_scan_entry (js_obj : Z)
    (acc : gset Z * LLScan) (entry : Z * Z) : gset Z * LLScan :=
  let '(already_saved, s) := acc in
  let v := entry.2 in
  if decide (v ∈ already_saved) then acc
  else ({[v]} ∪ already_saved, save_by_value v js_obj s).

Definition ReferenceScanner_ScanRefs_JSObject (js_obj : Z) (s : LLScan) : LLScan :=
  let length := GetArrayLength v8 js_obj in
  let '(already_saved, s) :=
    ReferenceScanner_scan_elements js_obj (seqZ 0 length) ∅ s in
  match Entries v8 js_obj with
  | None => s
  | Some entries =>
      (foldl (ReferenceScanner_scan_entry js_obj) (already_saved, s) entries).2
  end.

(** *** ReferenceScanner::ScanRefs(v8::String&) *)
Definition ReferenceScanner_ScanRefs_String (str : Z) (s : LLScan) : LLScan :=
  let '(repr, valid) := Representation v8 str in
  if negb valid then s else
  if decide (repr = kSlicedStringTag v8) then
    let parent := Parent v8 str in
    if parent.2 then save_by_value parent.1 str s else s
  else if decide (repr = kConsStringTag v8) then
    let first := First v8 str in
    let s := if first.2 then save_by_value first.1 str s else s in
    let second := Second v8 str in
    if second.2 && bool_decide (first.1 ≠ second.1)
    then save_by_value second.1 str s else s
  else if decide (repr = kThinStringTag v8) then
    let actual := Actual v8 str in
    if actual.2 then save_by_value actual.1 str s else s
  else s.

(** *** PropertyScanner::ScanRefs(v8::JSObject&) *)
Definition PropertyScanner_scan_entry (js_obj : Z) (s : LLScan) (entry : Z * Z) : LLScan :=
  match ToString v8 entry.1 with
  | None => s
  | Some key => save_by_property key js_obj s
  end.

Definition PropertyScanner_ScanRefs_JSObject (js_obj : Z) (s : LLScan) : LLScan :=
  match Entries v8 js_obj with
  | None => s
  | Some entries => foldl (PropertyScanner_scan_entry js_obj) s entries
  end.

(** *** StringScanner::ScanRefs(v8::JSObject&) *)

(** What both loops do with one value once it has been read. *)
Definition StringScanner_scan_value (js_obj : Z)
    (acc : gset string * LLScan) (v : Z) : gset string * LLScan :=
  let '(already_saved, s) := acc in
  let '(type, ok) := GetType v8 v in
  if negb ok then acc else
  if bool_decide (type < kFirstNonstringType v8) then
    match ToString v8 v with
    | None => acc
    | Some value =>
        if decide (value ∈ already_saved) then acc
        else ({[value]} ∪ already_saved, save_by_string value js_obj s)
    end
  else acc.

Definition StringScanner_scan_element (js_obj : Z)
    (acc : gset string * LLScan) (i : Z) : gset string * LLScan :=
  match GetArrayElement v8 js_obj i with
  | None => acc
  | Some v => StringScanner_scan_value js_obj acc v
  end.

Definition StringScanner_ScanRefs_JSObject (js_obj : Z) (s : LLScan) : LLScan :=
  let length := GetArrayLength v8 js_obj in
  let acc := foldl (StringScanner_scan_element js_obj) (∅, s) (seqZ 0 length) in
  match Entries v8 js_obj with
  | Some entries =>
      (foldl (λ acc entry, StringScanner_scan_value js_obj acc entry.2) acc entries).2
  | None => acc.2
  end.

(** *** StringScanner::ScanRefs(v8::String&) *)

(** One part of a cons string: nothing (the function returns) when the
    part or its type cannot be read. *)
Definition StringScanner_scan_part (str : Z) (part : Z * bool) (s : LLScan)
    : option LLScan :=
  if negb part.2 then None else
  let '(part_type, ok) := GetType v8 part.1 in
  if negb ok then None else
  if bool_decide (part_type < kFirstNonstringType v8) then
    match ToString v8 part.1 with
    | Some text => Some (save_by_string text str s)
    | None => Some s
    end
  else Some s.

Definition StringScanner_ScanRefs_String (str : Z) (s : LLScan) : LLScan :=
  let '(repr, valid) := Representation v8 str in
  if negb valid then s else
  if decide (repr = kSlicedStringTag v8) then
    let parent_str := Parent v8 str in
    if negb parent_str.2 then s else
    match ToString v8 parent_str.1 with
    | Some parent => save_by_string parent str s
    | None => s
    end
  else if decide (repr = kConsStringTag v8) then
    match StringScanner_scan_part str (First v8 str) s with
    | None => s
    | Some s1 => default s1 (StringScanner_scan_part str (Second v8 str) s1)
    end
  else s.

(** *** Dispatch on the scanner: the virtual calls *)

Definition ScanRefs_JSObject (scanner : ObjectScanner) (js_obj : Z) (s : LLScan) : LLScan :=
  match scanner with
  | ReferenceScanner _ => ReferenceScanner_ScanRefs_JSObject js_obj s
  | PropertyScanner _ => PropertyScanner_ScanRefs_JSObject js_obj s
  | StringScanner _ => StringScanner_ScanRefs_JSObject js_obj s
  end.

(** PropertyScanner keeps the empty default of ObjectScanner for strings. *)
Definition ScanRefs_String (scanner : ObjectScanner) (str : Z) (s : LLScan) : LLScan :=
  match scanner with
  | ReferenceScanner _ => ReferenceScanner_ScanRefs_String str s
  | PropertyScanner _ => s
  | StringScanner _ => StringScanner_ScanRefs_String str s
  end.

Definition ScannerAreReferencesLoaded (scanner : ObjectScanner) (s : LLScan) : bool :=
  match scanner with
  | ReferenceScanner _ => AreReferencesByValueLoaded s
  | PropertyScanner _ => AreReferencesByPropertyLoaded s
  | StringScanner _ => AreReferencesByStringLoaded s
  end.

Definition ScannerGetReferences (scanner : ObjectScanner) (s : LLScan)
    : ReferencesVector * LLScan :=
  match scanner with
  | ReferenceScanner search_value_ => GetReferencesByValue search_value_ s
  | PropertyScanner search_value_ => GetReferencesByProperty search_value_ s
  | StringScanner search_value_ => GetReferencesByString search_value_ s
  end.

(** std::map<std::string, TypeRecord*> is walked in the order of its keys. *)
Definition TypeRecordMap_iteration (m : gmap string TypeRecord)
    : list (string * TypeRecord) :=
  merge_sort (λ a b, Is_true (String.leb a.1 b.1)) (map_to_list m).

Definition is_object_or_array (type : Z) : bool :=
  IsObjectType v8 type || bool_decide (type = kJSArrayType v8).

(** FindReferencesCmd::ScanForReferences *)
Definition ScanForReferences_instance (scanner : ObjectScanner)
    (s : LLScan) (addr : Z) : LLScan :=
  let type := (GetType v8 addr).1 in
  if is_object_or_array type then ScanRefs_JSObject scanner addr s
  else if bool_decide (type < kFirstNonstringType v8)
  then ScanRefs_String scanner addr s
  else s.

Definition ScanForReferences (scanner : ObjectScanner) (s : LLScan) : LLScan :=
  foldl (λ s entry,
           foldl (ScanForReferences_instance scanner) s
             (unordered_iteration (instances_ entry.2)))
    s (TypeRecordMap_iteration (mapstoinstances_ s)).
End Scanners.

(** ** Printing references (FindReferencesCmd, llscan.cc) *)

(** What the printing functions write to the command result. *)
Inductive Output :=
  | OutPrintRefs (scanner : ObjectScanner) (addr level : Z)
      (* the lines of scanner->PrintRefs(result, obj, err, level) *)
  | OutBranch (level : Z)          (* the padding for level, then "+ " *)
  | OutSeenAbove                   (* " [seen above]" *)
  | OutContextRef (ctx search_value : Z)   (* the line of a context local *)
  | OutInstance (addr : Z)         (* printer.Stringify(v8_value, err) *)
  | OutDots                        (* ".........." *)
  | OutShowing (from to total : Z) (* "(Showing %d to %d of %d instances)" *)
  | OutNoObjectsFound (type_name : string).

#[global] Instance Output_eq_dec : EqDecision Output.
Proof. solve_decision. Defined.

(** The objects the printing functions share by pointer: the session (a
    lookup may add a key to the by-value index), the vector of visited
    references and the text printed so far. *)
Record PrintState := mkPrintState {
  ps_llscan : LLScan;
  ps_visited : ReferencesVector;
  ps_result : list Output
}.

Definition Printf (o : Output) (st : PrintState) : PrintState :=
  mkPrintState (ps_llscan st) (ps_visited st) (ps_result st ++ [o]).

(** A range-based for loop whose body may fail to return. *)
Fixpoint for_each {A S : Type} (body : A → S → option S) (l : list A) (s : S)
    : option S :=
  match l with
  | [] => Some s
  | x :: l => s' ← body x s; for_each body l s'
  end.

Section Printing.
Variable v8 : LLV8.
Variable unordered_iteration : gset Z → list Z.

Section Bodies.
(** The recursive call, PrintRecursiveReferences(result, options,
    visited, address, level). *)
Variable recurse : ScanOptions → Z → Z → PrintState → option PrintState.

(** ReferenceScanner::PrintContextRefs; the other scanners keep the
    empty default of ObjectScanner. *)
Definition PrintContextRefs_local (options : ScanOptions) (search_value_ ctx level : Z)
    (local : Z) (st : PrintState) : option PrintState :=
  if decide (local = search_value_) then
    let st := Printf (OutContextRef ctx search_value_) st in
    if recursive_scan options then recurse options ctx level st else Some st
  else Some st.

Definition PrintContextRefs (scanner : ObjectScanner) (options : ScanOptions)
    (level : Z) (st : PrintState) : option PrintState :=
  match scanner with
  | ReferenceScanner search_value_ =>
      for_each
        (λ ctx st,
           match Locals v8 ctx with
           | None => Some st
           | Some locals =>
               for_each (PrintContextRefs_local options search_value_ ctx level)
                 locals st
           end)
        (unordered_iteration (contexts_ (ps_llscan st))) st
  | _ => Some st
  end.

Definition PrintReferences_addr (scanner : ObjectScanner) (options : ScanOptions)
    (level : Z) (addr : Z) (st : PrintState) : option PrintState :=
  let type := (GetType v8 addr).1 in
  if is_object_or_array v8 type then
    let st := Printf (OutPrintRefs scanner addr level) st in
    if recursive_scan options then recurse options addr level st else Some st
  else if bool_decide (type < kFirstNonstringType v8) then
    let st := Printf (OutPrintRefs scanner addr level) st in
    if recursive_scan options then recurse options addr level st else Some st
  else Some st.

(** FindReferencesCmd::PrintReferences *)
Definition PrintReferences (references : ReferencesVector)
    (scanner : ObjectScanner) (options : ScanOptions) (level : Z)
    (st : PrintState) : option PrintState :=
  st ← for_each (PrintReferences_addr scanner options level) references st;
  PrintContextRefs scanner options level st.
End Bodies.

(** FindReferencesCmd::PrintRecursiveReferences. The C++ function calls
    itself through PrintReferences without bound; [fuel] bounds the depth
    of these calls and the result is nothing when it runs out. *)
Fixpoint PrintRecursiveReferences (fuel : nat) (options : ScanOptions)
    (address level : Z) (st : PrintState) : option PrintState :=
  match fuel with
  | O => None
  | S fuel =>
      let st := Printf (OutBranch level) st in
      if decide (address ∈ ps_visited st) then Some (Printf OutSeenAbove st)
      else
        let st := mkPrintState (ps_llscan st) (ps_visited st ++ [address])
                    (ps_result st) in
        let '(references_, llscan) := GetReferencesByValue address (ps_llscan st) in
        let st := mkPrintState llscan (ps_visited st) (ps_result st) in
        PrintReferences (PrintRecursiveReferences fuel) references_
          (ReferenceScanner address) options (level + 1) st
  end.

(** ** FindReferencesCmd::DoExecute *)

Inductive ReturnStatus := eReturnStatusFailed | eReturnStatusSuccessFinishResult.

(** lldb::SBCommandReturnObject: the error set, the status set, the text. *)
Record SBCommandReturnObject := mkResult {
  res_error : option string;
  res_status : option ReturnStatus;
  res_output : list Output
}.

Definition SBCommandReturnObject_new : SBCommandReturnObject := mkResult None None [].
Definition SetError (msg : string) (r : SBCommandReturnObject) :=
  mkResult (Some msg) (res_status r) (res_output r).
Definition SetStatus (st : ReturnStatus) (r : SBCommandReturnObject) :=
  mkResult (res_error r) (Some st) (res_output r).

(** The steps of a command that reach the heap or build a scanner, in the
    order they are taken: a record kept beside the result to speak about
    what ran before a return. *)
Inductive Step :=
  | StepLoad                                  (* llscan_->v8()->Load(target) *)
  | StepNewScanner (scanner : ObjectScanner)  (* new ...Scanner(llscan_, ...) *)
  | StepScanHeapForObjects
  | StepScanForReferences (scanner : ObjectScanner)
  | StepPrintReferences.

Record Execution := mkExecution {
  ex_return : bool;
  ex_result : SBCommandReturnObject;
  ex_llscan : LLScan;
  ex_steps : list Step
}.

(** The arguments of findrefs as DoExecute sees them. *)
Record FindReferencesArgs := mkFindReferencesArgs {
  cmd_given : bool;                 (* cmd != nullptr && *cmd != nullptr *)
  target : SBTarget;                (* d.GetSelectedTarget() *)
  process : SBProcess;              (* target.GetProcess() *)
  scan_options : ScanOptions;       (* as ParseScanOptions leaves them *)
  start : list string;              (* the words left after the options *)
  EvaluateExpression : string → string + Z
                                    (* the error of the value, or
                                       GetValueAsSigned() *)
}.

Definition fail_with (msg : string) (set_status : bool) (llscan : LLScan)
    (steps : list Step) : Execution :=
  let r := SetError msg SBCommandReturnObject_new in
  mkExecution false (if set_status then SetStatus eReturnStatusFailed r else r)
    llscan steps.

(** The switch on scan_options.scan_type: the scanner built, or the error
    reported. *)
Definition DoExecute_scanner (a : FindReferencesArgs) : string + ObjectScanner :=
  match scan_type (scan_options a) with
  | kFieldValue =>
      let full_cmd := foldl String.append "" (start a) in
      match EvaluateExpression a full_cmd with
      | inl error => inl error
      | inr value =>
          if Smi_Check v8 value then inl "Search value is an SMI."
          else inr (ReferenceScanner value)
      end
  | kPropertyName =>
      match start a with
      | [property_name] => inr (PropertyScanner property_name)
      | _ => inl "Extra search parameter or unquoted string specified."
      end
  | kStringValue =>
      match start a with
      | [string_value] => inr (StringScanner string_value)
      | _ => inl "Extra search parameter or unquoted string specified."
      end
  | kBadOption => inl "Invalid search type"
  end.

Definition FindReferencesCmd_DoExecute (fuel : nat) (a : FindReferencesArgs)
    (llscan : LLScan) : option Execution :=
  if negb (cmd_given a) then
    Some (fail_with ("USAGE: v8 findrefs expr" +:+ endl) false llscan [])
  else if negb (IsValid (target a)) then
    Some (fail_with ("No valid process, please start something" +:+ endl) false llscan [])
  else
  let steps := [StepLoad] in
  match start a with
  | [] => Some (fail_with "Missing search parameter" true llscan steps)
  | _ :: _ =>
  match DoExecute_scanner a with
  | inl error => Some (fail_with error true llscan steps)
  | inr scanner =>
      let steps := steps ++ [StepNewScanner scanner] in
      let llscan := ScanHeapForObjects (target a) (process a) llscan in
      let steps := steps ++ [StepScanHeapForObjects] in
      let '(llscan, steps) :=
        if negb (ScannerAreReferencesLoaded scanner llscan)
        then (ScanForReferences v8 unordered_iteration scanner llscan,
              steps ++ [StepScanForReferences scanner])
        else (llscan, steps) in
      let '(llscan, steps) :=
        if recursive_scan (scan_options a) then
          let ref_scanner := ReferenceScanner default_Value_raw in
          let steps := steps ++ [StepNewScanner ref_scanner] in
          if negb (ScannerAreReferencesLoaded ref_scanner llscan)
          then (ScanForReferences v8 unordered_iteration ref_scanner llscan,
                steps ++ [StepScanForReferences ref_scanner])
          else (llscan, steps)
        else (llscan, steps) in
      let '(references, llscan) := ScannerGetReferences scanner llscan in
      st ← PrintReferences (PrintRecursiveReferences fuel) references scanner
             (scan_options a) 0 (mkPrintState llscan [] []);
      Some (mkExecution true
              (mkResult None (Some eReturnStatusSuccessFinishResult) (ps_result st))
              (ps_llscan st) (steps ++ [StepPrintReferences]))
  end
  end.
End Printing.

(** ** Pagination of findjsinstances (llscan.h, FindInstancesCmd::DoExecute) *)

(** int arithmetic. Overflow of a signed int is undefined in C++; the model
    keeps the two's-complement result, and the statements below that depend
    on it say which range they need. *)
Definition wrap_int (z : Z) : Z := (z + 2 ^ 31) mod 2 ^ 32 - 2 ^ 31.

Record cmd_pagination_t := mkPagination {
  total_entries : Z;
  current_page : Z;
  output_limit : Z;
  command : string
}.

(** The default member initialisers of cmd_pagination_t. *)
Definition cmd_pagination_new : cmd_pagination_t := mkPagination 0 0 0 "".

(** "Update pagination options": the state after a query for [full_cmd] with
    the limit [printer_output_limit] on a record of [instance_count]
    instances. *)
Definition UpdatePaginationOptions (full_cmd : string) (printer_output_limit : Z)
    (instance_count : Z) (pagination_ : cmd_pagination_t) : cmd_pagination_t :=
  if bool_decide (full_cmd ≠ command pagination_)
     || bool_decide (printer_output_limit ≠ output_limit pagination_)
  then mkPagination (wrap_int instance_count) 0 printer_output_limit full_cmd
  else
    if bool_decide (output_limit pagination_ ≤ 0)
       || bool_decide (wrap_int (wrap_int (current_page pagination_ + 1)
                                 * output_limit pagination_)
                       > total_entries pagination_)
    then mkPagination (total_entries pagination_) 0
           (output_limit pagination_) (command pagination_)
    else mkPagination (total_entries pagination_)
           (wrap_int (current_page pagination_ + 1))
           (output_limit pagination_) (command pagination_).

Definition initial_p_offset (printer_output_limit : Z) (pagination_ : cmd_pagination_t) : Z :=
  wrap_int (current_page pagination_ * printer_output_limit).

Definition final_p_offset (printer_output_limit : Z) (pagination_ : cmd_pagination_t) : Z :=
  let final :=
    wrap_int (initial_p_offset printer_output_limit pagination_
              + Z.min (output_limit pagination_)
                  (wrap_int (total_entries pagination_
                             - wrap_int (current_page pagination_
                                         * output_limit pagination_)))) in
  if bool_decide (final ≤ 0) then total_entries pagination_ else final.

(** std::next(begin(), n) on a set whose elements are met in the order
    [instances]: what lies from the iterator to the end. The iterators of the
    set only move forward, and moving past the end is undefined: nothing is
    returned unless 0 <= n <= size(). *)
Definition std_next (instances : list Z) (n : Z) : option (list Z) :=
  if decide (0 ≤ n ≤ Z.of_nat (length instances))
  then Some (drop (Z.to_nat n) instances) else None.

(** The loop that prints the instances: [rest] is what lies from the iterator
    to the end of the set and [idx] the position of the iterator. As long as
    the iterator is not at the end, the condition takes
    std::next(begin(), final) anew. The result is what was printed and
    whether the iterator stopped before the end; nothing when the behaviour
    is undefined. *)
Fixpoint print_instances (instances rest : list Z) (idx final : Z)
    : option (list Z * bool) :=
  match rest with
  | [] => Some ([], false)
  | addr :: rest =>
      match std_next instances final with
      | None => None
      | Some _ =>
          if decide (idx = final) then Some ([], true)
          else match print_instances instances rest (idx + 1) final with
               | None => None
               | Some (printed, more) => Some (addr :: printed, more)
               end
      end
  end.

(** The arguments of findjsinstances as DoExecute sees them. *)
Record FindInstancesArgs := mkFindInstancesArgs {
  fi_cmd_given : bool;           (* cmd != nullptr && *cmd != nullptr *)
  fi_target : SBTarget;
  fi_process : SBProcess;
  fi_output_limit : Z;           (* printer_options.output_limit once
                                    ParsePrinterOptions has run *)
  fi_start : list string         (* the words left after the options *)
}.

Section FindInstances.
Variable unordered_iteration : gset Z → list Z.

(** The branch of DoExecute taken when the type name is in the histogram:
    the new page state and the text printed; nothing when an iterator is
    moved past the end of the set, where the behaviour is undefined. *)
Definition ShowInstances (full_cmd : string) (printer_output_limit : Z)
    (t : TypeRecord) (pagination_ : cmd_pagination_t)
    : option (cmd_pagination_t * list Output) :=
  let pagination_ :=
    UpdatePaginationOptions full_cmd printer_output_limit
      (GetInstanceCount t) pagination_ in
  let initial := initial_p_offset printer_output_limit pagination_ in
  let final := final_p_offset printer_output_limit pagination_ in
  let instances := unordered_iteration (GetInstances t) in
  let first := if decide (current_page pagination_ = 0) then 0 else initial in
  match (if decide (current_page pagination_ = 0) then Some instances
         else std_next instances initial) with
  | None => None
  | Some it =>
      match print_instances instances it first final with
      | None => None
      | Some (printed, more) =>
          Some (pagination_,
                (OutInstance <$> printed)
                ++ (if more then [OutDots] else [])
                ++ [OutShowing (wrap_int (initial + 1)) final
                      (total_entries pagination_)])
      end
  end.

(** FindInstancesCmd::DoExecute: the command keeps pagination_ between
    calls. Nothing is returned when the behaviour is undefined. *)
Definition FindInstancesCmd_DoExecute (a : FindInstancesArgs)
    (pagination_ : cmd_pagination_t) (llscan : LLScan)
    : option (Execution * cmd_pagination_t) :=
  if negb (fi_cmd_given a) then
    Some (fail_with ("USAGE: v8 findjsinstances [flags] instance_name" +:+ endl)
            false llscan [],
          pagination_)
  else if negb (IsValid (fi_target a)) then
    Some (fail_with ("No valid process, please start something" +:+ endl)
            false llscan [],
          pagination_)
  else
    let llscan := ScanHeapForObjects (fi_target a) (fi_process a) llscan in
    let steps := [StepLoad; StepScanHeapForObjects] in
    let full_cmd := foldl String.append "" (fi_start a) in
    let type_name := full_cmd in
    match GetMapsToInstances llscan !! type_name with
    | Some t =>
        match ShowInstances full_cmd (fi_output_limit a) t pagination_ with
        | None => None
        | Some (pagination_, printed) =>
            Some (mkExecution true
                    (mkResult None (Some eReturnStatusSuccessFinishResult) printed)
                    llscan steps,
                  pagination_)
        end
    | None =>
        Some (mkExecution false
                (mkResult None (Some eReturnStatusFailed)
                   [OutNoObjectsFound type_name])
                llscan steps,
              pagination_)
    end.

(** findjsinstances asked several times of one command object and one
    session: the executions in the order of the queries, and the page state
    and the session that the last one leaves. *)
Fixpoint FindInstancesCmd_queries (queries : list FindInstancesArgs)
    (pagination_ : cmd_pagination_t) (llscan : LLScan)
    : option (list Execution * cmd_pagination_t * LLScan) :=
  match queries with
  | [] => Some ([], pagination_, llscan)
  | a :: queries =>
      match FindInstancesCmd_DoExecute a pagination_ llscan with
      | None => None
      | Some (e, pagination_) =>
          match FindInstancesCmd_queries queries pagination_ (ex_llscan e) with
          | None => None
          | Some (es, pagination_, llscan) => Some (e :: es, pagination_, llscan)
          end
      end
  end.
End FindInstances.

(** ** The heap snapshot (HeapGraphNode, HeapGraphEdge, HeapSnapshotJSONSerializer) *)

Module HeapGraphNode.
(** enum HeapGraphNode::Type *)
Inductive Type_ :=
  | kHidden | kArray | kString | kObject | kCode | kClosure | kRegExp
  | kHeapNumber | kNative | kSynthetic | kConsString | kSlicedString
  | kSymbol | kSimdValue | kInvalid.

(** The enumerator values, which operator<< prints. *)
Definition value (t : Type_) : Z :=
  match t with
  | kHidden => 0 | kArray => 1 | kString => 2 | kObject => 3 | kCode => 4
  | kClosure => 5 | kRegExp => 6 | kHeapNumber => 7 | kNative => 8
  | kSynthetic => 9 | kConsString => 10 | kSlicedString => 11
  | kSymbol => 12 | kSimdValue => 13 | kInvalid => -1
  end.

Record t := mk {
  address : Z;
  name : Z;
  id : Z;
  size : Z;
  children : Z;
  trace_node_id : Z;
  type_ : Type_
}.
End HeapGraphNode.

Module HeapGraphEdge.
(** enum HeapGraphEdge::Type *)
Inductive Type_ :=
  | kContextVariable | kElement | kProperty | kInternal | kHidden
  | kShortcut | kWeak.

Definition value (t : Type_) : Z :=
  match t with
  | kContextVariable => 0 | kElement => 1 | kProperty => 2 | kInternal => 3
  | kHidden => 4 | kShortcut => 5 | kWeak => 6
  end.

Record t := mk {
  to_node_id : Z;
  to_address : Z;
  name_or_index : Z;
  type_ : Type_
}.

Definition set_to_node_id (to_node_id : Z) (e : t) : t :=
  mk to_node_id (to_address e) (name_or_index e) (type_ e).
End HeapGraphEdge.

#[global] Instance HeapGraphNode_Type_eq_dec : EqDecision HeapGraphNode.Type_.
Proof. solve_decision. Defined.

(** The members of HeapSnapshotJSONSerializer: the two deques, the string
    table and the stream write_ (a std::ofstream): the text of the file
    behind it, whether it is open, and its failbit. *)
Record HeapSnapshotJSONSerializer := mkSerializer {
  nodes_ : list HeapGraphNode.t;
  edges_ : list HeapGraphEdge.t;
  strings_ : list string;
  write_ : string;
  write_is_open_ : bool;
  write_fail_ : bool
}.

Definition HeapSnapshotJSONSerializer_new : HeapSnapshotJSONSerializer :=
  mkSerializer [] [] [] "" false false.

(** write_.open(name): a stream that is open already sets its failbit and
    leaves the file alone; otherwise the file starts anew and the state of
    the stream is cleared. *)
Definition ofstream_open (h : HeapSnapshotJSONSerializer)
    : HeapSnapshotJSONSerializer :=
  if write_is_open_ h
  then mkSerializer (nodes_ h) (edges_ h) (strings_ h) (write_ h) true true
  else mkSerializer (nodes_ h) (edges_ h) (strings_ h) "" true false.

(** write_ << text: nothing is written once the failbit is set. *)
Definition ofstream_write (text : string) (h : HeapSnapshotJSONSerializer)
    : HeapSnapshotJSONSerializer :=
  if write_fail_ h then h
  else mkSerializer (nodes_ h) (edges_ h) (strings_ h) (write_ h +:+ text)
         (write_is_open_ h) (write_fail_ h).

(** write_.close(): closing a stream that is not open sets the failbit;
    closing does not clear it. *)
Definition ofstream_close (h : HeapSnapshotJSONSerializer)
    : HeapSnapshotJSONSerializer :=
  mkSerializer (nodes_ h) (edges_ h) (strings_ h) (write_ h) false
    (write_fail_ h || negb (write_is_open_ h)).

(** The position of the first occurrence of [name], or the length of the
    vector: std::distance(begin, find(begin, end, name)). *)
Fixpoint find_position (name : string) (strings : list string) : nat :=
  match strings with
  | [] => 0
  | s :: strings => if decide (s = name) then 0 else S (find_position name strings)
  end.

(** HeapSnapshotJSONSerializer::GetStringId on the string table. *)
Definition GetStringId (name : string) (strings : list string) : Z * list string :=
  let position := find_position name strings in
  if decide (length strings ≤ position)%nat
  then (wrap64 (Z.of_nat (length strings) + 1), strings ++ [name])
  else (wrap64 (Z.of_nat position + 1), strings).

Definition push_node (node : HeapGraphNode.t) (h : HeapSnapshotJSONSerializer) :=
  mkSerializer (nodes_ h ++ [node]) (edges_ h) (strings_ h) (write_ h)
    (write_is_open_ h) (write_fail_ h).

Section Snapshot.
Variable v8 : LLV8.

(** The value read from a member that no statement has assigned:
    trace_node_id_ of every node, and to_node_id_ of an edge until DataEntry
    resolves it. *)
Variable indeterminate : Z.

(** What GetChildrenCount may change besides its result: it appends to
    edges_, interns property names in strings_, and reaches the session only
    through a ReferenceScanner and GetReferencesByValue, that is, the
    by-value index. *)
Record ChildrenState := mkChildrenState {
  cs_edges : list HeapGraphEdge.t;
  cs_strings : list string;
  cs_references_by_value : gmap Z ReferencesVector
}.

(** HeapSnapshotJSONSerializer::GetChildrenCount, which decodes the elements
    and the descriptors of the object through llv8, taken as given; it
    returns uint64_t(-1) when the object or its map fails Check(). *)
Variable GetChildrenCount : Z → ChildrenState → Z * ChildrenState.

(** HeapSnapshotJSONSerializer::InitialEntry; next_id is passed by value. *)
Definition InitialEntry (next_id : Z) (h : HeapSnapshotJSONSerializer)
    : HeapSnapshotJSONSerializer :=
  let '(name, strings) := GetStringId "" (strings_ h) in
  let h := mkSerializer (nodes_ h) (edges_ h) strings (write_ h)
             (write_is_open_ h) (write_fail_ h) in
  let next_id := wrap64 (next_id + 2) in
  push_node (HeapGraphNode.mk 0 name 1 0 0 indeterminate HeapGraphNode.kSynthetic) h.

(** HeapSnapshotJSONSerializer::AddGCRootsEntry; next_id is passed by value. *)
Definition AddGCRootsEntry (next_id : Z) (h : HeapSnapshotJSONSerializer)
    : HeapSnapshotJSONSerializer :=
  let '(name, strings) := GetStringId "(GC roots)" (strings_ h) in
  let h := mkSerializer (nodes_ h) (edges_ h) strings (write_ h)
             (write_is_open_ h) (write_fail_ h) in
  let id := next_id in
  let next_id := wrap64 (next_id + 2) in
  push_node (HeapGraphNode.mk 0 name id 0 0 indeterminate HeapGraphNode.kSynthetic) h.

(** HeapSnapshotJSONSerializer::GetInstanceType *)
Definition GetInstanceType (word : Z) : HeapGraphNode.Type_ :=
  let type := (GetType v8 word).1 in
  if decide (type = kCodeType v8) then HeapGraphNode.kCode
  else if decide (type = kJSFunctionType v8) then HeapGraphNode.kClosure
  else if decide (type = kJSRegExpType v8) then HeapGraphNode.kRegExp
  else if decide (type = kJSObjectType v8) then HeapGraphNode.kObject
  else if decide (type = kHeapNumberType v8) then HeapGraphNode.kHeapNumber
  else if decide (type < kFirstNonstringType v8) then
    let str_repr := (Representation v8 word).1 in
    if decide (str_repr = kConsStringTag v8) then HeapGraphNode.kConsString
    else if decide (str_repr = kSlicedStringTag v8) then HeapGraphNode.kSlicedString
    else HeapGraphNode.kString
  else if decide (type = kJSArrayBufferType v8 ∨ type = kJSTypedArrayType v8
                  ∨ type = kFixedArrayType v8 ∨ type = kJSArrayType v8)
  then HeapGraphNode.kArray
  else HeapGraphNode.kInvalid.

(** HeapSnapshotJSONSerializer::GetNodeSelfSize *)
Definition GetNodeSelfSize (word : Z) : Z :=
  if Smi_Check v8 word then 4
  else if negb (HeapObject_Check v8 word) then UINT64_MAX
  else match GetMap v8 word with
       | None => UINT64_MAX
       | Some map => wrap64 (InstanceSize v8 map)
       end.

(** The state of the loops of DataEntry. *)
Record DataEntryState := mkDataEntryState {
  de_next_id : Z;
  de_visitedNode : gmap Z HeapGraphNode.t;
  de_serializer : HeapSnapshotJSONSerializer;
  de_llscan : LLScan
}.

(** The body of the inner loop of DataEntry for one instance [record] of the
    type record named [type_name]; nothing when the body returns from
    DataEntry. *)
Definition DataEntry_instance (type_name : string) (record : Z)
    (st : DataEntryState) : option DataEntryState :=
  if decide (is_Some (de_visitedNode st !! record)) then None else
  let h := de_serializer st in
  let type_ := GetInstanceType record in
  let '(name, strings) := GetStringId type_name (strings_ h) in
  let id := de_next_id st in
  let next_id := wrap64 (de_next_id st + 2) in
  let size := GetNodeSelfSize record in
  let '(children, cs) :=
    GetChildrenCount record
      (mkChildrenState (edges_ h) strings (references_by_value_ (de_llscan st))) in
  let h := mkSerializer (nodes_ h) (cs_edges cs) (cs_strings cs) (write_ h)
             (write_is_open_ h) (write_fail_ h) in
  let llscan := set_references_by_value (cs_references_by_value cs) (de_llscan st) in
  let node := HeapGraphNode.mk record name id size children indeterminate type_ in
  if decide (children = UINT64_MAX) then
    Some (mkDataEntryState next_id (de_visitedNode st) h llscan)
  else if decide (type_ = HeapGraphNode.kInvalid) then
    Some (mkDataEntryState next_id (de_visitedNode st) h llscan)
  else
    Some (mkDataEntryState next_id (<[record := node]> (de_visitedNode st))
            (push_node node h) llscan).

(** The two nested loops over the type records and their instances, given
    as the pairs (type name, instance) in the order they are met; the flag
    tells whether the loops ran to their end. *)
Fixpoint DataEntry_instances (records : list (string * Z)) (st : DataEntryState)
    : bool * DataEntryState :=
  match records with
  | [] => (true, st)
  | (type_name, record) :: records =>
      match DataEntry_instance type_name record st with
      | None => (false, st)
      | Some st => DataEntry_instances records st
      end
  end.

(** The last loop of DataEntry: the node id of each edge. *)
Definition resolve_edge (visitedNode : gmap Z HeapGraphNode.t)
    (edge : HeapGraphEdge.t) : HeapGraphEdge.t :=
  match visitedNode !! HeapGraphEdge.to_address edge with
  | None => HeapGraphEdge.set_to_node_id 0 edge
  | Some node =>
      if decide (HeapGraphNode.address node ≠ HeapGraphEdge.to_address edge)
      then HeapGraphEdge.set_to_node_id 0 edge
      else HeapGraphEdge.set_to_node_id (wrap64 (HeapGraphNode.id node * 6)) edge
  end.

(** HeapSnapshotJSONSerializer::DataEntry *)
Definition DataEntry (records : list (string * Z)) (llscan : LLScan)
    (h : HeapSnapshotJSONSerializer) : HeapSnapshotJSONSerializer * LLScan :=
  let next_id := 1 in
  let h := InitialEntry next_id h in
  let h := AddGCRootsEntry next_id h in
  let '(finished, st) :=
    DataEntry_instances records (mkDataEntryState next_id ∅ h llscan) in
  let h := de_serializer st in
  if finished then
    (mkSerializer (nodes_ h) (resolve_edge (de_visitedNode st) <$> edges_ h)
       (strings_ h) (write_ h) (write_is_open_ h) (write_fail_ h),
     de_llscan st)
  else (h, de_llscan st).
End Snapshot.

(** ** Serialization of the snapshot (llscan.cc) *)

(** The macros of SnapshotSerializer. *)
Definition JSON_A (s : string) : string := "[" +:+ s +:+ "]".
Definition JSON_O (s : string) : string := "{" +:+ s +:+ "}".
Definition JSON_S (s : string) : string := quote +:+ s +:+ quote.

(** The items of a macro argument, which the source separates by ",". *)
Definition commas (items : list string) : string :=
  match items with
  | [] => ""
  | s :: items => foldl (λ acc item, acc +:+ "," +:+ item) s items
  end.

(** The text written after "meta": in SnapshotSerializer. *)
Definition snapshot_meta : string :=
  JSON_O (commas [
    JSON_S "node_fields" +:+ ":" +:+ JSON_A (commas [
      JSON_S "type"; JSON_S "name"; JSON_S "id"; JSON_S "self_size";
      JSON_S "edge_count"; JSON_S "trace_node_id"]);
    JSON_S "node_types" +:+ ":" +:+ JSON_A (commas [
      JSON_A (commas [
        JSON_S "hidden"; JSON_S "array"; JSON_S "string"; JSON_S "object";
        JSON_S "code"; JSON_S "closure"; JSON_S "regexp"; JSON_S "number";
        JSON_S "native"; JSON_S "synthetic"; JSON_S "concatenated string";
        JSON_S "sliced string"]);
      JSON_S "string"; JSON_S "number"; JSON_S "number"; JSON_S "number";
      JSON_S "number"; JSON_S "number"]);
    JSON_S "edge_fields" +:+ ":" +:+ JSON_A (commas [
      JSON_S "type"; JSON_S "name_or_index"; JSON_S "to_node"]);
    JSON_S "edge_types" +:+ ":" +:+ JSON_A (commas [
      JSON_A (commas [
        JSON_S "context"; JSON_S "element"; JSON_S "property";
        JSON_S "internal"; JSON_S "hidden"; JSON_S "shortcut"; JSON_S "weak"]);
      JSON_S "string_or_number"; JSON_S "node"]);
    JSON_S "trace_function_info_fields" +:+ ":" +:+ JSON_A (commas [
      JSON_S "function_id"; JSON_S "name"; JSON_S "script_name";
      JSON_S "script_id"; JSON_S "line"; JSON_S "column"]);
    JSON_S "trace_node_fields" +:+ ":" +:+ JSON_A (commas [
      JSON_S "id"; JSON_S "function_info_index"; JSON_S "count";
      JSON_S "size"; JSON_S "children"]);
    JSON_S "sample_fields" +:+ ":" +:+ JSON_A (commas [
      JSON_S "timestamp_us"; JSON_S "last_assigned_id"])]).

(** HeapSnapshotJSONSerializer::SnapshotSerializer: the text it writes. *)
Definition SnapshotSerializer (h : HeapSnapshotJSONSerializer) : string :=
  quote +:+ "meta" +:+ quote +:+ ":" +:+ snapshot_meta
  +:+ "," +:+ quote +:+ "node_count" +:+ quote +:+ ":"
  +:+ pretty (Z.of_nat (length (nodes_ h)))
  +:+ "," +:+ quote +:+ "edge_count" +:+ quote +:+ ":"
  +:+ pretty (Z.of_nat (length (edges_ h)))
  +:+ "," +:+ quote +:+ "trace_function_count" +:+ quote +:+ ":"
  +:+ pretty 0.

(** HeapSnapshotJSONSerializer::SerializeNode *)
Definition SerializeNode (node : HeapGraphNode.t) (initial_node : bool) : string :=
  (if initial_node then "" else ",")
  +:+ pretty (HeapGraphNode.value (HeapGraphNode.type_ node)) +:+ ","
  +:+ pretty (HeapGraphNode.name node) +:+ ","
  +:+ pretty (HeapGraphNode.id node) +:+ ","
  +:+ pretty (HeapGraphNode.size node) +:+ ","
  +:+ pretty (HeapGraphNode.children node) +:+ ","
  +:+ pretty (HeapGraphNode.trace_node_id node) +:+ endl.

(** HeapSnapshotJSONSerializer::SerializeEdge *)
Definition SerializeEdge (edge : HeapGraphEdge.t) (initial_edge : bool) : string :=
  (if initial_edge then "" else ",")
  +:+ pretty (HeapGraphEdge.value (HeapGraphEdge.type_ edge)) +:+ ","
  +:+ pretty (HeapGraphEdge.name_or_index edge) +:+ ","
  +:+ pretty (HeapGraphEdge.to_node_id edge) +:+ endl.

(** The loops of SerializeNodes, SerializeEdges and SerializeStrings: each
    item is written, and the loop returns after an item when err.Fail().
    Nothing in the serializer sets err, so [err_fail] is its state on entry. *)
Fixpoint serialize_loop {A : Type} (item : A → bool → string) (err_fail : bool)
    (l : list A) (initial : bool) : string :=
  match l with
  | [] => ""
  | x :: l =>
      item x initial
      +:+ (if err_fail then "" else serialize_loop item err_fail l false)
  end.

Definition SerializeNodes (err_fail : bool) (h : HeapSnapshotJSONSerializer) : string :=
  serialize_loop SerializeNode err_fail (nodes_ h) true.

Definition SerializeEdges (err_fail : bool) (h : HeapSnapshotJSONSerializer) : string :=
  serialize_loop SerializeEdge err_fail (edges_ h) true.

(** string.c_str() handed to a std::string parameter: the text up to the
    first NUL. *)
Fixpoint c_str (s : string) : string :=
  match s with
  | EmptyString => EmptyString
  | String c s =>
      if decide (c = Ascii.zero) then EmptyString else String c (c_str s)
  end.

(** HeapSnapshotJSONSerializer::SerializeString *)
Definition SerializeString (s : string) : string :=
  quote +:+ s +:+ quote +:+ "," +:+ endl.

Definition SerializeStrings (err_fail : bool) (h : HeapSnapshotJSONSerializer) : string :=
  quote +:+ "<dummy>" +:+ quote
  +:+ serialize_loop (λ s _, SerializeString (c_str s)) err_fail (strings_ h) true.

(** HeapSnapshotJSONSerializer::ImplementSnapshot: the text appended to
    write_. *)
Definition ImplementSnapshot_text (err_fail : bool) (h : HeapSnapshotJSONSerializer)
    : string :=
  "{"
  +:+ quote +:+ "snapshot" +:+ quote +:+ ":{"
  +:+ SnapshotSerializer h
  +:+ "}," +:+ endl
  +:+ quote +:+ "nodes" +:+ quote +:+ ":["
  +:+ SerializeNodes err_fail h
  +:+ "]," +:+ endl
  +:+ quote +:+ "edges" +:+ quote +:+ ":["
  +:+ SerializeEdges err_fail h
  +:+ "]" +:+ endl
  +:+ quote +:+ "trace_function_infos" +:+ quote +:+ ":["
  +:+ "]" +:+ endl
  +:+ quote +:+ "trace_tree" +:+ quote +:+ ":["
  +:+ "]" +:+ endl
  +:+ quote +:+ "samples" +:+ quote +:+ ":["
  +:+ "]," +:+ endl
  +:+ quote +:+ "strings" +:+ quote +:+ ":["
  +:+ SerializeStrings err_fail h
  +:+ "]," +:+ endl.

Definition ImplementSnapshot (err_fail : bool) (h : HeapSnapshotJSONSerializer)
    : HeapSnapshotJSONSerializer :=
  ofstream_write (ImplementSnapshot_text err_fail h) h.

(** The checks with which GetChildrenCount begins (llscan.cc 1730-1732): it
    returns uint64_t(-1) for a word that is no heap object, or whose map
    cannot be read or is no heap object (GetMap gives nothing), before it
    reads anything else; [count_children] is the walk over the elements and
    the descriptors that follows. *)
Definition GetChildrenCount_checked (v8 : LLV8)
    (count_children : Z → ChildrenState → Z * ChildrenState)
    (word : Z) (cs : ChildrenState) : Z * ChildrenState :=
  if negb (HeapObject_Check v8 word) then (UINT64_MAX, cs)
  else match GetMap v8 word with
       | None => (UINT64_MAX, cs)
       | Some _ => count_children word cs
       end.

Section SnapshotCommand.
Variable v8 : LLV8.
Variable unordered_iteration : gset Z → list Z.
Variable indeterminate : Z.
Variable GetChildrenCount : Z → ChildrenState → Z * ChildrenState.

(** The state of the member err when DataEntry returns, which the accessors
    of llv8 called last decide. *)
Variable err_fail_after_DataEntry : bool.

(** The pairs (type name, instance) in the order in which the two loops of
    DataEntry meet them. *)
Definition DataEntry_records (llscan : LLScan) : list (string * Z) :=
  entry ← TypeRecordMap_iteration (GetMapsToInstances llscan);
  (λ record, (GetTypeName entry.2, record))
    <$> unordered_iteration (GetInstances entry.2).

(** HeapSnapshotJSONSerializer::DoExecute. write_ is opened before the
    target is looked at and closed only at the end, so a call that returns
    early leaves it open; the deques and the string table are those of the
    command object. *)
Definition HeapSnapshotJSONSerializer_DoExecute (target : SBTarget)
    (process : SBProcess) (h : HeapSnapshotJSONSerializer) (llscan : LLScan)
    : Execution * HeapSnapshotJSONSerializer :=
  let h := ofstream_open h in
  if negb (IsValid target) then
    (fail_with ("Invalid process.." +:+ endl) false llscan [], h)
  else
    let llscan := ScanHeapForObjects target process llscan in
    let '(h, llscan) :=
      DataEntry v8 indeterminate GetChildrenCount
        (DataEntry_records llscan) llscan h in
    let h := ImplementSnapshot err_fail_after_DataEntry h in
    let h := ofstream_close h in
    (mkExecution true SBCommandReturnObject_new llscan
       [StepLoad; StepScanHeapForObjects],
     h).
End SnapshotCommand.

(** ** The operations on a session *)

(** The ways in which the two files change an LLScan: the three commands,
    and the members the commands are built from. *)
Inductive SessionOp :=
  | OpScanHeapForObjects (target : SBTarget) (process : SBProcess)
  | OpClearMapsToInstances
  | OpClearReferences
  | OpInsertOnContexts (word : Z)
  | OpVisit (d : Decoded) (word : Z)
  | OpGetReferencesByValue (address : Z)
  | OpGetReferencesByProperty (property : string)
  | OpGetReferencesByString (string_value : string)
  | OpScanForReferences (v8 : LLV8) (order : gset Z → list Z)
      (scanner : ObjectScanner)
  | OpFindReferences (v8 : LLV8) (order : gset Z → list Z) (fuel : nat)
      (a : FindReferencesArgs)
  | OpFindInstances (order : gset Z → list Z) (a : FindInstancesArgs)
      (pagination_ : cmd_pagination_t)
  | OpHeapSnapshot (v8 : LLV8) (order : gset Z → list Z) (indeterminate : Z)
      (GetChildrenCount : Z → ChildrenState → Z * ChildrenState)
      (err_fail : bool) (target : SBTarget) (process : SBProcess)
      (h : HeapSnapshotJSONSerializer).

(** The session after one operation; a findrefs that does not return within
    its fuel, and a findjsinstances whose behaviour is undefined, leave the
    session as they met it. *)
Definition session_step (s : LLScan) (op : SessionOp) : LLScan :=
  match op with
  | OpScanHeapForObjects target process => ScanHeapForObjects target process s
  | OpClearMapsToInstances => ClearMapsToInstances s
  | OpClearReferences => ClearReferences s
  | OpInsertOnContexts word => InsertOnContexts word s
  | OpVisit d word => (Visit d word (FindJSObjectsVisitor_new, s)).2
  | OpGetReferencesByValue address => (GetReferencesByValue address s).2
  | OpGetReferencesByProperty property => (GetReferencesByProperty property s).2
  | OpGetReferencesByString string_value => (GetReferencesByString string_value s).2
  | OpScanForReferences v8 order scanner => ScanForReferences v8 order scanner s
  | OpFindReferences v8 order fuel a =>
      from_option ex_llscan s (FindReferencesCmd_DoExecute v8 order fuel a s)
  | OpFindInstances order a pagination_ =>
      from_option (λ r, ex_llscan r.1) s
        (FindInstancesCmd_DoExecute order a pagination_ s)
  | OpHeapSnapshot v8 order indeterminate GetChildrenCount err_fail target process h =>
      ex_llscan
        (HeapSnapshotJSONSerializer_DoExecute v8 order indeterminate
           GetChildrenCount err_fail target process h s).1
  end.

Definition session_run (ops : list SessionOp) (s : LLScan) : LLScan :=
  foldl session_step s ops.

(** ** Notions used to state the properties *)

(** How often [src] occurs in the vector stored under [k]. *)
Definition times_referenced `{Countable K} (src : Z) (k : K)
    (m : gmap K ReferencesVector) : nat :=
  length (filter (λ a, a = src) (default [] (m !! k))).

(** "+ " lines and " [seen above]" marks in a printed text. *)
Definition is_branch (o : Output) : bool :=
  match o with OutBranch _ => true | _ => false end.
Definition count_branches (out : list Output) : nat :=
  length (filter (λ o, is_branch o = true) out).
Definition count_seen (out : list Output) : nat :=
  length (filter (λ o, o = OutSeenAbove) out).

(** The last character of a text that is not a blank or a line end. *)
Definition is_blank (c : Ascii.ascii) : bool :=
  bool_decide (c = Ascii.ascii_of_nat 32 ∨ c = Ascii.ascii_of_nat 10
               ∨ c = Ascii.ascii_of_nat 13 ∨ c = Ascii.ascii_of_nat 9).

Fixpoint last_non_blank (s : string) : option Ascii.ascii :=
  match s with
  | EmptyString => None
  | String c s =>
      match last_non_blank s with
      | Some d => Some d
      | None => if is_blank c then None else Some c
      end
  end.

(** A JSON document that is an object ends with its closing brace. *)
Definition json_object_closed (s : string) : bool :=
  bool_decide (last_non_blank s = Some (Ascii.ascii_of_nat 125)).

(** Whether [needle] occurs in [s]. *)
Fixpoint occurs_in (needle s : string) : bool :=
  String.prefix needle s
  || match s with
     | EmptyString => false
     | String _ s => occurs_in needle s
     end.

(** The node ids as the specification words them: a synthetic root with id 1
    and the empty name, a synthetic "(GC roots)" node with an even id, then
    instance nodes whose ids are even and increase, no id used twice. *)
Definition node_ids_as_specified (strings : list string)
    (nodes : list HeapGraphNode.t) : Prop :=
  ∃ root gc instances,
    nodes = root :: gc :: instances
    ∧ HeapGraphNode.type_ root = HeapGraphNode.kSynthetic
    ∧ HeapGraphNode.id root = 1
    ∧ strings !! Z.to_nat (HeapGraphNode.name root - 1) = Some ""
    ∧ HeapGraphNode.type_ gc = HeapGraphNode.kSynthetic
    ∧ strings !! Z.to_nat (HeapGraphNode.name gc - 1) = Some "(GC roots)"
    ∧ Z.even (HeapGraphNode.id gc) = true
    ∧ Forall (λ n, Z.even (HeapGraphNode.id n) = true) instances
    ∧ StronglySorted Z.lt (HeapGraphNode.id <$> instances)
    ∧ NoDup (HeapGraphNode.id <$> nodes).

(** ** Sample heaps *)

(** A layout model with distinct constants in which nothing decodes. *)
Definition sample_v8 : LLV8 :=
  mkLLV8 (λ type, bool_decide (type = 1057)) 1061 1086 128
    69 1105 1077 1057 65 1083 119 3 1 5
    (λ _, false) (λ _, true) (λ _, None) (λ _, 0)
    (λ _, (1057, true)) (λ _, 0) (λ _ _, None) (λ _, None) (λ _, None)
    (λ _, (0, false)) (λ _, (0, false)) (λ _, (0, false)) (λ _, (0, false))
    (λ _, (0, false)) (λ _, None).

(** The same model, seeing one object with two entries whose keys print as
    the same name. *)
Definition v8_two_entries_one_name : LLV8 :=
  mkLLV8 (IsObjectType sample_v8) (kJSArrayType sample_v8)
    (kJSTypedArrayType sample_v8) (kFirstNonstringType sample_v8)
    (kCodeType sample_v8) (kJSFunctionType sample_v8) (kJSRegExpType sample_v8)
    (kJSObjectType sample_v8) (kHeapNumberType sample_v8)
    (kJSArrayBufferType sample_v8) (kFixedArrayType sample_v8)
    (kSlicedStringTag sample_v8) (kConsStringTag sample_v8)
    (kThinStringTag sample_v8)
    (Smi_Check sample_v8) (HeapObject_Check sample_v8) (GetMap sample_v8)
    (InstanceSize sample_v8) (GetType sample_v8) (GetArrayLength sample_v8)
    (GetArrayElement sample_v8)
    (λ js_obj, if decide (js_obj = 4097) then Some [(8193, 12289); (8201, 12297)] else None)
    (λ key, if decide (key = 8193 ∨ key = 8201) then Some "x" else None)
    (Representation sample_v8) (Parent sample_v8) (First sample_v8)
    (Second sample_v8) (Actual sample_v8) (Locals sample_v8).

(** The sample model with the usual tagging of small integers: the lowest
    bit of the word is clear. *)
Definition v8_tagged : LLV8 :=
  mkLLV8 (IsObjectType sample_v8) (kJSArrayType sample_v8)
    (kJSTypedArrayType sample_v8) (kFirstNonstringType sample_v8)
    (kCodeType sample_v8) (kJSFunctionType sample_v8) (kJSRegExpType sample_v8)
    (kJSObjectType sample_v8) (kHeapNumberType sample_v8)
    (kJSArrayBufferType sample_v8) (kFixedArrayType sample_v8)
    (kSlicedStringTag sample_v8) (kConsStringTag sample_v8)
    (kThinStringTag sample_v8)
    (λ word, bool_decide (Z.land word 1 = 0))
    (HeapObject_Check sample_v8) (GetMap sample_v8)
    (InstanceSize sample_v8) (GetType sample_v8) (GetArrayLength sample_v8)
    (GetArrayElement sample_v8) (Entries sample_v8) (ToString sample_v8)
    (Representation sample_v8) (Parent sample_v8) (First sample_v8)
    (Second sample_v8) (Actual sample_v8) (Locals sample_v8).

(** A session whose by-value index holds a cycle: 4097 is referenced by 4129
    and 4129 by 4097. *)
Definition cyclic_session : LLScan :=
  mkLLScan (Some 1) ∅ ∅ (<[4097 := [4129]]> (<[4129 := [4097]]> ∅)) ∅ ∅ ∅.

(** A process whose memory holds one word, the address of an object with the
    property "a". *)
Definition one_object_entry : MapCacheEntry :=
  mkMapCacheEntry "Object" true false ["a"] 1 0.

Definition one_object_process : SBProcess :=
  mkProcess [4097]
    (λ _, mkDecoded false true (Some 2049) (Some one_object_entry) 24 false).

(** Another process: one word, the address of another object of the same
    shape. *)
Definition other_object_process : SBProcess :=
  mkProcess [8193]
    (λ _, mkDecoded false true (Some 2049) (Some one_object_entry) 24 false).

(** A process with no writable memory. *)
Definition empty_process : SBProcess :=
  mkProcess [] (λ _, mkDecoded true false None None 0 false).

(** findrefs (by value) for the expression "6", which evaluates to the
    small integer 3 as V8 tags it. *)
Definition findrefs_of_smi : FindReferencesArgs :=
  mkFindReferencesArgs true (Some 1) one_object_process ScanOptions_new
    ["6"] (λ _, inr 6).

(** GetChildrenCount of an object without outgoing references. *)
Definition no_children (word : Z) (cs : ChildrenState) : Z * ChildrenState := (0, cs).

(** The layout model as it sees the heaps of one_object_process and of
    foo_process below, whose decoders answer alike for every word: a word is
    a heap object of type JSObject whose map lies at 2049 and whose size is
    24. *)
Definition v8_objects : LLV8 :=
  mkLLV8 (IsObjectType sample_v8) (kJSArrayType sample_v8)
    (kJSTypedArrayType sample_v8) (kFirstNonstringType sample_v8)
    (kCodeType sample_v8) (kJSFunctionType sample_v8) (kJSRegExpType sample_v8)
    (kJSObjectType sample_v8) (kHeapNumberType sample_v8)
    (kJSArrayBufferType sample_v8) (kFixedArrayType sample_v8)
    (kSlicedStringTag sample_v8) (kConsStringTag sample_v8)
    (kThinStringTag sample_v8)
    (Smi_Check sample_v8) (HeapObject_Check sample_v8)
    (λ _, Some 2049) (λ _, 24) (GetType sample_v8) (GetArrayLength sample_v8)
    (GetArrayElement sample_v8) (Entries sample_v8) (ToString sample_v8)
    (Representation sample_v8) (Parent sample_v8) (First sample_v8)
    (Second sample_v8) (Actual sample_v8) (Locals sample_v8).

(** GetChildrenCount on these heaps: no property of an object holds a heap
    object, so that the walk over the descriptors counts no child. *)
Definition GetChildrenCount_objects : Z → ChildrenState → Z * ChildrenState :=
  GetChildrenCount_checked v8_objects no_children.

(** A process whose writable memory holds [n] words, the addresses of [n]
    objects of the type "Foo", and findjsinstances for that type with a
    limit. *)
Definition foo_entry : MapCacheEntry := mkMapCacheEntry "Foo" true false [] 0 0.

Definition foo_words (n : Z) : list Z := (λ i, 4097 + 16 * i) <$> seqZ 0 n.

Definition foo_process (n : Z) : SBProcess :=
  mkProcess (foo_words n)
    (λ _, mkDecoded false true (Some 2049) (Some foo_entry) 24 false).

Definition findjsinstances_of (type_name : string) (target n limit : Z)
    : FindInstancesArgs :=
  mkFindInstancesArgs true (Some target) (foo_process n) limit [type_name].

(** What a run of queries has printed, query by query, and the page state
    it leaves. *)
Definition queries_shown
    (run : option (list Execution * cmd_pagination_t * LLScan))
    : option (list (list Output) * cmd_pagination_t) :=
  match run with
  | Some (es, pagination_, _) =>
      Some ((λ e, res_output (ex_result e)) <$> es, pagination_)
  | None => None
  end.

(** An order of iteration for the samples: the elements as stdpp lists
    them. *)
Definition sample_order : gset Z → list Z := elements.

(** ** Notions used in the proofs *)

(** The detailed records of [s] are still in [s'], with at least the same
    instances. *)
Definition detailed_records_kept (s s' : LLScan) : Prop :=
  ∀ key t, detailedmapstoinstances_ s !! key = Some t →
    ∃ t', detailedmapstoinstances_ s' !! key = Some t'
          ∧ instances_ (dtr_record t) ⊆ instances_ (dtr_record t').

(** What one visited word may change in the session: the context set and
    the records only grow, the target and the three indices stay. *)
Definition visit_frame (s s' : LLScan) : Prop :=
  contexts_ s ⊆ contexts_ s'
  ∧ detailed_records_kept s s'
  ∧ target_ s' = target_ s
  ∧ references_by_value_ s' = references_by_value_ s
  ∧ references_by_property_ s' = references_by_property_ s
  ∧ references_by_string_ s' = references_by_string_ s.

(** What the loops of a scanner keep true: against the index [m0] met on
    entry, the source has been appended once under each key of
    [already_saved] and nowhere else. *)
Definition saved_once `{Countable K} (src : Z) (m0 : gmap K ReferencesVector)
    (already_saved : gset K) (m : gmap K ReferencesVector) : Prop :=
  ∀ k, times_referenced src k m
       = (times_referenced src k m0 + (if decide (k ∈ already_saved) then 1 else 0))%nat.

(** Every address met in a reference vector or in the context set lies in
    the finite set [U]. *)
Definition refs_bounded (order : gset Z → list Z) (U : gset Z) (s : LLScan)
    : Prop :=
  (∀ k v a, references_by_value_ s !! k = Some v → a ∈ v → a ∈ U)
  ∧ (∀ c, c ∈ order (contexts_ s) → c ∈ U).

Definition print_wf (order : gset Z → list Z) (U : gset Z) (st : PrintState)
    : Prop :=
  refs_bounded order U (ps_llscan st)
  ∧ NoDup (ps_visited st)
  ∧ (∀ a, a ∈ ps_visited st → a ∈ U).

(** How a call leaves the state: the visited vector and the text only grow,
    the context set is the same, and every "+ " line written is either
    followed by " [seen above]" or matched by one address added to the
    visited vector. *)
Definition print_ext (st st' : PrintState) : Prop :=
  ps_visited st `prefix_of` ps_visited st'
  ∧ ps_result st `prefix_of` ps_result st'
  ∧ contexts_ (ps_llscan st') = contexts_ (ps_llscan st)
  ∧ (count_branches (ps_result st') + length (ps_visited st)
       + count_seen (ps_result st)
     = count_branches (ps_result st) + length (ps_visited st')
       + count_seen (ps_result st'))%nat.

(** The addresses of [U] not yet visited. *)
Definition unvisited (U : gset Z) (st : PrintState) : nat :=
  size (U ∖ list_to_set (ps_visited st)).

(** What holds of the state whenever a loop of the printing functions takes
    a turn: the invariant, and at most [n] addresses left to visit. *)
Definition print_inv (order : gset Z → list Z) (U : gset Z) (n : nat)
    (st : PrintState) : Prop :=
  print_wf order U st ∧ (unvisited U st ≤ n)%nat.

(** A finite set that holds every address of the session and of [extra]. *)
Definition universe_of (order : gset Z → list Z) (llscan : LLScan)
    (extra : list Z) : gset Z :=
  list_to_set (mjoin (map_to_list (references_by_value_ llscan)).*2)
  ∪ list_to_set (order (contexts_ llscan))
  ∪ list_to_set extra.

(** The context set of [s'] is that of [s]. *)
Definition same_contexts (s s' : LLScan) : Prop := contexts_ s' = contexts_ s.

(** The same, of the sessions of two printing states. *)
Definition print_same_contexts (st st' : PrintState) : Prop :=
  same_contexts (ps_llscan st) (ps_llscan st').

(** The id that DataEntry hands to the instance it visits as number [j],
    counting from 0. *)
Definition nth_id (j : Z) : Z := wrap64 (1 + 2 * j).

(** After [k] instances were visited: the nodes pushed since [pre] carry the
    ids of some of the visits, in the order of the visits. *)
Definition ids_invariant (pre : list HeapGraphNode.t) (k : Z)
    (st : DataEntryState) : Prop :=
  0 ≤ k ∧ de_next_id st = nth_id k
  ∧ ∃ instances js,
      nodes_ (de_serializer st) = pre ++ instances
      ∧ HeapGraphNode.id <$> instances = nth_id <$> js
      ∧ StronglySorted Z.lt js
      ∧ Forall (λ j, 0 ≤ j < k) js.

(** * Further parts of the two files *)

(** ** Parsing the options (ParseScanOptions, ParsePrinterOptions) *)

(** The values that getopt_long returns for the options of findrefs. *)
Definition opt_r : Z := 114.
Definition opt_v : Z := 118.
Definition opt_n : Z := 110.
Definition opt_s : Z := 115.

(** The do-while loop of FindReferencesCmd::ParseScanOptions on the values
    that getopt_long returns before -1, in order; [found_scan_type] is the
    local flag. *)
Fixpoint ParseScanOptions_loop (args : list Z) (found_scan_type : bool)
    (options : ScanOptions) : ScanOptions :=
  match args with
  | [] => options
  | arg :: args =>
      if found_scan_type
      then mkScanOptions kBadOption (recursive_scan options)
      else if decide (arg = opt_r) then
        ParseScanOptions_loop args found_scan_type
          (mkScanOptions (scan_type options) true)
      else if decide (arg = opt_v) then
        ParseScanOptions_loop args true
          (mkScanOptions kFieldValue (recursive_scan options))
      else if decide (arg = opt_n) then
        ParseScanOptions_loop args true
          (mkScanOptions kPropertyName (recursive_scan options))
      else if decide (arg = opt_s) then
        ParseScanOptions_loop args true
          (mkScanOptions kStringValue (recursive_scan options))
      else
        ParseScanOptions_loop args found_scan_type
          (mkScanOptions kBadOption (recursive_scan options))
  end.

(** What ParseScanOptions leaves in *options. *)
Definition ParseScanOptions (args : list Z) (options : ScanOptions) : ScanOptions :=
  ParseScanOptions_loop args false options.

(** Whether an option selects the kind of search. *)
Definition is_scan_type_option (arg : Z) : bool :=
  bool_decide (arg = opt_v ∨ arg = opt_n ∨ arg = opt_s).

Definition scan_type_of_option (arg : Z) : ScanType :=
  if decide (arg = opt_v) then kFieldValue
  else if decide (arg = opt_n) then kPropertyName
  else if decide (arg = opt_s) then kStringValue
  else kBadOption.

(** Printer::PrinterOptions (declared in src/printer.h, which is not among
    the files): the members that llscan.cc reads or writes. *)
Record PrinterOptions := mkPrinterOptions {
  po_length : Z;
  po_print_map : bool;
  po_print_source : bool;
  po_detailed : bool;
  po_output_limit : Z
}.

(** The values that getopt_long returns for the options of the printer. *)
Definition opt_F : Z := 70.
Definition opt_m : Z := 109.
Definition opt_l : Z := 108.
Definition opt_d : Z := 100.

(** The switch of ParsePrinterOptions for one option; [optarg] is what
    strtol(optarg, nullptr, 10) gives. *)
Definition ParsePrinterOptions_arg (options : PrinterOptions) (arg : Z * Z)
    : PrinterOptions :=
  let '(arg, optarg) := arg in
  if decide (arg = opt_F) then
    mkPrinterOptions 0 (po_print_map options) (po_print_source options)
      (po_detailed options) (po_output_limit options)
  else if decide (arg = opt_m) then
    mkPrinterOptions (po_length options) true (po_print_source options)
      (po_detailed options) (po_output_limit options)
  else if decide (arg = opt_l) then
    mkPrinterOptions optarg (po_print_map options) (po_print_source options)
      (po_detailed options) (po_output_limit options)
  else if decide (arg = opt_s) then
    mkPrinterOptions (po_length options) (po_print_map options) true
      (po_detailed options) (po_output_limit options)
  else if decide (arg = opt_d ∨ arg = opt_v) then
    mkPrinterOptions (po_length options) (po_print_map options)
      (po_print_source options) true (po_output_limit options)
  else if decide (arg = opt_n) then
    let limit := wrap_int optarg in
    mkPrinterOptions (po_length options) (po_print_map options)
      (po_print_source options) (po_detailed options)
      (if bool_decide (limit ≠ 0) && bool_decide (limit > 0) then limit else 0)
  else options.

(** The loop of ParsePrinterOptions on the options that getopt_long returns
    before -1, each with its numeric argument. *)
Definition ParsePrinterOptions (args : list (Z * Z)) (options : PrinterOptions)
    : PrinterOptions :=
  foldl ParsePrinterOptions_arg options args.

(** ** Invariants of a session *)

(** The relation that std::sort needs of its comparison: the triple that
    CompareInstanceCounts looks at. *)
Definition sort_key (t : TypeRecord) : Z * Z * string :=
  (instance_count_ t, total_instance_size_ t, type_name_ t).

(** What every record of a histogram satisfies: its counter is the size of
    its set of instances, and the set is not empty. *)
Definition record_wf (t : TypeRecord) : Prop :=
  instance_count_ t = wrap64 (Z.of_nat (size (instances_ t)))
  ∧ instances_ t ≠ ∅.

(** The histograms of a session: the coarse records are well formed and
    stored under their type name, the detailed records are well formed, and
    every instance of a coarse record is an instance of a detailed record. *)
Definition histogram_wf (s : LLScan) : Prop :=
  (∀ k t, mapstoinstances_ s !! k = Some t → type_name_ t = k ∧ record_wf t)
  ∧ (∀ k d, detailedmapstoinstances_ s !! k = Some d → record_wf (dtr_record d))
  ∧ (∀ k t a, mapstoinstances_ s !! k = Some t → a ∈ instances_ t →
       ∃ k' d, detailedmapstoinstances_ s !! k' = Some d
               ∧ a ∈ instances_ (dtr_record d)).

(** Nothing but the three reference indices differs between [s] and [s']. *)
Definition only_references_differ (s s' : LLScan) : Prop :=
  target_ s' = target_ s
  ∧ mapstoinstances_ s' = mapstoinstances_ s
  ∧ detailedmapstoinstances_ s' = detailedmapstoinstances_ s
  ∧ contexts_ s' = contexts_ s.

(** An index only grows: under every key the vector of [m'] is the vector
    of [m] followed by addresses that satisfy [P], and no key is lost. *)
Definition index_grows `{Countable K} (P : Z → Prop)
    (m m' : gmap K ReferencesVector) : Prop :=
  ∀ k, (is_Some (m !! k) → is_Some (m' !! k))
       ∧ ∃ added, default [] (m' !! k) = default [] (m !! k) ++ added
                  ∧ Forall P added.

(** An address that a coarse record holds. *)
Definition is_instance (s : LLScan) (a : Z) : Prop :=
  ∃ k t, mapstoinstances_ s !! k = Some t ∧ a ∈ instances_ t.

(** An address that ScanForReferences meets when it walks the coarse
    records of [s]. *)
Definition scanned_address (order : gset Z → list Z) (s : LLScan) (a : Z)
    : Prop :=
  ∃ entry, entry ∈ TypeRecordMap_iteration (mapstoinstances_ s)
           ∧ a ∈ order (instances_ entry.2).

(** What a scanner may do to a session: nothing outside the indices, its own
    index only grows, by addresses that satisfy [P], and the two other
    indices stay as they are. *)
Definition scanner_effect (P : Z → Prop) (scanner : ObjectScanner)
    (s s' : LLScan) : Prop :=
  only_references_differ s s'
  ∧ match scanner with
    | ReferenceScanner _ =>
        index_grows P (references_by_value_ s) (references_by_value_ s')
        ∧ references_by_property_ s' = references_by_property_ s
        ∧ references_by_string_ s' = references_by_string_ s
    | PropertyScanner _ =>
        references_by_value_ s' = references_by_value_ s
        ∧ index_grows P (references_by_property_ s) (references_by_property_ s')
        ∧ references_by_string_ s' = references_by_string_ s
    | StringScanner _ =>
        references_by_value_ s' = references_by_value_ s
        ∧ references_by_property_ s' = references_by_property_ s
        ∧ index_grows P (references_by_string_ s) (references_by_string_ s')
    end.

(** The same for the three indices at once. *)
Definition references_grow (P : Z → Prop) (s s' : LLScan) : Prop :=
  only_references_differ s s'
  ∧ index_grows P (references_by_value_ s) (references_by_value_ s')
  ∧ index_grows P (references_by_property_ s) (references_by_property_ s')
  ∧ index_grows P (references_by_string_ s) (references_by_string_ s').

(** Printing adds keys to the indices and no address to any vector. *)
Definition print_references_grow (st st' : PrintState) : Prop :=
  references_grow (λ _, False) (ps_llscan st) (ps_llscan st').

(** The iteration of an unordered set yields elements of the set. *)
Definition iterates_members (order : gset Z → list Z) : Prop :=
  ∀ (X : gset Z) (x : Z), x ∈ order X → x ∈ X.

(** ** Printing without recursion *)

(** Whether PrintReferences prints a referrer: it is an object, an array or
    a string. *)
Definition is_printed (v8 : LLV8) (addr : Z) : bool :=
  let type := (GetType v8 addr).1 in
  is_object_or_array v8 type || bool_decide (type < kFirstNonstringType v8).

(** The lines of PrintContextRefs when nothing recurses: one for each local
    of each context that is the value searched for. *)
Definition context_lines (v8 : LLV8) (order : gset Z → list Z)
    (scanner : ObjectScanner) (s : LLScan) : list Output :=
  match scanner with
  | ReferenceScanner search_value_ =>
      ctx ← order (contexts_ s);
      match Locals v8 ctx with
      | None => []
      | Some locals =>
          (λ _, OutContextRef ctx search_value_)
            <$> filter (λ local, local = search_value_) locals
      end
  | _ => []
  end.

Definition printed_references (v8 : LLV8) (order : gset Z → list Z)
    (scanner : ObjectScanner) (level : Z) (references : ReferencesVector)
    (s : LLScan) : list Output :=
  ((λ addr, OutPrintRefs scanner addr level)
     <$> filter (λ addr, is_printed v8 addr = true) references)
  ++ context_lines v8 order scanner s.

(** Text added to the result, the rest of the state being left alone. *)
Definition append_output (out : list Output) (st : PrintState) : PrintState :=
  mkPrintState (ps_llscan st) (ps_visited st) (ps_result st ++ out).

(** Two scanners of the same class read and fill the same index. *)
Definition same_kind (a b : ObjectScanner) : bool :=
  match a, b with
  | ReferenceScanner _, ReferenceScanner _
  | PropertyScanner _, PropertyScanner _
  | StringScanner _, StringScanner _ => true
  | _, _ => false
  end.

(** ** The cache of maps of FindJSObjectsVisitor *)

(** The map of a word when Visit gets as far as looking into map_cache_. *)
Definition reaches_map (d : Decoded) : option Z :=
  if smi_check d then None
  else if negb (heap_object_check d) then None
  else map_raw d.

(** The end of Visit, once the entry of the map is known. *)
Definition Visit_insert (map_info : MapCacheEntry) (d : Decoded) (word : Z)
    (vs : FindJSObjectsVisitor * LLScan) : FindJSObjectsVisitor * LLScan :=
  let '(v, s) := vs in
  if is_context map_info then (v, InsertOnContexts word s) else
  if negb (is_histogram map_info) then (v, s) else
  let s := InsertOnMapsToInstances word (instance_size d) map_info s in
  let s := InsertOnDetailedMapsToInstances word (instance_size d) map_info s in
  if instance_size_fails d then (v, s)
  else (mkVisitor ((found_count_ v + 1) mod 2 ^ 32) (map_cache_ v), s).

(** What map_cache_ holds for [map] once the words [ws] have been visited,
    oldest first, by a visitor that started with an empty cache: the entry
    loaded from the first word of that map whose Load succeeded. *)
Fixpoint cached_entry (decode : Z → Decoded) (ws : list Z) (map : Z)
    : option MapCacheEntry :=
  match ws with
  | [] => None
  | w :: ws =>
      match (if decide (reaches_map (decode w) = Some map)
             then load_result (decode w) else None) with
      | Some e => Some e
      | None => cached_entry decode ws map
      end
  end.

(** The word [w] as a visitor without a cache would have to see it in order
    to do what the caching visitor does after the words [before]. *)
Definition with_cache (decode : Z → Decoded) (before : list Z) (w : Z) : Decoded :=
  let d := decode w in
  match reaches_map d with
  | Some map =>
      match cached_entry decode before map with
      | Some e =>
          mkDecoded (smi_check d) (heap_object_check d) (map_raw d) (Some e)
            (instance_size d) (instance_size_fails d)
      | None => d
      end
  | None => d
  end.

(** A scan in which every word is visited by a new visitor. *)
Fixpoint scan_without_cache (decode : Z → Decoded) (before rest : list Z)
    (s : LLScan) : LLScan :=
  match rest with
  | [] => s
  | w :: rest =>
      scan_without_cache decode (before ++ [w]) rest
        (Visit (with_cache decode before w) w (FindJSObjectsVisitor_new, s)).2
  end.

(** Load gives the same entry for all the objects of a map. *)
Definition map_consistent (process : SBProcess) : Prop :=
  ∀ w1 w2 m e,
    w1 ∈ memory_words process → w2 ∈ memory_words process →
    reaches_map (decode process w1) = Some m →
    reaches_map (decode process w2) = Some m →
    load_result (decode process w1) = Some e →
    load_result (decode process w2) = Some e.

(** Two arrays of one map, of 1 and of 2 elements. *)
Definition two_arrays_process : SBProcess :=
  mkProcess [4097; 4129]
    (λ word,
       mkDecoded false true (Some 8193)
         (Some (mkMapCacheEntry "Array" true false []
                  0 (if decide (word = 4097) then 1 else 2)))
         32 false).

(** Two objects of one map and one shape. *)
Definition two_objects_process : SBProcess :=
  mkProcess [4097; 4129]
    (λ _, mkDecoded false true (Some 2049) (Some one_object_entry) 24 false).

(** ** The page of findjsinstances *)



(** ** The nodes and edges of a snapshot *)

(** The array that SerializeStrings writes: the dummy, then the table. *)
Definition serialized_strings (strings : list string) : list string :=
  "<dummy>" :: strings.

Section SnapshotNotions.
Variable v8 : LLV8.

(** What DataEntry has checked of a node that it pushed for an instance. *)
Definition pushed_node (records : list (string * Z)) (strings : list string)
    (n : HeapGraphNode.t) : Prop :=
  HeapGraphNode.type_ n ≠ HeapGraphNode.kInvalid
  ∧ HeapGraphNode.children n ≠ UINT64_MAX
  ∧ HeapGraphNode.type_ n = GetInstanceType v8 (HeapGraphNode.address n)
  ∧ HeapGraphNode.size n = GetNodeSelfSize v8 (HeapGraphNode.address n)
  ∧ ∃ type_name,
      (type_name, HeapGraphNode.address n) ∈ records
      ∧ serialized_strings strings !! Z.to_nat (HeapGraphNode.name n)
        = Some type_name.

(** The node id of an edge once DataEntry has resolved it against the
    nodes [instances]. *)
Definition resolved_edge (instances : list HeapGraphNode.t)
    (e : HeapGraphEdge.t) : Prop :=
  (HeapGraphEdge.to_node_id e = 0
   ∧ ∀ n, n ∈ instances → HeapGraphNode.address n ≠ HeapGraphEdge.to_address e)
  ∨ ∃ n, n ∈ instances
         ∧ HeapGraphNode.address n = HeapGraphEdge.to_address e
         ∧ HeapGraphEdge.to_node_id e = wrap64 (HeapGraphNode.id n * 6).

(** The state of the loops of DataEntry after the records [seen]. *)
Definition nodes_invariant (pre : list HeapGraphNode.t)
    (seen : list (string * Z)) (st : DataEntryState) : Prop :=
  ∃ instances,
    nodes_ (de_serializer st) = pre ++ instances
    ∧ NoDup (HeapGraphNode.address <$> instances)
    ∧ (∀ a n, de_visitedNode st !! a = Some n
              ↔ n ∈ instances ∧ HeapGraphNode.address n = a)
    ∧ (∀ a, is_Some (de_visitedNode st !! a) → a ∈ seen.*2)
    ∧ ∀ strings, strings_ (de_serializer st) `prefix_of` strings →
        Z.of_nat (length strings) < 2 ^ 64 - 1 →
        Forall (pushed_node seen strings) instances.
End SnapshotNotions.

(** GetChildrenCount only adds to the table of strings. *)
Definition appends_strings
    (GetChildrenCount : Z → ChildrenState → Z * ChildrenState) : Prop :=
  ∀ a cs, cs_strings cs `prefix_of` cs_strings (GetChildrenCount a cs).2.

(** The sample model, seeing every word as a cons string whose two halves
    are different strings with the same text. *)
Definition v8_cons_string : LLV8 :=
  mkLLV8 (IsObjectType sample_v8) (kJSArrayType sample_v8)
    (kJSTypedArrayType sample_v8) (kFirstNonstringType sample_v8)
    (kCodeType sample_v8) (kJSFunctionType sample_v8) (kJSRegExpType sample_v8)
    (kJSObjectType sample_v8) (kHeapNumberType sample_v8)
    (kJSArrayBufferType sample_v8) (kFixedArrayType sample_v8)
    (kSlicedStringTag sample_v8) (kConsStringTag sample_v8)
    (kThinStringTag sample_v8)
    (Smi_Check sample_v8) (HeapObject_Check sample_v8) (GetMap sample_v8)
    (InstanceSize sample_v8) (λ _, (64, true)) (GetArrayLength sample_v8)
    (GetArrayElement sample_v8) (Entries sample_v8) (λ _, Some "ab")
    (λ _, (kConsStringTag sample_v8, true)) (Parent sample_v8)
    (λ _, (8193, true)) (λ _, (8201, true))
    (Actual sample_v8) (Locals sample_v8).

(** ** findjsobjects (FindObjectsCmd) *)

(** A uint64_t as printf shows it under PRId64. *)
Definition as_int64 (z : Z) : Z := if decide (z < 2 ^ 63) then z else z - 2 ^ 64.

(** What SimpleOutput and DetailedOutput write to the command result. *)
Inductive HistogramOutput :=
  | OutSimpleHeader                 (* the heading and the rule under it *)
  | OutSimpleRow (instances total_size : Z) (name : string)
  | OutSimpleTotals (total_objects total_size : Z)
                                    (* the rule and the line of totals *)
  | OutDetailedHeader
  | OutDetailedRow (sample instances total_size properties elements : Z)
      (name : string)
  | OutDetailedTotals (total_objects total_size : Z).

(** The order in which std::sort may leave a vector: no element is placed
    after one that the comparison puts behind it. *)
Definition sorted_by_count : relation TypeRecord :=
  λ a b, CompareInstanceCounts b a = false.

(** std::map<std::string, DetailedTypeRecord*> is walked in the order of its
    keys. *)
Definition DetailedTypeRecordMap_iteration (m : gmap string DetailedTypeRecord)
    : list (string * DetailedTypeRecord) :=
  merge_sort (λ a b, Is_true (String.leb a.1 b.1)) (map_to_list m).

Definition simple_row (t : TypeRecord) : HistogramOutput :=
  OutSimpleRow (as_int64 (GetInstanceCount t))
    (as_int64 (GetTotalInstanceSize t)) (GetTypeName t).

(** The loop that prints the rows and adds up the two totals. *)
Definition print_rows {A : Type} (row : A → HistogramOutput)
    (record : A → TypeRecord) (sorted : list A)
    : list HistogramOutput * Z * Z :=
  foldl (λ '(rows, total_objects, total_size) t,
           (rows ++ [row t],
            wrap64 (total_objects + GetInstanceCount (record t)),
            wrap64 (total_size + GetTotalInstanceSize (record t))))
    ([], 0, 0) sorted.

Section FindObjects.
(** std::sort with TypeRecord::CompareInstanceCounts, on the vector of the
    coarse and on that of the detailed records; the standard leaves the
    order of equivalent elements open. *)
Variable std_sort : list TypeRecord → list TypeRecord.
Variable std_sort_detailed : list DetailedTypeRecord → list DetailedTypeRecord.
Variable unordered_iteration : gset Z → list Z.

(** The value read through begin() of an empty set. *)
Variable indeterminate : Z.

(** FindObjectsCmd::SimpleOutput *)
Definition SimpleOutput (s : LLScan) : list HistogramOutput :=
  let sorted := std_sort (TypeRecordMap_iteration (GetMapsToInstances s)).*2 in
  let '(rows, total_objects, total_size) := print_rows simple_row id sorted in
  [OutSimpleHeader] ++ rows
  ++ [OutSimpleTotals (as_int64 total_objects) (as_int64 total_size)].

Definition detailed_row (t : DetailedTypeRecord) : HistogramOutput :=
  OutDetailedRow
    (default indeterminate
       (head (unordered_iteration (GetInstances (dtr_record t)))))
    (as_int64 (GetInstanceCount (dtr_record t)))
    (as_int64 (GetTotalInstanceSize (dtr_record t)))
    (as_int64 (dtr_own_descriptors_count_ t))
    (as_int64 (dtr_indexed_properties_count_ t))
    (GetTypeName (dtr_record t)).

(** FindObjectsCmd::DetailedOutput *)
Definition DetailedOutput (s : LLScan) : list HistogramOutput :=
  let sorted :=
    std_sort_detailed
      (DetailedTypeRecordMap_iteration (GetDetailedMapsToInstances s)).*2 in
  let '(rows, total_objects, total_size) :=
    print_rows detailed_row dtr_record sorted in
  [OutDetailedHeader] ++ rows
  ++ [OutDetailedTotals (as_int64 total_objects) (as_int64 total_size)].

(** The arguments of findjsobjects as DoExecute sees them. *)
Record FindObjectsArgs := mkFindObjectsArgs {
  fo_target : SBTarget;
  fo_process : SBProcess;
  fo_printer_options : PrinterOptions;   (* as default-constructed *)
  fo_options : list (Z * Z)              (* what getopt_long returns *)
}.

Record HistogramExecution := mkHistogramExecution {
  he_return : bool;
  he_error : option string;
  he_status : option ReturnStatus;
  he_output : list HistogramOutput;
  he_llscan : LLScan
}.

(** FindObjectsCmd::DoExecute; ScanHeapForObjects returns true on every
    path. *)
Definition FindObjectsCmd_DoExecute (a : FindObjectsArgs) (llscan : LLScan)
    : HistogramExecution :=
  if negb (IsValid (fo_target a)) then
    mkHistogramExecution false
      (Some ("No valid process, please start something" +:+ endl)) None []
      llscan
  else
    let llscan := ScanHeapForObjects (fo_target a) (fo_process a) llscan in
    let printer_options :=
      ParsePrinterOptions (fo_options a) (fo_printer_options a) in
    mkHistogramExecution true None (Some eReturnStatusSuccessFinishResult)
      (if po_detailed printer_options then DetailedOutput llscan
       else SimpleOutput llscan)
      llscan.
End FindObjects.

(** What the standard promises of std::sort with this comparison. *)
Definition sorts_by_count {A : Type} (record : A → TypeRecord)
    (sort : list A → list A) : Prop :=
  ∀ l, sort l ≡ₚ l
       ∧ StronglySorted (λ a b, sorted_by_count (record a) (record b)) (sort l).

(** The iteration of an unordered set yields its elements, each once. *)
Definition iterates_all (order : gset Z → list Z) : Prop :=
  ∀ X : gset Z, order X ≡ₚ elements X.

#[global] Instance sorted_by_count_dec a b : Decision (sorted_by_count a b).
Proof. unfold sorted_by_count. apply _. Defined.

(** A sort that meets the promise: merge sort. *)
Definition sample_sort : list TypeRecord → list TypeRecord :=
  merge_sort sorted_by_count.
Definition sample_sort_detailed
    : list DetailedTypeRecord → list DetailedTypeRecord :=
  merge_sort (λ a b, sorted_by_count (dtr_record a) (dtr_record b)).

(** ** Scanning twice *)

(** The entry that a visitor with an empty cache uses for a word, if it
    gets that far. *)
Definition entry_used (d : Decoded) : option MapCacheEntry :=
  match reaches_map d with
  | Some _ => load_result d
  | None => None
  end.

(** The session already holds what Visit would record of the word [w] with
    the entry [e]. *)
Definition absorbed (e : MapCacheEntry) (w : Z) (s : LLScan) : Prop :=
  if is_context e then w ∈ contexts_ s
  else if negb (is_histogram e) then True
  else (∃ t, mapstoinstances_ s !! type_name e = Some t ∧ w ∈ instances_ t)
       ∧ (∃ d, detailedmapstoinstances_ s
                 !! GetTypeNameWithProperties e kShowArrayLength 0 = Some d
               ∧ w ∈ instances_ (dtr_record d)).

(** The session [S] holds what a scan of [rest] after [before] records. *)
Fixpoint all_absorbed (decode : Z → Decoded) (before rest : list Z)
    (S : LLScan) : Prop :=
  match rest with
  | [] => True
  | w :: rest =>
      match entry_used (with_cache decode before w) with
      | Some e => absorbed e w S
      | None => True
      end
      ∧ all_absorbed decode (before ++ [w]) rest S
  end.

(** The coarse records of [s] are still in [s'], with at least the same
    instances. *)
Definition coarse_records_kept (s s' : LLScan) : Prop :=
  ∀ key t, mapstoinstances_ s !! key = Some t →
    ∃ t', mapstoinstances_ s' !! key = Some t'
          ∧ instances_ t ⊆ instances_ t'.

(** ** Reading the memory of the process (LLScan::ScanMemoryRegions) *)

(** lldb::ByteOrder *)
Inductive ByteOrder :=
  | eByteOrderInvalid | eByteOrderBig | eByteOrderPDP | eByteOrderLittle.

#[global] Instance ByteOrder_eq_dec : EqDecision ByteOrder.
Proof. solve_decision. Defined.

(** lldb::SBMemoryRegionInfo *)
Record SBMemoryRegionInfo := mkRegionInfo {
  IsWritable : bool;
  GetRegionBase : Z;
  GetRegionEnd : Z
}.

(** lldb::SBProcess as ScanMemoryRegions and the visitor use it. ReadMemory
    gives the bytes it has put at the start of the buffer, or nothing when
    sberr.Fail(). *)
Record ProcessMemory := mkProcessMemory {
  GetAddressByteSize : Z;
  GetByteOrder : ByteOrder;
  GetMemoryRegions : list SBMemoryRegionInfo;
  ReadMemory : Z → Z → option (list Byte.byte);
  decode_word : Z → Decoded
}.

Definition byte_value (b : Byte.byte) : Z := Z.of_N (Byte.to_N b).

(** The unsigned integer that a run of bytes holds on a little-endian and on
    a big-endian machine. *)
Definition little_endian (bytes : list Z) : Z :=
  foldr (λ b acc, b + 256 * acc) 0 bytes.
Definition big_endian (bytes : list Z) : Z := little_endian (reverse bytes).

(** The bytes of a value, lowest first. *)
Fixpoint bytes_of (n : nat) (v : Z) : list Z :=
  match n with
  | O => []
  | S n => v mod 256 :: bytes_of n (v / 256)
  end.

(** __builtin_bswap32 and __builtin_bswap64, for n = 4 and n = 8. *)
Definition bswap (n : nat) (v : Z) : Z := little_endian (reverse (bytes_of n v)).

Section HostScan.
(** The byte order of the machine that runs the debugger. *)
Variable host_big_endian : bool.

(** *reinterpret_cast<uintN_t*>(&block[j]) *)
Definition host_read (bytes : list Byte.byte) : Z :=
  if host_big_endian then big_endian (byte_value <$> bytes)
  else little_endian (byte_value <$> bytes).

(** GetHostByteOrder: the bytes {0, 1} read as a uint16_t. *)
Definition GetHostByteOrder : ByteOrder :=
  let b := host_read [Byte.x00; Byte.x01] in
  if decide (b = 1) then eByteOrderBig else eByteOrderLittle.

(** The value taken from the buffer at [j], when addr_size is 4 or 8. *)
Definition read_value (addr_size : Z) (swap_bytes : bool)
    (block : list Byte.byte) (j : Z) : option Z :=
  if decide (addr_size = 4) then
    let value := host_read (take 4 (drop (Z.to_nat j) block)) in
    Some (if swap_bytes then bswap 4 value else value)
  else if decide (addr_size = 8) then
    let value := host_read (take 8 (drop (Z.to_nat j) block)) in
    Some (if swap_bytes then bswap 8 value else value)
  else None.

(** The loop over the words of one block; [increment] is the local of the
    enclosing loop, which the loop over the blocks reads afterwards. Visit
    returns address_byte_size_, the address size of the same process as a
    uint32_t. *)
Fixpoint scan_block (fuel : nat) (process : ProcessMemory) (swap_bytes : bool)
    (block : list Byte.byte) (loaded j increment : Z)
    (vs : FindJSObjectsVisitor * LLScan)
    : option (Z * (FindJSObjectsVisitor * LLScan)) :=
  match fuel with
  | O => None
  | S fuel =>
      let addr_size := GetAddressByteSize process in
      if decide (wrap64 (j + addr_size) ≤ loaded) then
        match read_value addr_size swap_bytes block j with
        | None => Some (increment, vs)
        | Some value =>
            let vs := Visit (decode_word process value) value vs in
            let increment := addr_size mod 2 ^ 32 in
            if decide (increment = 0) then Some (increment, vs)
            else scan_block fuel process swap_bytes block loaded
                   (wrap64 (j + increment)) increment vs
        end
      else Some (increment, vs)
  end.

(** The loop over the blocks of one region; [inner] bounds the loops over
    the words. The buffer keeps what earlier reads left beyond the bytes of
    the last read. *)
Fixpoint scan_blocks (fuel inner : nat) (process : ProcessMemory)
    (swap_bytes : bool) (block_size address_end searchAddress : Z)
    (block : list Byte.byte) (vs : FindJSObjectsVisitor * LLScan)
    : option (list Byte.byte * (FindJSObjectsVisitor * LLScan)) :=
  match fuel with
  | O => None
  | S fuel =>
      if decide (searchAddress < address_end) then
        let loaded := Z.min (wrap64 (address_end - searchAddress)) block_size in
        match ReadMemory process searchAddress loaded with
        | None => Some (block, vs)
        | Some bytes =>
            let block := bytes ++ drop (length bytes) block in
            r ← scan_block inner process swap_bytes block loaded 0 1 vs;
            let '(increment, vs) := r in
            if decide (increment = 0) then Some (block, vs)
            else scan_blocks fuel inner process swap_bytes block_size
                   address_end (wrap64 (searchAddress + block_size)) block vs
        end
      else Some (block, vs)
  end.

(** The loop over the regions. *)
Definition scan_region (fuel : nat) (process : ProcessMemory)
    (swap_bytes : bool) (block_size : Z)
    (acc : option (list Byte.byte * (FindJSObjectsVisitor * LLScan)))
    (region_info : SBMemoryRegionInfo)
    : option (list Byte.byte * (FindJSObjectsVisitor * LLScan)) :=
  '(block, vs) ← acc;
  if negb (IsWritable region_info) then Some (block, vs)
  else
    let address := GetRegionBase region_info in
    let len := wrap64 (GetRegionEnd region_info - GetRegionBase region_info) in
    let address_end := wrap64 (address + len) in
    scan_blocks fuel fuel process swap_bytes block_size address_end address
      block vs.

(** LLScan::ScanMemoryRegions on the process as lldb shows it; [block] is
    the new buffer, whose content nothing has set. *)
Definition ScanMemoryRegions_of_process (fuel : nat) (process : ProcessMemory)
    (block : list Byte.byte) (vs : FindJSObjectsVisitor * LLScan)
    : option (FindJSObjectsVisitor * LLScan) :=
  let addr_size := GetAddressByteSize process in
  let swap_bytes := bool_decide (GetByteOrder process ≠ GetHostByteOrder) in
  let block_size := wrap64 (1024 * 1024 * addr_size) in
  snd <$> foldl (scan_region fuel process swap_bytes block_size)
            (Some (block, vs)) (GetMemoryRegions process).
End HostScan.

(** *** What the scan is meant to read *)

(** The bytes of the process from [address] on. *)
Definition memory_bytes (memory : Z → Byte.byte) (address n : Z)
    : list Byte.byte :=
  (λ i, memory (address + i)) <$> seqZ 0 n.

(** The word at [address] in the byte order of the process. *)
Definition word_at (process : ProcessMemory) (memory : Z → Byte.byte)
    (address : Z) : Z :=
  let bytes :=
    byte_value <$> memory_bytes memory address (GetAddressByteSize process) in
  match GetByteOrder process with
  | eByteOrderBig => big_endian bytes
  | _ => little_endian bytes
  end.

(** The words of a region, from its base on, as many as fit. *)
Definition region_words (process : ProcessMemory) (memory : Z → Byte.byte)
    (region_info : SBMemoryRegionInfo) : list Z :=
  let addr_size := GetAddressByteSize process in
  (λ k, word_at process memory (GetRegionBase region_info + k * addr_size))
    <$> seqZ 0 ((GetRegionEnd region_info - GetRegionBase region_info)
                `div` addr_size).

(** The words of the writable regions, in the order of the regions. *)
Definition process_words (process : ProcessMemory) (memory : Z → Byte.byte)
    : list Z :=
  region_info ← filter (λ r, IsWritable r = true) (GetMemoryRegions process);
  region_words process memory region_info.

(** The process is one that the scan reads in full: words of 4 or 8 bytes in
    one of the two usual byte orders, regions that lie below 2^64 by more
    than a block, and reads that succeed with all the bytes asked for. *)
Definition readable (process : ProcessMemory) (memory : Z → Byte.byte) : Prop :=
  (GetAddressByteSize process = 4 ∨ GetAddressByteSize process = 8)
  ∧ (GetByteOrder process = eByteOrderBig
     ∨ GetByteOrder process = eByteOrderLittle)
  ∧ Forall (λ r, IsWritable r = true →
                 0 ≤ GetRegionBase r ≤ GetRegionEnd r
                 ∧ GetRegionEnd r + 1024 * 1024 * 8 < 2 ^ 64)
      (GetMemoryRegions process)
  ∧ ∀ address n, ReadMemory process address n
                 = Some (memory_bytes memory address n).

(** A little-endian process of 8-byte words with one writable region of two
    words, the first of which is 4097, and one region that is not writable. *)
Definition sample_memory (address : Z) : Byte.byte :=
  if decide (address = 4096) then Byte.x01
  else if decide (address = 4097) then Byte.x10
  else Byte.x00.

Definition sample_memory_process : ProcessMemory :=
  mkProcessMemory 8 eByteOrderLittle
    [mkRegionInfo false 0 4096; mkRegionInfo true 4096 4112]
    (λ address n, Some (memory_bytes sample_memory address n))
    (decode one_object_process).

(** ** The lines of PrintRefs for an object
    (ReferenceScanner, PropertyScanner and StringScanner, llscan.cc) *)

(** One line that PrintRefs prints for an object. The type name, which
    GetTypeName gives for the object, is the same on every line of one call
    and is left out; the templates of GetArrayReferenceString and
    GetPropertyReferenceString do not use their level. [key] of a line of
    ReferenceScanner is what ToString gave for the key of the entry, which
    that scanner prints without looking at the error. *)
Inductive ReferenceLine :=
  | ArrayReference (js_obj i value : Z)
  | PropertyReference (js_obj : Z) (key : option string) (value : Z)
  | ArrayStringReference (js_obj i value : Z) (text : string)
  | PropertyStringReference (js_obj : Z) (key : string) (value : Z) (text : string).

Section PrintRefs.
Variable v8 : LLV8.

(** *** ReferenceScanner::PrintRefs(result, v8::JSObject&, err, level) *)

(** The loop over the elements; it breaks at the first element that cannot
    be read. *)
Fixpoint ReferenceScanner_print_elements (search_value_ js_obj : Z)
    (indices : list Z) : list ReferenceLine :=
  match indices with
  | [] => []
  | i :: indices =>
      match GetArrayElement v8 js_obj i with
      | None => []
      | Some v =>
          (if decide (v ≠ search_value_) then []
           else [ArrayReference js_obj i search_value_])
          ++ ReferenceScanner_print_elements search_value_ js_obj indices
      end
  end.

Definition ReferenceScanner_print_entry (search_value_ js_obj : Z)
    (entry : Z * Z) : list ReferenceLine :=
  let v := entry.2 in
  if decide (v = search_value_)
  then [PropertyReference js_obj (ToString v8 entry.1) search_value_]
  else [].

Definition ReferenceScanner_PrintRefs_JSObject (search_value_ js_obj level : Z)
    : list ReferenceLine :=
  let length := GetArrayLength v8 js_obj in
  ReferenceScanner_print_elements search_value_ js_obj (seqZ 0 length)
  ++ match Entries v8 js_obj with
     | None => []
     | Some entries =>
         entries ≫= ReferenceScanner_print_entry search_value_ js_obj
     end.

(** *** PropertyScanner::PrintRefs(result, v8::JSObject&, err, level) *)
Definition PropertyScanner_print_entry (search_value_ : string) (js_obj : Z)
    (entry : Z * Z) : list ReferenceLine :=
  match ToString v8 entry.1 with
  | None => []
  | Some key =>
      if decide (key = search_value_)
      then [PropertyReference js_obj (Some key) entry.2]
      else []
  end.

Definition PropertyScanner_PrintRefs_JSObject (search_value_ : string)
    (js_obj level : Z) : list ReferenceLine :=
  match Entries v8 js_obj with
  | None => []
  | Some entries =>
      entries ≫= PropertyScanner_print_entry search_value_ js_obj
  end.

(** *** StringScanner::PrintRefs(result, v8::JSObject&, err, level) *)
Definition StringScanner_print_element (search_value_ : string) (js_obj i : Z)
    : list ReferenceLine :=
  match GetArrayElement v8 js_obj i with
  | None => []
  | Some v =>
      let '(type, ok) := GetType v8 v in
      if negb ok then [] else
      if bool_decide (type < kFirstNonstringType v8) then
        match ToString v8 v with
        | None => []
        | Some value =>
            if decide (search_value_ = value)
            then [ArrayStringReference js_obj i v value]
            else []
        end
      else []
  end.

Definition StringScanner_print_entry (search_value_ : string) (js_obj : Z)
    (entry : Z * Z) : list ReferenceLine :=
  let '(type, ok) := GetType v8 entry.2 in
  if negb ok then [] else
  if bool_decide (type < kFirstNonstringType v8) then
    match ToString v8 entry.2 with
    | None => []
    | Some value =>
        if decide (search_value_ = value) then
          match ToString v8 entry.1 with
          | None => []
          | Some key => [PropertyStringReference js_obj key entry.2 value]
          end
        else []
    end
  else [].

Definition StringScanner_PrintRefs_JSObject (search_value_ : string)
    (js_obj level : Z) : list ReferenceLine :=
  let length := GetArrayLength v8 js_obj in
  (seqZ 0 length ≫= StringScanner_print_element search_value_ js_obj)
  ++ match Entries v8 js_obj with
     | Some entries =>
         entries ≫= StringScanner_print_entry search_value_ js_obj
     | None => []
     end.

(** The virtual call. *)
Definition PrintRefs_JSObject (scanner : ObjectScanner) (js_obj level : Z)
    : list ReferenceLine :=
  match scanner with
  | ReferenceScanner search_value_ =>
      ReferenceScanner_PrintRefs_JSObject search_value_ js_obj level
  | PropertyScanner search_value_ =>
      PropertyScanner_PrintRefs_JSObject search_value_ js_obj level
  | StringScanner search_value_ =>
      StringScanner_PrintRefs_JSObject search_value_ js_obj level
  end.

End PrintRefs.

(** How often one call of ScanRefs on [js_obj] appended it under the search
    value of [scanner]. *)
Definition appended_by_ScanRefs (v8 : LLV8) (scanner : ObjectScanner)
    (js_obj : Z) (s : LLScan) : Z :=
  let s' := ScanRefs_JSObject v8 scanner js_obj s in
  match scanner with
  | ReferenceScanner v =>
      Z.of_nat (times_referenced js_obj v (references_by_value_ s'))
      - Z.of_nat (times_referenced js_obj v (references_by_value_ s))
  | PropertyScanner k =>
      Z.of_nat (times_referenced js_obj k (references_by_property_ s'))
      - Z.of_nat (times_referenced js_obj k (references_by_property_ s))
  | StringScanner t =>
      Z.of_nat (times_referenced js_obj t (references_by_string_ s'))
      - Z.of_nat (times_referenced js_obj t (references_by_string_ s))
  end.

(** An object with one entry whose value is the string "x" and whose key
    cannot be read. *)
Definition v8_unreadable_key : LLV8 :=
  mkLLV8 (λ _, false) 1 2 64 3 4 5 6 7 8 9 10 11 12
    (λ _, false) (λ _, true) (λ _, None) (λ _, 0)
    (λ a, if decide (a = 12289) then (0, true) else (128, true))
    (λ _, 0) (λ _ _, None)
    (λ a, if decide (a = 4097) then Some [(8193, 12289)] else None)
    (λ a, if decide (a = 12289) then Some "x" else None)
    (λ _, (0, false)) (λ _, (0, false)) (λ _, (0, false)) (λ _, (0, false))
    (λ _, (0, false)) (λ _, None).

(** ** The stream of the snapshot *)

(** The stream write_ of [h'] is as that of [h]: the same text in the file,
    open or not alike, the same failbit. *)
Definition same_stream (h h' : HeapSnapshotJSONSerializer) : Prop :=
  write_ h' = write_ h
  ∧ write_is_open_ h' = write_is_open_ h
  ∧ write_fail_ h' = write_fail_ h.

(** * Properties *)

(** ** Machine integers *)

Lemma wrap64_small z : 0 ≤ z < 2 ^ 64 → wrap64 z = z.
Proof. intros H. unfold wrap64. by apply Z.mod_small. Qed.

Lemma wrap64_range z : 0 ≤ wrap64 z < 2 ^ 64.
Proof. unfold wrap64. apply Z.mod_pos_bound. lia. Qed.

Lemma wrap64_add_l a b : wrap64 (wrap64 a + b) = wrap64 (a + b).
Proof. unfold wrap64. by rewrite Zplus_mod_idemp_l. Qed.


(** ** TypeRecord *)

Lemma AddInstance_present address size t :
  address ∈ instances_ t → AddInstance address size t = t.
Proof.
  intros Hin. unfold AddInstance.
  rewrite bool_decide_eq_false_2 by (intros Hn; by apply Hn).
  destruct t as [n c z s]; simpl in *. f_equal. set_solver.
Qed.

Lemma AddInstance_fresh address size t :
  address ∉ instances_ t →
  AddInstance address size t =
    mkTypeRecord (type_name_ t) (wrap64 (instance_count_ t + 1))
      (wrap64 (total_instance_size_ t + size)) ({[address]} ∪ instances_ t).
Proof. intros Hn. unfold AddInstance. by rewrite bool_decide_eq_true_2. Qed.

Lemma AddInstance_instances address size t :
  instances_ (AddInstance address size t) = {[address]} ∪ instances_ t.
Proof. unfold AddInstance. by case_bool_decide. Qed.

Lemma AddInstance_superset address size t :
  instances_ t ⊆ instances_ (AddInstance address size t).
Proof. rewrite AddInstance_instances. set_solver. Qed.

(** The state reached by a sequence of calls from a record that already
    satisfies the counting invariant. *)
Lemma AddInstances_invariant calls : ∀ t sizes,
  instance_count_ t = wrap64 (Z.of_nat (size (instances_ t))) →
  total_instance_size_ t = wrap64 sizes →
  let r := AddInstances calls t in
  instance_count_ r = wrap64 (Z.of_nat (size (instances_ r)))
  ∧ total_instance_size_ r
    = wrap64 (sizes + sumZ (first_insertion_sizes (instances_ t) calls))
  ∧ instances_ r = list_to_set calls.*1 ∪ instances_ t.
Proof.
  induction calls as [|[a s] calls IH]; intros t sizes Hc Ht; simpl.
  - unfold sumZ; simpl. rewrite Z.add_0_r. split_and!; [done|done|set_solver].
  - destruct (decide (a ∈ instances_ t)) as [Hin|Hn].
    + rewrite AddInstance_present by done.
      destruct (IH t sizes Hc Ht) as (H1 & H2 & H3).
      split_and!; [done|done|]. rewrite H3. set_solver.
    + rewrite AddInstance_fresh by done.
      edestruct (IH (mkTypeRecord (type_name_ t) (wrap64 (instance_count_ t + 1))
                      (wrap64 (total_instance_size_ t + s)) ({[a]} ∪ instances_ t))
                   (sizes + s)) as (H1 & H2 & H3); simpl.
      * rewrite size_union by set_solver. rewrite size_singleton, Hc.
        rewrite wrap64_add_l. f_equal. lia.
      * rewrite Ht. by rewrite wrap64_add_l.
      * split_and!; [done| |].
        -- rewrite H2. f_equal. unfold sumZ. simpl. lia.
        -- rewrite H3. set_solver.
Qed.

Lemma size_list_to_set_le (l : list Z) :
  (size (list_to_set (C := gset Z) l) ≤ length l)%nat.
Proof.
  induction l as [|x l IH].
  - done.
  - rewrite list_to_set_cons, size_union_alt, size_singleton.
    assert (size (list_to_set (C := gset Z) l ∖ {[x]}) ≤ size (list_to_set (C := gset Z) l))%nat
      by (apply subseteq_size; set_solver).
    simpl. lia.
Qed.

Lemma sumZ_first_insertion_bounds calls : ∀ seen,
  Forall (λ c, 0 ≤ c.2) calls →
  0 ≤ sumZ (first_insertion_sizes seen calls) ≤ sumZ calls.*2.
Proof.
  unfold sumZ.
  induction calls as [|[a s] calls IH]; intros seen Hpos; [simpl; lia|].
  apply Forall_cons in Hpos as [Hs Hpos]; simpl in Hs.
  rewrite fmap_cons. cbn [foldr first_insertion_sizes snd].
  destruct (decide (a ∈ seen)); cbn [foldr].
  - specialize (IH seen Hpos). lia.
  - specialize (IH ({[a]} ∪ seen) Hpos). lia.
Qed.

(** C1. Adding an address a second time, with any size, changes nothing; an
    address that is new raises instance_count by exactly one over the two
    calls; and after any sequence of calls on a new record instance_count is
    the number of addresses in the set and total_instance_size the sum of the
    sizes given when each address was first added. The two counters are
    uint64_t, so the equalities hold modulo 2^64, and exactly as long as the
    number of calls and the sum of the sizes stay below 2^64. *)
Theorem AddInstance_counts_each_address_once
    (t : TypeRecord) (type_name : string) (calls : list (Z * Z))
    (address sz sz' : Z) :
  let r := AddInstances calls (TypeRecord_new type_name) in
  AddInstance address sz' (AddInstance address sz t) = AddInstance address sz t
  ∧ (address ∉ instances_ t →
     instance_count_ (AddInstance address sz' (AddInstance address sz t))
     = wrap64 (instance_count_ t + 1))
  ∧ instances_ r = list_to_set calls.*1
  ∧ instance_count_ r = wrap64 (Z.of_nat (size (instances_ r)))
  ∧ total_instance_size_ r = wrap64 (sumZ (first_insertion_sizes ∅ calls))
  ∧ (Z.of_nat (length calls) + 1 < 2 ^ 64 →
     instance_count_ r = Z.of_nat (size (instances_ r))
     ∧ (address ∉ instances_ r →
        instance_count_ (AddInstance address sz' (AddInstance address sz r))
        = instance_count_ r + 1))
  ∧ (Forall (λ c, 0 ≤ c.2) calls → sumZ calls.*2 < 2 ^ 64 →
     total_instance_size_ r = sumZ (first_insertion_sizes ∅ calls)).
Proof.
  intros r.
  assert (Hsecond : ∀ u, AddInstance address sz' (AddInstance address sz u)
                         = AddInstance address sz u).
  { intros u. apply AddInstance_present. rewrite AddInstance_instances. set_solver. }
  destruct (AddInstances_invariant calls (TypeRecord_new type_name) 0)
    as (Hcount & Htotal & Hinst); [done|done|].
  fold r in Hcount, Htotal, Hinst. simpl in Hinst, Htotal.
  assert (Hset : instances_ r = list_to_set calls.*1) by (rewrite Hinst; set_solver).
  split_and!.
  - apply Hsecond.
  - intros Hn. rewrite Hsecond, AddInstance_fresh by done. done.
  - done.
  - done.
  - done.
  - intros Hlen.
    assert (Hsize : (size (instances_ r) ≤ length calls)%nat).
    { rewrite Hset. etrans; [apply size_list_to_set_le|]. by rewrite length_fmap. }
    assert (Hexact : instance_count_ r = Z.of_nat (size (instances_ r))).
    { rewrite Hcount. apply wrap64_small. lia. }
    split; [done|].
    intros Hn. rewrite Hsecond, AddInstance_fresh by done. simpl.
    apply wrap64_small. lia.
  - intros Hpos Hsum. rewrite Htotal. apply wrap64_small.
    pose proof (sumZ_first_insertion_bounds calls ∅ Hpos). lia.
Qed.

(** The scenario of the specification: two addresses, the first added twice. *)
Lemma AddInstance_counts_each_address_once_witness :
  let r := AddInstances [(4097, 24); (4129, 32)] (TypeRecord_new "Object") in
  instance_count_ r = 2
  ∧ instance_count_ (AddInstance 4161 8 (AddInstance 4161 40 r)) = 3
  ∧ total_instance_size_ r = 56.
Proof.
  destruct (AddInstance_counts_each_address_once (TypeRecord_new "Object")
              "Object" [(4097, 24); (4129, 32)] 4161 40 8)
    as (_ & _ & Hset & _ & _ & Hexact & Hsum).
  destruct Hexact as [Hcount Hfresh]; [simpl; lia|].
  split_and!.
  - rewrite Hcount, Hset. vm_compute. reflexivity.
  - rewrite Hfresh.
    + rewrite Hcount, Hset. vm_compute. reflexivity.
    + rewrite Hset. vm_compute. intros H. discriminate H.
  - rewrite Hsum.
    + vm_compute. reflexivity.
    + repeat constructor; simpl; lia.
    + simpl. lia.
Defined.

(** ** The reference indices *)

Section GetReferences.
Context `{Countable K}.
Implicit Types (m : gmap K ReferencesVector) (k : K).

Lemma GetReferences_absent k m :
  m !! k = None → GetReferences k m = ([], <[k := []]> m).
Proof.
  intros Hk. unfold GetReferences.
  rewrite decide_True by done. by rewrite lookup_insert_eq.
Qed.

Lemma GetReferences_present k m v :
  m !! k = Some v → GetReferences k m = (v, m).
Proof.
  intros Hk. unfold GetReferences.
  rewrite decide_False by congruence. by rewrite Hk.
Qed.

Lemma GetReferences_lookup k m :
  (GetReferences k m).2 !! k = Some (GetReferences k m).1.
Proof.
  destruct (m !! k) as [v|] eqn:Hk.
  - by rewrite (GetReferences_present k m v).
  - rewrite GetReferences_absent by done. apply lookup_insert_eq.
Qed.

Lemma GetReferences_other k k' m :
  k ≠ k' → (GetReferences k m).2 !! k' = m !! k'.
Proof.
  intros Hne. destruct (m !! k) as [v|] eqn:Hk.
  - by rewrite (GetReferences_present k m v).
  - rewrite GetReferences_absent by done. by apply lookup_insert_ne.
Qed.

Lemma AreReferencesLoaded_insert k v m :
  AreReferencesLoaded (<[k := v]> m) = true.
Proof.
  unfold AreReferencesLoaded. apply bool_decide_eq_true_2.
  assert (size (<[k := v]> m) ≠ 0%nat); [|lia].
  rewrite map_size_ne_0_lookup. exists k. rewrite lookup_insert_eq. eauto.
Qed.

(** What the first lookup of an absent key does, for any of the three
    indices. *)
Lemma GetReferences_creates k m :
  m !! k = None →
  (GetReferences k m).1 = []
  ∧ (GetReferences k m).2 = <[k := []]> m
  ∧ (GetReferences k m).2 !! k = Some []
  ∧ AreReferencesLoaded (GetReferences k m).2 = true
  ∧ GetReferences k (GetReferences k m).2 = ([], (GetReferences k m).2)
  ∧ ∀ never, (GetReferences k m).2 !! never = None →
      (GetReferences never (GetReferences k m).2).1
      = (GetReferences k (GetReferences k m).2).1.
Proof.
  intros Hk. rewrite GetReferences_absent by done. cbn [fst snd].
  assert (Hsecond : GetReferences k (<[k := []]> m) = ([], <[k := []]> m)).
  { apply GetReferences_present, lookup_insert_eq. }
  split_and!; [done|done|apply lookup_insert_eq|apply AreReferencesLoaded_insert|done|].
  intros never Hnever. rewrite Hsecond. by rewrite GetReferences_absent.
Qed.
End GetReferences.

Lemma GetReferencesByValue_unfold address s :
  GetReferencesByValue address s
  = ((GetReferences address (references_by_value_ s)).1,
     set_references_by_value (GetReferences address (references_by_value_ s)).2 s).
Proof. unfold GetReferencesByValue. by destruct (GetReferences _ _). Qed.

Lemma GetReferencesByProperty_unfold property s :
  GetReferencesByProperty property s
  = ((GetReferences property (references_by_property_ s)).1,
     set_references_by_property (GetReferences property (references_by_property_ s)).2 s).
Proof. unfold GetReferencesByProperty. by destruct (GetReferences _ _). Qed.

Lemma GetReferencesByString_unfold string_value s :
  GetReferencesByString string_value s
  = ((GetReferences string_value (references_by_string_ s)).1,
     set_references_by_string (GetReferences string_value (references_by_string_ s)).2 s).
Proof. unfold GetReferencesByString. by destruct (GetReferences _ _). Qed.

(** C8. A lookup of a key that is absent from an index stores a new empty
    vector under the key and returns it: afterwards the key is present with
    no referrers and the index counts as loaded. A later lookup of that key
    returns the same empty vector that the lookup of a key never queried
    returns, so the two cannot be told apart by looking them up. This holds
    for the index by value, by property and by string. *)
Theorem lookup_creates_empty_vector (s : LLScan) (address : Z)
    (property string_value : string) :
  (references_by_value_ s !! address = None →
   let s' := (GetReferencesByValue address s).2 in
   (GetReferencesByValue address s).1 = []
   ∧ references_by_value_ s' = <[address := []]> (references_by_value_ s)
   ∧ references_by_value_ s' !! address = Some []
   ∧ AreReferencesByValueLoaded s' = true
   ∧ GetReferencesByValue address s' = ([], s')
   ∧ ∀ never, references_by_value_ s' !! never = None →
       (GetReferencesByValue never s').1 = (GetReferencesByValue address s').1)
  ∧ (references_by_property_ s !! property = None →
     let s' := (GetReferencesByProperty property s).2 in
     (GetReferencesByProperty property s).1 = []
     ∧ references_by_property_ s' = <[property := []]> (references_by_property_ s)
     ∧ references_by_property_ s' !! property = Some []
     ∧ AreReferencesByPropertyLoaded s' = true
     ∧ GetReferencesByProperty property s' = ([], s')
     ∧ ∀ never, references_by_property_ s' !! never = None →
         (GetReferencesByProperty never s').1 = (GetReferencesByProperty property s').1)
  ∧ (references_by_string_ s !! string_value = None →
     let s' := (GetReferencesByString string_value s).2 in
     (GetReferencesByString string_value s).1 = []
     ∧ references_by_string_ s' = <[string_value := []]> (references_by_string_ s)
     ∧ references_by_string_ s' !! string_value = Some []
     ∧ AreReferencesByStringLoaded s' = true
     ∧ GetReferencesByString string_value s' = ([], s')
     ∧ ∀ never, references_by_string_ s' !! never = None →
         (GetReferencesByString never s').1 = (GetReferencesByString string_value s').1).
Proof.
  split_and!; intros Hk; cbn zeta;
    rewrite ?GetReferencesByValue_unfold, ?GetReferencesByProperty_unfold,
      ?GetReferencesByString_unfold; cbn [fst snd];
    destruct (GetReferences_creates _ _ Hk) as (H1 & H2 & H3 & H4 & H5 & H6);
    unfold AreReferencesByValueLoaded, AreReferencesByPropertyLoaded,
      AreReferencesByStringLoaded;
    cbn [references_by_value_ references_by_property_ references_by_string_
         set_references_by_value set_references_by_property
         set_references_by_string];
    rewrite H5; cbn [fst snd];
    (split_and!; [done|done|done|done| |]).
  1,3,5: f_equal; destruct s; unfold set_references_by_value,
           set_references_by_property, set_references_by_string; simpl; f_equal.
  all: intros never Hnever;
    rewrite ?GetReferencesByValue_unfold, ?GetReferencesByProperty_unfold,
      ?GetReferencesByString_unfold;
    cbn [fst snd references_by_value_ references_by_property_
         references_by_string_ set_references_by_value
         set_references_by_property set_references_by_string] in *;
    rewrite (GetReferences_absent _ _ Hnever); done.
Qed.

(** A session in which nothing was indexed yet, asked for three keys. *)
Lemma lookup_creates_empty_vector_witness :
  AreReferencesByValueLoaded LLScan_new = false
  ∧ (GetReferencesByValue 4097 LLScan_new).1 = []
  ∧ AreReferencesByValueLoaded (GetReferencesByValue 4097 LLScan_new).2 = true
  ∧ AreReferencesByPropertyLoaded (GetReferencesByProperty "a" LLScan_new).2 = true
  ∧ AreReferencesByStringLoaded (GetReferencesByString "text" LLScan_new).2 = true.
Proof.
  destruct (lookup_creates_empty_vector LLScan_new 4097 "a" "text")
    as (Hv & Hp & Hs).
  destruct Hv as (Hv1 & _ & _ & Hv2 & _); [reflexivity|].
  destruct Hp as (_ & _ & _ & Hp2 & _); [reflexivity|].
  destruct Hs as (_ & _ & _ & Hs2 & _); [reflexivity|].
  split_and!; [reflexivity|exact Hv1|exact Hv2|exact Hp2|exact Hs2].
Defined.

(** ** Scanning the heap *)

(** A loop keeps what every turn of its body keeps. *)
Lemma foldl_invariant {A B : Type} (Q : B → Prop) (f : B → A → B) (l : list A) :
  (∀ b x, Q b → Q (f b x)) → ∀ b, Q b → Q (foldl f b l).
Proof. intros Hf. induction l as [|x l IH]; intros b Hb; simpl; auto. Qed.

Lemma detailed_records_kept_refl s : detailed_records_kept s s.
Proof. intros key t Ht. by exists t. Qed.

Lemma detailed_records_kept_trans s1 s2 s3 :
  detailed_records_kept s1 s2 → detailed_records_kept s2 s3 →
  detailed_records_kept s1 s3.
Proof.
  intros H12 H23 key t Ht.
  destruct (H12 key t Ht) as (t2 & Ht2 & Hsub2).
  destruct (H23 key t2 Ht2) as (t3 & Ht3 & Hsub3).
  exists t3. split; [done|set_solver].
Qed.

Lemma InsertOnDetailedMapsToInstances_kept word sz map_info s :
  detailed_records_kept s (InsertOnDetailedMapsToInstances word sz map_info s).
Proof.
  intros key t Ht. unfold InsertOnDetailedMapsToInstances. cbn [detailedmapstoinstances_].
  set (name := GetTypeNameWithProperties map_info kShowArrayLength 0).
  destruct (decide (name = key)) as [->|Hne].
  - rewrite Ht, lookup_insert_eq. eexists. split; [done|].
    cbn [dtr_record]. apply AddInstance_superset.
  - rewrite lookup_insert_ne by done. by exists t.
Qed.

Lemma visit_frame_refl s : visit_frame s s.
Proof. split_and!; [done|apply detailed_records_kept_refl|done..]. Qed.

Lemma visit_frame_trans s1 s2 s3 :
  visit_frame s1 s2 → visit_frame s2 s3 → visit_frame s1 s3.
Proof.
  intros (A1 & A2 & A3 & A4 & A5 & A6) (B1 & B2 & B3 & B4 & B5 & B6).
  split_and!; [set_solver|by eapply detailed_records_kept_trans|congruence..].
Qed.

Lemma InsertOnContexts_frame word s : visit_frame s (InsertOnContexts word s).
Proof.
  split_and!; [simpl; set_solver| |done..].
  intros key t Ht. by exists t.
Qed.

Lemma InsertOnMaps_frame word sz map_info s :
  visit_frame s
    (InsertOnDetailedMapsToInstances word sz map_info
       (InsertOnMapsToInstances word sz map_info s)).
Proof.
  split_and!; [done| |done..].
  eapply detailed_records_kept_trans;
    [|apply InsertOnDetailedMapsToInstances_kept].
  intros key t Ht. by exists t.
Qed.

Lemma Visit_frame d word v s : visit_frame s (Visit d word (v, s)).2.
Proof.
  unfold Visit.
  repeat case_match; simplify_eq; cbn [snd];
    first [apply visit_frame_refl | apply InsertOnContexts_frame
          | apply InsertOnMaps_frame].
Qed.

Lemma ScanMemoryRegions_frame process v s :
  visit_frame s (ScanMemoryRegions process (v, s)).2.
Proof.
  unfold ScanMemoryRegions.
  apply (foldl_invariant (λ vs, visit_frame s vs.2)); [|apply visit_frame_refl].
  intros [v' s'] word Hs'. eapply visit_frame_trans; [exact Hs'|apply Visit_frame].
Qed.

Lemma ScanHeapForObjects_contexts target process s :
  contexts_ s ⊆ contexts_ (ScanHeapForObjects target process s).
Proof.
  unfold ScanHeapForObjects.
  destruct (decide (target_ s ≠ target));
    (case_decide; [etrans; [|apply ScanMemoryRegions_frame]|]); done.
Qed.

(** Whatever the new target holds, the detailed records of the old target
    are still there after ScanHeapForObjects. *)
Lemma ScanHeapForObjects_keeps_detailed target process s :
  detailed_records_kept s (ScanHeapForObjects target process s).
Proof.
  unfold ScanHeapForObjects.
  destruct (decide (target_ s ≠ target));
    (case_decide;
       [eapply detailed_records_kept_trans; [|apply ScanMemoryRegions_frame]|]);
    intros key t Ht; by exists t.
Qed.

(** With a new target the three indices are empty when ScanHeapForObjects
    returns, and the coarse records hold only what the new scan found. *)
Lemma ScanHeapForObjects_clears_references target process s :
  target_ s ≠ target →
  let s' := ScanHeapForObjects target process s in
  references_by_value_ s' = ∅ ∧ references_by_property_ s' = ∅
  ∧ references_by_string_ s' = ∅
  ∧ s' = ScanHeapForObjects target process
           (mkLLScan target ∅ (detailedmapstoinstances_ s) ∅ ∅ ∅ (contexts_ s)).
Proof.
  intros Hne. unfold ScanHeapForObjects.
  destruct (decide (target_ s ≠ target)) as [_|]; [|done].
  cbn [ClearMapsToInstances ClearReferences target_ mapstoinstances_
       detailedmapstoinstances_ references_by_value_ references_by_property_
       references_by_string_ contexts_].
  destruct (decide (target ≠ target)) as [Hx|_]; [by destruct Hx|].
  destruct (decide ((∅ : gmap string TypeRecord) = ∅)) as [_|]; [|done].
  match goal with |- context [ScanMemoryRegions ?p (?v, ?s0)] =>
    destruct (ScanMemoryRegions_frame p v s0) as (_ & _ & _ & Hv & Hp & Hs) end.
  rewrite Hv, Hp, Hs. done.
Qed.

(** C7. A session that scanned one target is asked to scan another one. The
    coarse records and the three indices are cleared before the new scan, but
    ClearMapsToInstances leaves detailedmapstoinstances_ alone: the detailed
    record of the old target is still there, and the object of the new target
    is added to it. *)
Theorem ScanHeapForObjects_new_target_merges_detailed_records :
  let s1 := ScanHeapForObjects (Some 1) one_object_process LLScan_new in
  let s2 := ScanHeapForObjects (Some 2) other_object_process s1 in
  target_ s1 = Some 1 ∧ target_ s2 = Some 2
  ∧ instances_ <$> mapstoinstances_ s1 !! "Object" = Some {[4097]}
  ∧ instances_ <$> mapstoinstances_ s2 !! "Object" = Some {[8193]}
  ∧ references_by_value_ s2 = ∅
  ∧ (instances_ ∘ dtr_record) <$> detailedmapstoinstances_ s1 !! "Object[0]: a"
    = Some {[4097]}
  ∧ (instances_ ∘ dtr_record) <$> detailedmapstoinstances_ s2 !! "Object[0]: a"
    = Some {[4097; 8193]}
  ∧ (instance_count_ ∘ dtr_record) <$> detailedmapstoinstances_ s2 !! "Object[0]: a"
    = Some 2.
Proof. vm_compute. split_and!; reflexivity. Qed.

(** ** The three scanners: one source object, one ScanRefs call *)

Section TimesReferenced.
Context `{Countable K}.
Implicit Types (m : gmap K ReferencesVector) (k : K).

Lemma times_referenced_push_same src k m :
  times_referenced src k (push_back_reference k src m)
  = S (times_referenced src k m).
Proof.
  unfold times_referenced, push_back_reference.
  destruct (GetReferences k m) as [v m'] eqn:Hget.
  rewrite lookup_insert_eq. simpl.
  assert (v = default [] (m !! k)) as ->.
  { destruct (m !! k) as [w|] eqn:Hk.
    - rewrite (GetReferences_present k m w) in Hget by done. by simplify_eq.
    - rewrite GetReferences_absent in Hget by done. by simplify_eq. }
  rewrite filter_app, length_app. rewrite filter_cons_True by done. simpl. lia.
Qed.

Lemma times_referenced_push_other src k k' m :
  k ≠ k' →
  times_referenced src k' (push_back_reference k src m) = times_referenced src k' m.
Proof.
  intros Hne. unfold times_referenced, push_back_reference.
  destruct (GetReferences k m) as [v m'] eqn:Hget.
  rewrite lookup_insert_ne by done.
  replace m' with (GetReferences k m).2 by (by rewrite Hget).
  by rewrite GetReferences_other.
Qed.

Lemma saved_once_start src m0 : saved_once src m0 ∅ m0.
Proof. intros k. rewrite decide_False by set_solver. lia. Qed.

Lemma saved_once_push src m0 already_saved m k :
  k ∉ already_saved → saved_once src m0 already_saved m →
  saved_once src m0 ({[k]} ∪ already_saved) (push_back_reference k src m).
Proof.
  intros Hk Hinv k'. destruct (decide (k = k')) as [<-|Hne].
  - rewrite times_referenced_push_same, Hinv.
    rewrite decide_False by done. rewrite decide_True by set_solver. lia.
  - rewrite times_referenced_push_other, Hinv by done.
    destruct (decide (k' ∈ already_saved));
      [rewrite decide_True by set_solver|rewrite decide_False by set_solver]; done.
Qed.

Lemma saved_once_at_most src m0 already_saved m k :
  saved_once src m0 already_saved m →
  (times_referenced src k m ≤ times_referenced src k m0 + 1)%nat.
Proof. intros Hinv. rewrite Hinv. case_decide; lia. Qed.
End TimesReferenced.

Section ScannersOnce.
Variable v8 : LLV8.

Lemma ReferenceScanner_scan_elements_once js_obj m0 indices :
  ∀ already_saved s,
    saved_once js_obj m0 already_saved (references_by_value_ s) →
    let r := ReferenceScanner_scan_elements v8 js_obj indices already_saved s in
    saved_once js_obj m0 r.1 (references_by_value_ r.2).
Proof.
  induction indices as [|i indices IH]; intros already_saved s Hinv; simpl; [done|].
  destruct (GetArrayElement v8 js_obj i) as [v|]; [|done].
  case_decide; [by apply IH|].
  apply IH. simpl. by apply saved_once_push.
Qed.

Lemma ReferenceScanner_scan_entry_once js_obj m0 acc entry :
  saved_once js_obj m0 acc.1 (references_by_value_ acc.2) →
  let r := ReferenceScanner_scan_entry js_obj acc entry in
  saved_once js_obj m0 r.1 (references_by_value_ r.2).
Proof.
  destruct acc as [already_saved s]. intros Hinv.
  unfold ReferenceScanner_scan_entry. case_decide; [done|].
  simpl. by apply saved_once_push.
Qed.

(** ReferenceScanner::ScanRefs on an object appends the object at most once
    under every value. *)
Lemma ReferenceScanner_ScanRefs_JSObject_once js_obj s v :
  (times_referenced js_obj v
     (references_by_value_ (ReferenceScanner_ScanRefs_JSObject v8 js_obj s))
   ≤ times_referenced js_obj v (references_by_value_ s) + 1)%nat.
Proof.
  unfold ReferenceScanner_ScanRefs_JSObject.
  pose proof (ReferenceScanner_scan_elements_once js_obj (references_by_value_ s)
                (seqZ 0 (GetArrayLength v8 js_obj)) ∅ s (saved_once_start _ _)) as Hel.
  destruct (ReferenceScanner_scan_elements _ _ _ _ _) as [already_saved s1].
  simpl in Hel.
  destruct (Entries v8 js_obj) as [entries|];
    [|by eapply saved_once_at_most].
  eapply saved_once_at_most.
  apply (foldl_invariant
           (λ acc, saved_once js_obj (references_by_value_ s) acc.1
                     (references_by_value_ acc.2))); [|exact Hel].
  intros acc entry Hacc. by apply ReferenceScanner_scan_entry_once.
Qed.

Lemma StringScanner_scan_value_once js_obj m0 acc v :
  saved_once js_obj m0 acc.1 (references_by_string_ acc.2) →
  let r := StringScanner_scan_value v8 js_obj acc v in
  saved_once js_obj m0 r.1 (references_by_string_ r.2).
Proof.
  destruct acc as [already_saved s]. intros Hinv.
  unfold StringScanner_scan_value.
  repeat case_match; try done.
  simpl. by apply saved_once_push.
Qed.

(** StringScanner::ScanRefs on an object appends the object at most once
    under every text. *)
Lemma StringScanner_ScanRefs_JSObject_once js_obj s text :
  (times_referenced js_obj text
     (references_by_string_ (StringScanner_ScanRefs_JSObject v8 js_obj s))
   ≤ times_referenced js_obj text (references_by_string_ s) + 1)%nat.
Proof.
  unfold StringScanner_ScanRefs_JSObject.
  set (Q := λ acc : gset string * LLScan,
              saved_once js_obj (references_by_string_ s) acc.1
                (references_by_string_ acc.2)).
  assert (Hel : Q (foldl (StringScanner_scan_element v8 js_obj) (∅, s)
                     (seqZ 0 (GetArrayLength v8 js_obj)))).
  { apply (foldl_invariant Q); [|apply saved_once_start].
    intros acc i Hacc. unfold StringScanner_scan_element.
    destruct (GetArrayElement v8 js_obj i); [|done].
    by apply StringScanner_scan_value_once. }
  destruct (Entries v8 js_obj) as [entries|];
    [|by eapply saved_once_at_most].
  eapply saved_once_at_most.
  apply (foldl_invariant Q); [|exact Hel].
  intros acc entry Hacc. by apply StringScanner_scan_value_once.
Qed.
End ScannersOnce.

(** C6. PropertyScanner::ScanRefs keeps no set of the names it has saved: on
    an object whose entries have two keys that print as the same name, one
    call appends the object twice to the vector of that name. The two other
    scanners keep such a set (the two lemmas above). *)
Theorem PropertyScanner_ScanRefs_appends_twice :
  Entries v8_two_entries_one_name 4097 = Some [(8193, 12289); (8201, 12297)]
  ∧ ToString v8_two_entries_one_name 8193 = Some "x"
  ∧ ToString v8_two_entries_one_name 8201 = Some "x"
  ∧ references_by_property_
      (ScanRefs_JSObject v8_two_entries_one_name (PropertyScanner "x") 4097 LLScan_new)
    !! "x" = Some [4097; 4097]
  ∧ times_referenced 4097 "x"
      (references_by_property_
         (PropertyScanner_ScanRefs_JSObject v8_two_entries_one_name 4097 LLScan_new))
    = 2%nat.
Proof. vm_compute. split_and!; reflexivity. Qed.

(** ** Printing references: termination of the recursive expansion *)

Lemma for_each_total {A S : Type} (I : S → Prop) (R : S → S → Prop)
    `{!Reflexive R, !Transitive R} (body : A → S → option S) (l : list A) :
  (∀ x s, x ∈ l → I s → ∃ s', body x s = Some s' ∧ I s' ∧ R s s') →
  ∀ s, I s → ∃ s', for_each body l s = Some s' ∧ I s' ∧ R s s'.
Proof.
  induction l as [|x l IH]; intros Hbody s Hs; simpl.
  - by exists s.
  - destruct (Hbody x s) as (s1 & -> & Hs1 & Hr1); [by left|done|]. simpl.
    destruct (IH (λ y t Hy, Hbody y t (list_elem_of_further _ _ _ Hy)) s1 Hs1)
      as (s2 & Hfor & Hs2 & Hr2).
    exists s2. split_and!; [done|done|by etrans].
Qed.

Lemma for_each_partial {A S : Type} (R : S → S → Prop)
    `{!Reflexive R, !Transitive R} (body : A → S → option S) (l : list A) :
  (∀ x s s', body x s = Some s' → R s s') →
  ∀ s s', for_each body l s = Some s' → R s s'.
Proof.
  intros Hbody. induction l as [|x l IH]; intros s s' Hfor; simpl in Hfor.
  - by simplify_eq.
  - destruct (body x s) as [s1|] eqn:Hx; simpl in Hfor; [|done].
    etrans; [by eapply Hbody|by apply IH].
Qed.

Lemma for_each_mono {A S : Type} (body1 body2 : A → S → option S) (l : list A) :
  (∀ x s s', body1 x s = Some s' → body2 x s = Some s') →
  ∀ s s', for_each body1 l s = Some s' → for_each body2 l s = Some s'.
Proof.
  intros Hbody. induction l as [|x l IH]; intros s s' Hfor; simpl in *; [done|].
  destruct (body1 x s) as [s1|] eqn:Hx; simpl in Hfor; [|done].
  rewrite (Hbody _ _ _ Hx). simpl. by apply IH.
Qed.

Lemma count_branches_app out1 out2 :
  count_branches (out1 ++ out2) = (count_branches out1 + count_branches out2)%nat.
Proof. unfold count_branches. by rewrite filter_app, length_app. Qed.

Lemma count_seen_app out1 out2 :
  count_seen (out1 ++ out2) = (count_seen out1 + count_seen out2)%nat.
Proof. unfold count_seen. by rewrite filter_app, length_app. Qed.

Section PrintingProofs.
Variable v8 : LLV8.
Variable order : gset Z → list Z.
Variable options : ScanOptions.

Abbreviation PRR := (PrintRecursiveReferences v8 order).
Abbreviation PR := (PrintReferences v8 order).

Lemma PrintRecursiveReferences_S fuel address level st :
  PRR (S fuel) options address level st =
  let st := Printf (OutBranch level) st in
  if decide (address ∈ ps_visited st) then Some (Printf OutSeenAbove st)
  else
    let st := mkPrintState (ps_llscan st) (ps_visited st ++ [address])
                (ps_result st) in
    let '(references_, llscan) := GetReferencesByValue address (ps_llscan st) in
    let st := mkPrintState llscan (ps_visited st) (ps_result st) in
    PR (PRR fuel) references_ (ReferenceScanner address) options (level + 1) st.
Proof. reflexivity. Qed.

(** *** More fuel does not change a result *)

Lemma PrintContextRefs_mono rec1 rec2 scanner level st st' :
  (∀ o a l s s', rec1 o a l s = Some s' → rec2 o a l s = Some s') →
  PrintContextRefs v8 order rec1 scanner options level st = Some st' →
  PrintContextRefs v8 order rec2 scanner options level st = Some st'.
Proof.
  intros Hrec. unfold PrintContextRefs. destruct scanner; try done.
  apply for_each_mono. intros ctx s s'.
  destruct (Locals v8 ctx) as [locals|]; [|done].
  apply for_each_mono. intros local t t'. unfold PrintContextRefs_local.
  repeat case_match; try done. apply Hrec.
Qed.

Lemma PrintReferences_mono rec1 rec2 references scanner level st st' :
  (∀ o a l s s', rec1 o a l s = Some s' → rec2 o a l s = Some s') →
  PR rec1 references scanner options level st = Some st' →
  PR rec2 references scanner options level st = Some st'.
Proof.
  intros Hrec. unfold PrintReferences.
  destruct (for_each (PrintReferences_addr v8 rec1 scanner options level)
              references st) as [s1|] eqn:Hfor; simpl; [|done].
  intros Hctx.
  erewrite for_each_mono; [| |exact Hfor].
  - simpl. by eapply PrintContextRefs_mono.
  - intros addr s s'. unfold PrintReferences_addr.
    repeat case_match; try done; apply Hrec.
Qed.

Lemma PrintRecursiveReferences_more_fuel fuel fuel' opts address level st st' :
  (fuel ≤ fuel')%nat →
  PRR fuel opts address level st = Some st' →
  PRR fuel' opts address level st = Some st'.
Proof.
  revert fuel' opts address level st st'.
  induction fuel as [|fuel IH]; intros fuel' opts address level st st' Hle; [done|].
  destruct fuel' as [|fuel']; [lia|].
  cbn [PrintRecursiveReferences]. cbn zeta.
  case_decide; [done|].
  destruct (GetReferencesByValue _ _) as [references_ llscan].
  unfold PrintReferences.
  destruct (for_each _ references_ _) as [s1|] eqn:Hfor; simpl; [|done].
  intros Hctx.
  assert (Hrec : ∀ o a l s s', PRR fuel o a l s = Some s' →
                               PRR fuel' o a l s = Some s').
  { intros o a l s s'. apply IH. lia. }
  erewrite for_each_mono; [| |exact Hfor].
  - simpl. unfold PrintContextRefs in *.
    revert Hctx. apply for_each_mono. intros ctx s s'.
    destruct (Locals v8 ctx) as [locals|]; [|done].
    apply for_each_mono. intros local t t'. unfold PrintContextRefs_local.
    repeat case_match; try done. apply Hrec.
  - intros addr s s'. unfold PrintReferences_addr.
    repeat case_match; try done; apply Hrec.
Qed.

(** *** The invariant of the expansion *)

#[local] Instance print_ext_refl : Reflexive print_ext.
Proof. intros st. split_and!; done. Qed.

#[local] Instance print_ext_trans : Transitive print_ext.
Proof.
  intros s1 s2 s3 (A1 & A2 & A3 & A4) (B1 & B2 & B3 & B4).
  split_and!; [by etrans|by etrans|congruence|lia].
Qed.

Lemma unvisited_ext U st st' :
  print_ext st st' → (unvisited U st' ≤ unvisited U st)%nat.
Proof.
  intros ([k Hk] & _). unfold unvisited. apply subseteq_size.
  rewrite Hk, list_to_set_app_L. set_solver.
Qed.

Lemma unvisited_push U st address :
  address ∈ U → address ∉ ps_visited st →
  (S (unvisited U (mkPrintState (ps_llscan st) (ps_visited st ++ [address])
                     (ps_result st)))
   = unvisited U st)%nat.
Proof.
  intros HU Hn. unfold unvisited. cbn [ps_visited].
  rewrite list_to_set_app_L.
  assert (Heq : U ∖ list_to_set (ps_visited st)
    = ({[address]} : gset Z)
      ∪ U ∖ (list_to_set (ps_visited st) ∪ list_to_set [address])).
  { apply set_eq. intros x. rewrite !elem_of_union, !elem_of_difference,
      !elem_of_union, !elem_of_list_to_set, elem_of_singleton, list_elem_of_singleton.
    destruct (decide (x = address)) as [->|]; naive_solver. }
  rewrite Heq.
  rewrite (size_union {[address]}
             (U ∖ (list_to_set (ps_visited st) ∪ list_to_set [address])))
    by set_solver.
  by rewrite size_singleton.
Qed.

Lemma Printf_wf U o st : print_wf order U st → print_wf order U (Printf o st).
Proof. done. Qed.

Lemma Printf_ext_plain o st :
  is_branch o = false → o ≠ OutSeenAbove → print_ext st (Printf o st).
Proof.
  intros Hb Hs. split_and!; [done|by apply prefix_app_r|done|].
  cbn [Printf ps_result ps_visited].
  rewrite count_branches_app, count_seen_app.
  unfold count_branches, count_seen.
  rewrite !filter_cons_False by (by rewrite ?Hb). simpl. lia.
Qed.

Lemma refs_bounded_lookup U address s :
  refs_bounded order U s →
  refs_bounded order U (GetReferencesByValue address s).2
  ∧ (∀ a, a ∈ (GetReferencesByValue address s).1 → a ∈ U)
  ∧ contexts_ (GetReferencesByValue address s).2 = contexts_ s.
Proof.
  intros [Hv Hc]. rewrite GetReferencesByValue_unfold. cbn [fst snd].
  destruct (references_by_value_ s !! address) as [w|] eqn:Hk.
  - rewrite (GetReferences_present _ _ w) by done. cbn [fst snd].
    split_and!; [|by eauto|done].
    split; [|done]. intros k v a. cbn. eauto.
  - rewrite GetReferences_absent by done. cbn [fst snd].
    split_and!; [|by intros a Ha; apply elem_of_nil in Ha|done].
    split; [|done]. intros k v a. cbn.
    destruct (decide (address = k)) as [->|Hne].
    + rewrite lookup_insert_eq. intros ? Ha. simplify_eq. by apply elem_of_nil in Ha.
    + rewrite lookup_insert_ne by done. eauto.
Qed.

(** *** The bodies return when the recursive call does *)

Section Bodies.
Variable U : gset Z.
Variable n : nat.
Variable rec : ScanOptions → Z → Z → PrintState → option PrintState.

Hypothesis rec_total : ∀ st a level,
  print_wf order U st → (unvisited U st ≤ n)%nat → a ∈ U →
  ∃ st', rec options a level st = Some st' ∧ print_wf order U st' ∧ print_ext st st'.

#[local] Abbreviation I := (print_inv order U n).

Lemma I_step st st' : I st → print_wf order U st' → print_ext st st' → I st'.
Proof.
  intros [_ Hn] Hwf Hext. split; [done|].
  etrans; [by apply unvisited_ext|done].
Qed.

Lemma printed_then_rec o a level st :
  is_branch o = false → o ≠ OutSeenAbove → a ∈ U → I st →
  ∃ st', (if recursive_scan options then rec options a level (Printf o st)
          else Some (Printf o st)) = Some st'
         ∧ I st' ∧ print_ext st st'.
Proof.
  intros Hb Hs Ha HI.
  pose proof (Printf_ext_plain o st Hb Hs) as Hext.
  assert (HI' : I (Printf o st)) by (eapply I_step; [done|by apply Printf_wf, HI|done]).
  destruct (recursive_scan options).
  - destruct (rec_total (Printf o st) a level) as (st' & Hrec & Hwf & Hext');
      [apply HI'|apply HI'|done|].
    exists st'. split_and!; [done| |by etrans].
    eapply I_step; [exact HI'|done|done].
  - by exists (Printf o st).
Qed.

Lemma PrintReferences_addr_total scanner level addr st :
  addr ∈ U → I st →
  ∃ st', PrintReferences_addr v8 rec scanner options level addr st = Some st'
         ∧ I st' ∧ print_ext st st'.
Proof.
  intros Ha HI. unfold PrintReferences_addr. cbn zeta.
  destruct (is_object_or_array v8 _); [by apply printed_then_rec|].
  destruct (bool_decide _); [by apply printed_then_rec|].
  by exists st.
Qed.

Lemma PrintContextRefs_total scanner level st :
  I st →
  ∃ st', PrintContextRefs v8 order rec scanner options level st = Some st'
         ∧ I st' ∧ print_ext st st'.
Proof.
  intros HI. unfold PrintContextRefs.
  destruct scanner as [search_value_| |]; try by exists st.
  apply (for_each_total I print_ext); [|done].
  intros ctx s Hctx Hs.
  destruct (Locals v8 ctx) as [locals|]; [|by exists s].
  apply (for_each_total I print_ext); [|done].
  intros local t _ Ht. unfold PrintContextRefs_local.
  case_decide; [|by exists t].
  apply printed_then_rec; [done|done| |done].
  destruct HI as [[[_ Hc] _] _]. by apply Hc.
Qed.

Lemma PrintReferences_total references scanner level st :
  (∀ a, a ∈ references → a ∈ U) → I st →
  ∃ st', PR rec references scanner options level st = Some st'
         ∧ I st' ∧ print_ext st st'.
Proof.
  intros Href HI. unfold PrintReferences.
  destruct (for_each_total I print_ext
              (PrintReferences_addr v8 rec scanner options level) references)
    with (s := st) as (s1 & -> & HI1 & Hext1); [|done|].
  { intros addr s Haddr Hs. apply PrintReferences_addr_total; auto. }
  simpl.
  destruct (PrintContextRefs_total scanner level s1 HI1) as (s2 & -> & HI2 & Hext2).
  exists s2. split_and!; [done|done|by etrans].
Qed.
End Bodies.

Lemma count_branches_snoc out o :
  count_branches (out ++ [o])
  = (count_branches out + (if is_branch o then 1 else 0))%nat.
Proof.
  rewrite count_branches_app. f_equal. unfold count_branches.
  destruct (is_branch o) eqn:Hb;
    [rewrite filter_cons_True by done|rewrite filter_cons_False by (by rewrite Hb)];
    done.
Qed.

Lemma count_seen_snoc out o :
  count_seen (out ++ [o])
  = (count_seen out + (if decide (o = OutSeenAbove) then 1 else 0))%nat.
Proof.
  rewrite count_seen_app. f_equal. unfold count_seen.
  case_decide; [rewrite filter_cons_True by done|rewrite filter_cons_False by done];
    done.
Qed.

(** *** The recursive function returns *)

Lemma PrintRecursiveReferences_seen fuel address level st :
  address ∈ ps_visited st →
  PRR (S fuel) options address level st
  = Some (mkPrintState (ps_llscan st) (ps_visited st)
            (ps_result st ++ [OutBranch level; OutSeenAbove])).
Proof.
  intros Hin. rewrite PrintRecursiveReferences_S. cbn zeta.
  rewrite decide_True by done. unfold Printf. cbn. by rewrite <-app_assoc.
Qed.

Lemma PrintRecursiveReferences_total U : ∀ n st address level,
  print_wf order U st → (unvisited U st ≤ n)%nat → address ∈ U →
  ∃ st', PRR (S n) options address level st = Some st'
         ∧ print_wf order U st' ∧ print_ext st st' ∧ address ∈ ps_visited st'.
Proof.
  induction n as [|n IH]; intros st address level Hwf Hn HU;
    (destruct (decide (address ∈ ps_visited st)) as [Hin|Hnin];
     [rewrite PrintRecursiveReferences_seen by done;
      eexists; split_and!; [done|exact Hwf| |done];
      split_and!; [done|by apply prefix_app_r|done|];
      cbn [ps_result ps_visited];
      change [OutBranch level; OutSeenAbove]
        with ([OutBranch level] ++ [OutSeenAbove]);
      rewrite app_assoc, !count_branches_snoc, !count_seen_snoc;
      cbn [is_branch]; repeat (case_decide; try done); lia|]).
  - exfalso. pose proof (unvisited_push U st address HU Hnin). lia.
  - rewrite PrintRecursiveReferences_S. cbn zeta.
    cbn [Printf ps_visited ps_llscan ps_result].
    rewrite decide_False by done.
    destruct (refs_bounded_lookup U address (ps_llscan st)) as (Hb & Hrefs & Hctx);
      [apply Hwf|].
    rewrite GetReferencesByValue_unfold in *. cbn [fst snd] in *.
    set (st2 := mkPrintState _ (ps_visited st ++ [address]) _).
    assert (Hwf2 : print_wf order U st2).
    { destruct Hwf as (_ & Hnd & Hsub). split_and!; [exact Hb| |].
      - cbn. apply NoDup_app. split_and!; [done| |apply NoDup_singleton].
        intros x Hx Hx'. apply list_elem_of_singleton in Hx'. by subst.
      - cbn. intros a Ha. apply elem_of_app in Ha as [Ha|Ha]; [by apply Hsub|].
        apply list_elem_of_singleton in Ha. by subst. }
    assert (Hn2 : (unvisited U st2 ≤ n)%nat).
    { pose proof (unvisited_push U st address HU Hnin) as Hpush.
      unfold unvisited, st2 in *. cbn [ps_visited] in *. lia. }
    assert (Hext2 : print_ext st st2).
    { unfold st2. split_and!; cbn [ps_visited ps_result ps_llscan];
        [by apply prefix_app_r|by apply prefix_app_r|done|].
      rewrite count_branches_snoc, count_seen_snoc, length_app.
      rewrite decide_False by done. cbn [is_branch length]. lia. }
    destruct (PrintReferences_total U n (PRR (S n)))
      with (references := (GetReferences address (references_by_value_ (ps_llscan st))).1)
           (scanner := ReferenceScanner address) (level := level + 1) (st := st2)
      as (st' & Hrun & [Hwf' _] & Hext'); [|exact Hrefs|by split|].
    { intros s a l Hs Hsn Ha.
      destruct (IH s a l Hs Hsn Ha) as (s' & ? & ? & ? & _). by exists s'. }
    exists st'. split_and!; [exact Hrun|done|by etrans|].
    destruct Hext' as ([k Hk] & _). rewrite Hk. cbn.
    apply elem_of_app. left. apply elem_of_app. right. by left.
Qed.

Lemma universe_of_bounded llscan extra :
  refs_bounded order (universe_of order llscan extra) llscan.
Proof.
  split.
  - intros k v a Hk Ha. unfold universe_of.
    apply elem_of_union_l, elem_of_union_l, elem_of_list_to_set.
    apply list_elem_of_join. exists v. split; [done|].
    apply list_elem_of_fmap. exists (k, v). split; [done|].
    by apply elem_of_map_to_list.
  - intros c Hc. unfold universe_of.
    by apply elem_of_union_l, elem_of_union_r, elem_of_list_to_set.
Qed.

(** C2. Whatever the referrer graph (the by-value index and the context
    set), cycles included, PrintRecursiveReferences and PrintReferences
    return once the fuel is large enough, and with any larger fuel they
    return the same state. One vector of visited references is threaded
    through the whole expansion: it only grows, it holds no address twice,
    and an address is added exactly when it is expanded, so no address is
    expanded twice; each "+ " line printed stands for an address added or is
    followed by " [seen above]". On an address that was already visited the
    function prints "+ " and " [seen above]" and returns without looking up
    any reference. *)
Theorem recursive_expansion_terminates (llscan : LLScan)
    (visited : ReferencesVector) (printed : list Output)
    (references : ReferencesVector) (scanner : ObjectScanner)
    (address level : Z) :
  NoDup visited →
  let st := mkPrintState llscan visited printed in
  (∃ fuel st',
     (∀ fuel', (fuel ≤ fuel')%nat →
        PRR fuel' options address level st = Some st')
     ∧ NoDup (ps_visited st')
     ∧ visited `prefix_of` ps_visited st'
     ∧ address ∈ ps_visited st'
     ∧ printed `prefix_of` ps_result st'
     ∧ (count_branches (ps_result st') + length visited + count_seen printed
        = count_branches printed + length (ps_visited st')
          + count_seen (ps_result st'))%nat)
  ∧ (∃ fuel st',
       (∀ fuel', (fuel ≤ fuel')%nat →
          PR (PRR fuel') references scanner options level st = Some st')
       ∧ NoDup (ps_visited st')
       ∧ visited `prefix_of` ps_visited st'
       ∧ printed `prefix_of` ps_result st'
       ∧ (count_branches (ps_result st') + length visited + count_seen printed
          = count_branches printed + length (ps_visited st')
            + count_seen (ps_result st'))%nat)
  ∧ (address ∈ visited → ∀ fuel,
       PRR (S fuel) options address level st
       = Some (mkPrintState llscan visited
                 (printed ++ [OutBranch level; OutSeenAbove]))).
Proof.
  intros Hnd st.
  set (U := universe_of order llscan (address :: visited ++ references)).
  assert (Hwf : print_wf order U st).
  { split_and!; [apply universe_of_bounded|done|].
    intros a Ha. unfold U, universe_of. apply elem_of_union_r, elem_of_list_to_set.
    right. apply elem_of_app. by left. }
  assert (HU : address ∈ U).
  { unfold U, universe_of. apply elem_of_union_r, elem_of_list_to_set. by left. }
  assert (Href : ∀ a, a ∈ references → a ∈ U).
  { intros a Ha. unfold U, universe_of. apply elem_of_union_r, elem_of_list_to_set.
    right. apply elem_of_app. by right. }
  set (n := unvisited U st).
  split_and!.
  - destruct (PrintRecursiveReferences_total U n st address level Hwf)
      as (st' & Hrun & (_ & Hnd' & _) & (Hv & Hr & _ & Hc) & Hin); [done|done|].
    exists (S n), st'. split_and!; try done.
    intros fuel' Hle. by eapply PrintRecursiveReferences_more_fuel.
  - destruct (PrintReferences_total U n (PRR (S n)))
      with (references := references) (scanner := scanner) (level := level)
           (st := st)
      as (st' & Hrun & [(_ & Hnd' & _) _] & (Hv & Hr & _ & Hc)); [|done|by split|].
    { intros s a l Hs Hsn Ha.
      destruct (PrintRecursiveReferences_total U n s a l Hs Hsn Ha)
        as (s' & ? & ? & ? & _). by exists s'. }
    exists (S n), st'. split_and!; try done.
    intros fuel' Hle. eapply PrintReferences_mono; [|exact Hrun].
    intros o a l s s'. by apply PrintRecursiveReferences_more_fuel.
  - intros Hin fuel. by rewrite PrintRecursiveReferences_seen.
Qed.
End PrintingProofs.

(** A cycle: 4097 is referenced by 4129 and 4129 by 4097; findrefs on 4097
    in recursive mode. *)
Lemma recursive_expansion_terminates_witness :
  NoDup ([] : list Z)
  ∧ ∃ fuel st', ∀ fuel', (fuel ≤ fuel')%nat →
      PrintReferences sample_v8 sample_order
        (PrintRecursiveReferences sample_v8 sample_order fuel')
        [4129] (ReferenceScanner 4097) (mkScanOptions kFieldValue true) 0
        (mkPrintState cyclic_session [] []) = Some st'.
Proof.
  split; [constructor|].
  destruct (recursive_expansion_terminates sample_v8 sample_order
              (mkScanOptions kFieldValue true) cyclic_session [] []
              [4129] (ReferenceScanner 4097) 4097 0 (NoDup_nil_2 (A:=Z)))
    as (_ & (fuel & st' & Hrun & _) & _).
  exists fuel, st'. exact Hrun.
Defined.

(** What is printed on that cycle: the referrer 4129, its expansion, the
    search value met as a referrer of 4129 and expanded in turn, and the mark
    when 4129 comes back. *)
Example recursive_expansion_on_a_cycle :
  (λ st, (ps_visited st, ps_result st))
    <$> PrintReferences sample_v8 sample_order
          (PrintRecursiveReferences sample_v8 sample_order 3)
          [4129] (ReferenceScanner 4097) (mkScanOptions kFieldValue true) 0
          (mkPrintState cyclic_session [] [])
  = Some ([4129; 4097],
          [OutPrintRefs (ReferenceScanner 4097) 4129 0; OutBranch 0;
           OutPrintRefs (ReferenceScanner 4129) 4097 1; OutBranch 1;
           OutPrintRefs (ReferenceScanner 4097) 4129 2; OutBranch 2;
           OutSeenAbove]).
Proof. vm_compute. reflexivity. Qed.

(** ** findrefs: the search value must not be a small integer *)

(** C9. When findrefs searches by value and the expression evaluates to a
    word that Smi::Check accepts, DoExecute returns false with an error set;
    the switch on the scan type yields the error and no scanner; the session
    is the one it met, and the only step taken is loading the constants:
    ScanHeapForObjects and ScanForReferences have not run. With a command
    line and a valid target the error is "Search value is an SMI." and the
    status is failed. *)
Theorem findrefs_rejects_smi (v8 : LLV8) (order : gset Z → list Z) (fuel : nat)
    (a : FindReferencesArgs) (llscan : LLScan) (value : Z) :
  scan_type (scan_options a) = kFieldValue →
  EvaluateExpression a (foldl String.append "" (start a)) = inr value →
  Smi_Check v8 value = true →
  DoExecute_scanner v8 a = inl "Search value is an SMI."
  ∧ ∃ e, FindReferencesCmd_DoExecute v8 order fuel a llscan = Some e
         ∧ ex_return e = false
         ∧ is_Some (res_error (ex_result e))
         ∧ ex_llscan e = llscan
         ∧ (∀ step, step ∈ ex_steps e → step = StepLoad)
         ∧ (cmd_given a = true → IsValid (target a) = true → start a ≠ [] →
            e = mkExecution false
                  (mkResult (Some "Search value is an SMI.")
                     (Some eReturnStatusFailed) [])
                  llscan [StepLoad]).
Proof.
  intros Htype Heval Hsmi.
  assert (Hscanner : DoExecute_scanner v8 a = inl "Search value is an SMI.").
  { unfold DoExecute_scanner. by rewrite Htype, Heval, Hsmi. }
  split; [done|].
  unfold FindReferencesCmd_DoExecute. rewrite Hscanner.
  destruct (cmd_given a); simpl.
  2: { eexists. split_and!; [done|done|by eexists|done| |done].
       intros step Hstep. by apply elem_of_nil in Hstep. }
  destruct (IsValid (target a)); simpl.
  2: { eexists. split_and!; [done|done|by eexists|done| |done].
       intros step Hstep. by apply elem_of_nil in Hstep. }
  destruct (start a) as [|word words].
  - eexists. split_and!; [done|done|by eexists|done| |done].
    intros step Hstep. by apply list_elem_of_singleton in Hstep.
  - eexists. split_and!; [done|done|by eexists|done| |done].
    intros step Hstep. by apply list_elem_of_singleton in Hstep.
Qed.

(** findrefs 6 on a session that has not scanned yet. *)
Lemma findrefs_rejects_smi_witness :
  FindReferencesCmd_DoExecute v8_tagged sample_order 0 findrefs_of_smi LLScan_new
  = Some (mkExecution false
            (mkResult (Some "Search value is an SMI.")
               (Some eReturnStatusFailed) [])
            LLScan_new [StepLoad]).
Proof.
  destruct (findrefs_rejects_smi v8_tagged sample_order 0 findrefs_of_smi
              LLScan_new 6 eq_refl eq_refl eq_refl)
    as (_ & e & Hrun & _ & _ & _ & _ & Hexact).
  rewrite Hrun. f_equal. apply Hexact; [reflexivity|reflexivity|discriminate].
Defined.

(** ** The context set is never reduced *)

#[local] Instance same_contexts_refl : Reflexive same_contexts.
Proof. by intros s. Qed.
#[local] Instance same_contexts_trans : Transitive same_contexts.
Proof. unfold same_contexts. intros s1 s2 s3 H1 H2. congruence. Qed.

Section ContextsKept.
Variable v8 : LLV8.
Variable order : gset Z → list Z.

Lemma ReferenceScanner_scan_elements_contexts js_obj indices :
  ∀ already_saved s,
    same_contexts s
      (ReferenceScanner_scan_elements v8 js_obj indices already_saved s).2.
Proof.
  induction indices as [|i indices IH]; intros already_saved s; simpl; [done|].
  destruct (GetArrayElement v8 js_obj i) as [v|]; [|done].
  case_decide; [apply IH|].
  etrans; [|apply IH]. done.
Qed.

Lemma ScanRefs_JSObject_contexts scanner js_obj s :
  same_contexts s (ScanRefs_JSObject v8 scanner js_obj s).
Proof.
  destruct scanner; simpl.
  - unfold ReferenceScanner_ScanRefs_JSObject.
    pose proof (ReferenceScanner_scan_elements_contexts js_obj
                  (seqZ 0 (GetArrayLength v8 js_obj)) ∅ s) as Hel.
    destruct (ReferenceScanner_scan_elements _ _ _ _ _) as [saved s1].
    destruct (Entries v8 js_obj) as [entries|]; [|done].
    apply (foldl_invariant (λ acc, same_contexts s acc.2)); [|done].
    intros [saved' s'] entry Hacc. unfold ReferenceScanner_scan_entry.
    case_decide; done.
  - unfold PropertyScanner_ScanRefs_JSObject.
    destruct (Entries v8 js_obj) as [entries|]; [|done].
    apply (foldl_invariant (same_contexts s)); [|done].
    intros s' entry Hs'. unfold PropertyScanner_scan_entry.
    by destruct (ToString v8 entry.1).
  - unfold StringScanner_ScanRefs_JSObject.
    assert (Hvalue : ∀ acc v, same_contexts s acc.2 →
              same_contexts s (StringScanner_scan_value v8 js_obj acc v).2).
    { intros [saved s'] v Hacc. unfold StringScanner_scan_value.
      repeat case_match; done. }
    assert (Hel : same_contexts s
              (foldl (StringScanner_scan_element v8 js_obj) (∅, s)
                 (seqZ 0 (GetArrayLength v8 js_obj))).2).
    { apply (foldl_invariant (λ acc, same_contexts s acc.2)); [|done].
      intros acc i Hacc. unfold StringScanner_scan_element.
      destruct (GetArrayElement v8 js_obj i); [by apply Hvalue|done]. }
    destruct (Entries v8 js_obj) as [entries|]; [|done].
    apply (foldl_invariant (λ acc, same_contexts s acc.2)); [|done].
    intros acc entry Hacc. by apply Hvalue.
Qed.

Lemma ScanRefs_String_contexts scanner str s :
  same_contexts s (ScanRefs_String v8 scanner str s).
Proof.
  destruct scanner; simpl; [|done|].
  - unfold ReferenceScanner_ScanRefs_String. repeat case_match; done.
  - unfold StringScanner_ScanRefs_String, StringScanner_scan_part.
    repeat case_match; simplify_eq; done.
Qed.

Lemma ScanForReferences_contexts scanner s :
  same_contexts s (ScanForReferences v8 order scanner s).
Proof.
  unfold ScanForReferences.
  apply (foldl_invariant (same_contexts s)); [|done].
  intros s1 entry Hs1.
  apply (foldl_invariant (same_contexts s)); [|done].
  intros s2 addr Hs2. etrans; [exact Hs2|].
  unfold ScanForReferences_instance. repeat case_match;
    first [apply ScanRefs_JSObject_contexts|apply ScanRefs_String_contexts|done].
Qed.

#[local] Instance print_same_contexts_refl : Reflexive print_same_contexts.
Proof. by intros s. Qed.
#[local] Instance print_same_contexts_trans : Transitive print_same_contexts.
Proof. unfold print_same_contexts. intros s1 s2 s3 H1 H2. by etrans. Qed.

Lemma PrintReferences_contexts rec references scanner options level st st' :
  (∀ o a l s s', rec o a l s = Some s' → print_same_contexts s s') →
  PrintReferences v8 order rec references scanner options level st = Some st' →
  print_same_contexts st st'.
Proof.
  intros Hrec. unfold PrintReferences.
  destruct (for_each _ references st) as [s1|] eqn:Hfor; simpl; [|done].
  intros Hctx. etrans.
  - eapply (for_each_partial print_same_contexts); [|exact Hfor].
    intros addr s s'. unfold PrintReferences_addr.
    repeat case_match; intros Hs; simplify_eq; try reflexivity;
      exact (Hrec _ _ _ _ _ Hs).
  - unfold PrintContextRefs in Hctx. destruct scanner; simplify_eq;
      try reflexivity.
    eapply (for_each_partial print_same_contexts); [|exact Hctx].
    intros ctx s s'. cbv beta. destruct (Locals v8 ctx) as [locals|];
      [|intros ?; simplify_eq; reflexivity].
    apply (for_each_partial print_same_contexts).
    intros local t t'. unfold PrintContextRefs_local.
    repeat case_match; intros Ht; simplify_eq; try reflexivity.
    exact (Hrec _ _ _ _ _ Ht).
Qed.

Lemma PrintRecursiveReferences_contexts fuel :
  ∀ options address level st st',
    PrintRecursiveReferences v8 order fuel options address level st = Some st' →
    print_same_contexts st st'.
Proof.
  induction fuel as [|fuel IH]; intros options address level st st'; [done|].
  cbn [PrintRecursiveReferences]. cbn zeta.
  case_decide; [intros ?; simplify_eq; reflexivity|].
  rewrite GetReferencesByValue_unfold.
  intros Hrun. apply PrintReferences_contexts in Hrun; [|exact IH].
  exact Hrun.
Qed.

Lemma FindReferencesCmd_DoExecute_contexts fuel a s e :
  FindReferencesCmd_DoExecute v8 order fuel a s = Some e →
  contexts_ s ⊆ contexts_ (ex_llscan e).
Proof.
  unfold FindReferencesCmd_DoExecute, fail_with.
  destruct (cmd_given a); simpl; [|by intros; simplify_eq].
  destruct (IsValid (target a)); simpl; [|by intros; simplify_eq].
  destruct (start a) as [|word words]; [by intros; simplify_eq|].
  destruct (DoExecute_scanner v8 a) as [error|scanner]; [by intros; simplify_eq|].
  set (s1 := ScanHeapForObjects (target a) (process a) s).
  assert (H1 : contexts_ s ⊆ contexts_ s1) by apply ScanHeapForObjects_contexts.
  set (p2 := if negb (ScannerAreReferencesLoaded scanner s1) then _ else _).
  assert (H2 : same_contexts s1 p2.1).
  { unfold p2. destruct (negb _); [apply ScanForReferences_contexts|done]. }
  destruct p2 as [s2 steps2]. simpl in H2.
  set (p3 := if recursive_scan (scan_options a) then _ else _).
  assert (H3 : same_contexts s2 p3.1).
  { unfold p3. destruct (recursive_scan _); [|done].
    destruct (negb _); [apply ScanForReferences_contexts|done]. }
  destruct p3 as [s3 steps3]. simpl in H3.
  assert (H4 : same_contexts s3 (ScannerGetReferences scanner s3).2).
  { destruct scanner; simpl;
      rewrite ?GetReferencesByValue_unfold, ?GetReferencesByProperty_unfold,
        ?GetReferencesByString_unfold; done. }
  destruct (ScannerGetReferences scanner s3) as [references s4]. simpl in H4.
  destruct (PrintReferences _ _ _ _ _ _ _ _) as [st|] eqn:Hprint; simpl;
    [|done].
  intros He. simplify_eq. simpl.
  apply PrintReferences_contexts in Hprint;
    [|by intros o a' l t t'; apply PrintRecursiveReferences_contexts].
  unfold print_same_contexts, same_contexts in *. simpl in Hprint.
  rewrite Hprint, H4, H3, H2. done.
Qed.

Lemma DataEntry_contexts indeterminate GetChildrenCount records s h :
  same_contexts s (DataEntry v8 indeterminate GetChildrenCount records s h).2.
Proof.
  unfold DataEntry.
  set (st0 := mkDataEntryState _ _ _ _).
  assert (Hloop : ∀ records st,
            same_contexts (de_llscan st)
              (de_llscan (DataEntry_instances v8 indeterminate GetChildrenCount
                            records st).2)).
  { clear. induction records as [|[type_name record] records IH]; intros st;
      simpl; [done|].
    destruct (DataEntry_instance _ _ _ _ _ _) as [st1|] eqn:Hstep; [|done].
    etrans; [|apply IH].
    unfold DataEntry_instance in Hstep.
    repeat case_match; simplify_eq; done. }
  specialize (Hloop records st0).
  destruct (DataEntry_instances _ _ _ _ _) as [finished st].
  simpl in Hloop. by destruct finished.
Qed.
End ContextsKept.

Lemma session_step_contexts s op : contexts_ s ⊆ contexts_ (session_step s op).
Proof.
  destruct op; cbn [session_step].
  - apply ScanHeapForObjects_contexts.
  - done.
  - done.
  - simpl. set_solver.
  - apply Visit_frame.
  - by rewrite GetReferencesByValue_unfold.
  - by rewrite GetReferencesByProperty_unfold.
  - by rewrite GetReferencesByString_unfold.
  - by rewrite ScanForReferences_contexts.
  - destruct (FindReferencesCmd_DoExecute _ _ _ _ _) as [e|] eqn:Hrun; simpl;
      [by eapply FindReferencesCmd_DoExecute_contexts|done].
  - unfold FindInstancesCmd_DoExecute, fail_with.
    repeat case_match; simplify_eq; simpl; try done;
      apply ScanHeapForObjects_contexts.
  - unfold HeapSnapshotJSONSerializer_DoExecute, fail_with.
    destruct (negb _); simpl; [done|].
    match goal with |- context [DataEntry ?a ?b ?c ?d ?e ?f] =>
      pose proof (DataEntry_contexts a b c d e f) as Hde;
      destruct (DataEntry a b c d e f) as [h' s'] end.
    simpl in *. rewrite Hde. apply ScanHeapForObjects_contexts.
Qed.

(** C10. No operation on a session removes an address from the context set:
    after any sequence of operations the set contains what it contained
    before, so an address put there by InsertOnContexts stays for as long as
    the session lives. In particular the two functions that
    ScanHeapForObjects calls when the target has changed empty the coarse
    records and the three indices and leave the context set as it is. *)
Theorem contexts_are_never_removed (ops : list SessionOp) (s : LLScan) (word : Z)
    (target : SBTarget) (process : SBProcess) :
  contexts_ s ⊆ contexts_ (session_run ops s)
  ∧ word ∈ contexts_ (session_run ops (InsertOnContexts word s))
  ∧ (let cleared := ClearReferences (ClearMapsToInstances s) in
     contexts_ cleared = contexts_ s
     ∧ mapstoinstances_ cleared = ∅
     ∧ references_by_value_ cleared = ∅
     ∧ references_by_property_ cleared = ∅
     ∧ references_by_string_ cleared = ∅)
  ∧ contexts_ s ⊆ contexts_ (ScanHeapForObjects target process s).
Proof.
  assert (Hrun : ∀ ops s, contexts_ s ⊆ contexts_ (session_run ops s)).
  { clear. intros ops s. unfold session_run.
    apply (foldl_invariant (λ s', contexts_ s ⊆ contexts_ s')); [|done].
    intros s' op Hs'. etrans; [exact Hs'|apply session_step_contexts]. }
  split_and!.
  - apply Hrun.
  - apply Hrun. simpl. set_solver.
  - done.
  - apply ScanHeapForObjects_contexts.
Qed.

(** A context found while scanning one target is still in the set after a
    scan of another target. *)
Example context_survives_target_change :
  let s := InsertOnContexts 12289
             (ScanHeapForObjects (Some 1) one_object_process LLScan_new) in
  contexts_ (ScanHeapForObjects (Some 2) other_object_process s) = {[12289]}.
Proof. vm_compute. reflexivity. Qed.

(** ** Pagination of findjsinstances *)

Lemma UpdatePaginationOptions_reset full_cmd limit count p :
  full_cmd ≠ command p ∨ limit ≠ output_limit p →
  UpdatePaginationOptions full_cmd limit count p
  = mkPagination (wrap_int count) 0 limit full_cmd.
Proof.
  intros Hdiff. unfold UpdatePaginationOptions.
  destruct Hdiff as [Hc|Hl].
  - by rewrite (bool_decide_eq_true_2 _ Hc).
  - rewrite (bool_decide_eq_true_2 _ Hl). by rewrite orb_true_r.
Qed.

Lemma UpdatePaginationOptions_same full_cmd limit count p :
  full_cmd = command p → limit = output_limit p →
  UpdatePaginationOptions full_cmd limit count p
  = if bool_decide (limit ≤ 0)
       || bool_decide (wrap_int (wrap_int (current_page p + 1) * limit)
                       > total_entries p)
    then mkPagination (total_entries p) 0 limit full_cmd
    else mkPagination (total_entries p) (wrap_int (current_page p + 1))
           limit full_cmd.
Proof.
  intros -> ->. unfold UpdatePaginationOptions.
  rewrite !bool_decide_eq_false_2 by (intros H; by apply H). done.
Qed.

(** C5. The page after the last one is not always page 0. For a type of 25
    instances and the limit 10, four queries in a row show the instances 1
    to 10, 11 to 20, 21 to 25 and 1 to 10 again. For a type of 20 instances
    the third query shows an empty page, announced as 21 to 20, and leaves
    the page state at page 2; only the fourth query is back at page 0: the
    test for the last page compares with > where the total is reached with
    equality. Besides, a query whose type is not found does not reach the
    page state, so that the query after it goes on from the page of the
    query before it; and the total is only taken anew when the query
    changes, so that the same query on another target, whose heap holds
    fewer instances, moves an iterator past the end of the set. *)
Theorem findjsinstances_page_after_the_last_is_empty :
  let Foo := findjsinstances_of "Foo" 1 20 10 in
  let Nope := findjsinstances_of "Nope" 1 20 10 in
  let instances := sample_order (list_to_set (foo_words 20)) in
  let page_1_10 :=
    (OutInstance <$> take 10 instances) ++ [OutDots; OutShowing 1 10 20] in
  let page_11_20 := (OutInstance <$> drop 10 instances) ++ [OutShowing 11 20 20] in
  let instances25 := sample_order (list_to_set (foo_words 25)) in
  queries_shown
    (FindInstancesCmd_queries sample_order
       (replicate 4 (findjsinstances_of "Foo" 1 25 10))
       cmd_pagination_new LLScan_new)
  = Some ([(OutInstance <$> take 10 instances25)
           ++ [OutDots; OutShowing 1 10 25];
           (OutInstance <$> take 10 (drop 10 instances25))
           ++ [OutDots; OutShowing 11 20 25];
           (OutInstance <$> drop 20 instances25) ++ [OutShowing 21 25 25];
           (OutInstance <$> take 10 instances25)
           ++ [OutDots; OutShowing 1 10 25]],
          mkPagination 25 0 10 "Foo")
  ∧ queries_shown
      (FindInstancesCmd_queries sample_order [Foo; Foo; Foo]
         cmd_pagination_new LLScan_new)
    = Some ([page_1_10; page_11_20; [OutShowing 21 20 20]],
            mkPagination 20 2 10 "Foo")
  ∧ queries_shown
      (FindInstancesCmd_queries sample_order [Foo; Foo; Foo; Foo]
         cmd_pagination_new LLScan_new)
    = Some ([page_1_10; page_11_20; [OutShowing 21 20 20]; page_1_10],
            mkPagination 20 0 10 "Foo")
  ∧ queries_shown
      (FindInstancesCmd_queries sample_order [Foo; Nope; Foo]
         cmd_pagination_new LLScan_new)
    = Some ([page_1_10; [OutNoObjectsFound "Nope"]; page_11_20],
            mkPagination 20 1 10 "Foo")
  ∧ FindInstancesCmd_queries sample_order
      [Foo; findjsinstances_of "Foo" 2 5 10] cmd_pagination_new LLScan_new
    = None.
Proof. vm_compute. split_and!; reflexivity. Qed.

(** A query for a type name that the histogram does not hold leaves the page
    state as it is. *)
Lemma FindInstancesCmd_unknown_type_keeps_page order a pagination_ llscan :
  GetMapsToInstances
    (ScanHeapForObjects (fi_target a) (fi_process a) llscan)
    !! foldl String.append "" (fi_start a) = None →
  ∃ e, FindInstancesCmd_DoExecute order a pagination_ llscan
       = Some (e, pagination_).
Proof.
  intros Hnone. unfold FindInstancesCmd_DoExecute.
  destruct (negb (fi_cmd_given a)); [by eexists|].
  destruct (negb (IsValid (fi_target a))); [by eexists|].
  cbv zeta. rewrite Hnone. by eexists.
Qed.

(** ** The node ids of the snapshot *)

Lemma nth_id_odd j : Z.odd (nth_id j) = true.
Proof.
  unfold nth_id, wrap64. apply Z.odd_spec.
  exists (j - 2 ^ 63 * ((1 + 2 * j) / 2 ^ 64)).
  pose proof (Z.div_mod (1 + 2 * j) (2 ^ 64)). lia.
Qed.

Lemma nth_id_exact j : 0 ≤ j < 2 ^ 63 → nth_id j = 1 + 2 * j.
Proof. intros Hj. unfold nth_id. apply wrap64_small. lia. Qed.

Lemma nth_id_next k : wrap64 (nth_id k + 2) = nth_id (k + 1).
Proof. unfold nth_id. rewrite wrap64_add_l. f_equal. lia. Qed.

Lemma StronglySorted_lt_NoDup (l : list Z) : StronglySorted Z.lt l → NoDup l.
Proof.
  induction 1 as [|x l Hl IH Hx]; constructor; [|done].
  intros Hin. rewrite Forall_forall in Hx. specialize (Hx x Hin). lia.
Qed.

Lemma GetStringId_prefix name strings :
  strings `prefix_of` (GetStringId name strings).2.
Proof. unfold GetStringId. case_decide; simpl; [by apply prefix_app_r|done]. Qed.

Section SnapshotIds.
Variable v8 : LLV8.
Variable indeterminate : Z.
Variable GetChildrenCount : Z → ChildrenState → Z * ChildrenState.

Lemma DataEntry_instance_ids pre k type_name record st st' :
  ids_invariant pre k st →
  DataEntry_instance v8 indeterminate GetChildrenCount type_name record st
  = Some st' →
  ids_invariant pre (k + 1) st'.
Proof.
  intros (Hk & Hnext & instances & js & Hnodes & Hids & Hsorted & Hbound).
  unfold DataEntry_instance.
  assert (Hweaken : Forall (λ j, 0 ≤ j < k + 1) js).
  { eapply Forall_impl; [exact Hbound|]. simpl. lia. }
  repeat case_match; intros Heq; simplify_eq;
    (split_and!; [lia|cbn; by rewrite Hnext, nth_id_next|]).
  - exists instances, js. by split_and!.
  - exists instances, js. by split_and!.
  - exists (instances ++ [HeapGraphNode.mk record z (de_next_id st)
                            (GetNodeSelfSize v8 record) z0 indeterminate
                            (GetInstanceType v8 record)]), (js ++ [k]).
    split_and!.
    + cbn. by rewrite Hnodes, app_assoc.
    + rewrite !fmap_app, Hids. cbn. by rewrite Hnext.
    + apply StronglySorted_app_2; [|done|repeat constructor].
      intros x1 x2 Hx1 Hx2. apply list_elem_of_singleton in Hx2 as ->.
      rewrite Forall_forall in Hbound. specialize (Hbound x1 Hx1). lia.
    + apply Forall_app. split; [done|]. repeat constructor; lia.
Qed.

Lemma DataEntry_instances_ids pre records : ∀ k st,
  ids_invariant pre k st →
  ∃ k', k' ≤ k + Z.of_nat (length records)
        ∧ ids_invariant pre k'
            (DataEntry_instances v8 indeterminate GetChildrenCount records st).2.
Proof.
  induction records as [|[type_name record] records IH]; intros k st Hinv; simpl.
  - exists k. split; [lia|done].
  - destruct (DataEntry_instance _ _ _ _ _ _) as [st1|] eqn:Hstep.
    + destruct (IH (k + 1) st1) as (k' & Hk' & Hinv');
        [by eapply DataEntry_instance_ids|].
      exists k'. split; [lia|done].
    + exists k. split; [lia|done].
Qed.

Lemma DataEntry_instances_strings (P : list string) records : ∀ st,
  (∀ a cs, cs_strings cs `prefix_of` cs_strings (GetChildrenCount a cs).2) →
  P `prefix_of` strings_ (de_serializer st) →
  P `prefix_of`
    strings_ (de_serializer
                (DataEntry_instances v8 indeterminate GetChildrenCount
                   records st).2).
Proof.
  intros st Happend. revert st.
  induction records as [|[type_name record] records IH]; intros st Hst; simpl;
    [done|].
  destruct (DataEntry_instance _ _ _ _ _ _) as [st1|] eqn:Hstep; [|done].
  apply IH. unfold DataEntry_instance in Hstep.
  destruct (decide (is_Some _)); [done|].
  pose proof (GetStringId_prefix type_name (strings_ (de_serializer st))) as Hid.
  destruct (GetStringId type_name _) as [name strings]. simpl in Hid.
  match type of Hstep with context [GetChildrenCount ?a ?cs] =>
    pose proof (Happend a cs) as Hcs; destruct (GetChildrenCount a cs) as [children cs'] end.
  simpl in Hcs.
  assert (P `prefix_of` cs_strings cs') by (etrans; [|exact Hcs]; by etrans).
  repeat case_match; simplify_eq; done.
Qed.

(** The two synthetic nodes are pushed behind the nodes that the serializer
    holds, both with the id 1, and the instances behind them. *)
Lemma DataEntry_synthetic_ids records llscan h :
  ∃ root gc instances,
    nodes_ (DataEntry v8 indeterminate GetChildrenCount records llscan h).1
    = nodes_ h ++ root :: gc :: instances
    ∧ HeapGraphNode.id root = 1 ∧ HeapGraphNode.id gc = 1.
Proof.
  unfold DataEntry. cbv zeta.
  set (h0 := AddGCRootsEntry indeterminate 1 (InitialEntry indeterminate 1 h)).
  assert (Hh0 : ∃ root gc,
            nodes_ h0 = nodes_ h ++ [root; gc]
            ∧ HeapGraphNode.id root = 1 ∧ HeapGraphNode.id gc = 1).
  { unfold h0, AddGCRootsEntry, InitialEntry.
    destruct (GetStringId "" (strings_ h)) as [name1 strings1]. cbn.
    destruct (GetStringId "(GC roots)" strings1) as [name2 strings2]. cbn.
    do 2 eexists. rewrite <- app_assoc. cbn. split; [done|]. by split. }
  destruct Hh0 as (root & gc & Hnodes0 & Hroot & Hgc).
  set (st0 := mkDataEntryState 1 ∅ h0 llscan).
  destruct (DataEntry_instances_ids (nodes_ h ++ [root; gc]) records 0 st0)
    as (k & _ & _ & _ & instances & js & Hnodes & _).
  { split_and!; [lia|reflexivity|]. exists [], [].
    rewrite app_nil_r. split_and!; try done; constructor. }
  exists root, gc, instances.
  destruct (DataEntry_instances _ _ _ _ st0) as [finished st].
  cbn [fst snd] in *. rewrite <- app_assoc in Hnodes. cbn [app] in Hnodes.
  by destruct finished.
Qed.

(** X18. The ids of the instance nodes. On a new serializer the first node
    is the synthetic root with id 1 and the name 1, the id of the empty
    string; the second is a synthetic node named "(GC roots)" (string id 2);
    the ids of
    the instance nodes that follow are odd, and as long as no more than 2^63
    instances are visited they strictly increase in the order of emission, so
    that no two instance nodes share an id. When GetChildrenCount only
    appends to the string table, its first two entries are the empty string
    and "(GC roots)". *)
Theorem snapshot_instance_ids_odd_increasing
    (records : list (string * Z)) (llscan : LLScan) :
  let h := (DataEntry v8 indeterminate GetChildrenCount records llscan
              HeapSnapshotJSONSerializer_new).1 in
  ∃ root gc instances,
    nodes_ h = root :: gc :: instances
    ∧ root = HeapGraphNode.mk 0 1 1 0 0 indeterminate HeapGraphNode.kSynthetic
    ∧ HeapGraphNode.type_ gc = HeapGraphNode.kSynthetic
    ∧ HeapGraphNode.name gc = 2
    ∧ Forall (λ n, Z.odd (HeapGraphNode.id n) = true) instances
    ∧ (Z.of_nat (length records) ≤ 2 ^ 63 →
       StronglySorted Z.lt (HeapGraphNode.id <$> instances)
       ∧ NoDup (HeapGraphNode.id <$> instances))
    ∧ ((∀ a cs, cs_strings cs `prefix_of` cs_strings (GetChildrenCount a cs).2) →
       strings_ h !! 0%nat = Some ""
       ∧ strings_ h !! 1%nat = Some "(GC roots)").
Proof.
  intros h.
  set (root := HeapGraphNode.mk 0 1 1 0 0 indeterminate HeapGraphNode.kSynthetic).
  set (gc := HeapGraphNode.mk 0 2 1 0 0 indeterminate HeapGraphNode.kSynthetic).
  set (h0 := mkSerializer [root; gc] [] [""; "(GC roots)"] "" false false).
  set (st0 := mkDataEntryState 1 ∅ h0 llscan).
  destruct (DataEntry_instances_ids [root; gc] records 0 st0)
    as (k & Hk & Hk0 & _ & instances & js & Hnodes & Hids & Hsorted & Hbound).
  { split_and!; [lia|reflexivity|]. exists [], []. split_and!; try done; constructor. }
  pose proof (DataEntry_instances_strings [""; "(GC roots)"] records st0) as Hstrings.
  assert (Hh : nodes_ h = root :: gc :: instances
               ∧ strings_ h
                 = strings_ (de_serializer
                               (DataEntry_instances v8 indeterminate
                                  GetChildrenCount records st0).2)).
  { unfold h, DataEntry. cbv zeta.
    change (AddGCRootsEntry indeterminate 1
              (InitialEntry indeterminate 1 HeapSnapshotJSONSerializer_new))
      with h0.
    fold st0.
    destruct (DataEntry_instances _ _ _ _ st0) as [finished st].
    simpl in *. by destruct finished. }
  destruct Hh as [Hh Hhs].
  exists root, gc, instances. split_and!; try done.
  - assert (Ho : Forall (λ i, Z.odd i = true) (HeapGraphNode.id <$> instances)).
    { rewrite Hids. apply Forall_fmap, Forall_forall.
      intros j _. apply nth_id_odd. }
    by apply Forall_fmap in Ho.
  - intros Hlen.
    assert (Hs : StronglySorted Z.lt (HeapGraphNode.id <$> instances)).
    { rewrite Hids. clear Hids Hnodes Hh.
      induction Hsorted as [|j js Hjs IH Hj]; [constructor|].
      apply Forall_cons in Hbound as [Hj0 Hbound].
      rewrite fmap_cons. constructor; [by apply IH|].
      apply Forall_fmap, Forall_forall. intros j' Hj'.
      rewrite Forall_forall in Hj, Hbound.
      specialize (Hj j' Hj'). specialize (Hbound j' Hj'). simpl.
      rewrite !nth_id_exact by lia. lia. }
    split; [done|by apply StronglySorted_lt_NoDup].
  - intros Happend. rewrite Hhs.
    destruct (Hstrings Happend) as [rest ->]; [done|]. done.
Qed.
End SnapshotIds.

(** The snapshot of a heap of three objects of one type. *)
Lemma snapshot_instance_ids_odd_increasing_witness :
  let llscan := ScanHeapForObjects (Some 1) (foo_process 3) LLScan_new in
  let h := (DataEntry v8_objects 0 GetChildrenCount_objects
              (DataEntry_records sample_order llscan) llscan
              HeapSnapshotJSONSerializer_new).1 in
  HeapGraphNode.id <$> nodes_ h = [1; 1; 1; 3; 5]
  ∧ ∃ root gc instances,
      nodes_ h = root :: gc :: instances
      ∧ StronglySorted Z.lt (HeapGraphNode.id <$> instances)
      ∧ strings_ h !! 0%nat = Some "".
Proof.
  intros llscan h. split; [vm_compute; reflexivity|].
  destruct (snapshot_instance_ids_odd_increasing v8_objects 0
              GetChildrenCount_objects
              (DataEntry_records sample_order llscan) llscan)
    as (root & gc & instances & Hnodes & _ & _ & _ & _ & Hsorted & Hstrings).
  exists root, gc, instances.
  split; [exact Hnodes|]. split.
  - apply Hsorted. vm_compute. discriminate.
  - apply Hstrings. intros a cs.
    unfold GetChildrenCount_objects, GetChildrenCount_checked, no_children.
    by repeat case_match.
Defined.

(** C4. Two nodes of every snapshot share the id 1, and so does the first
    instance. InitialEntry and AddGCRootsEntry take next_id by value: the
    root gets the id 1, the "(GC roots)" node gets the id 1 that DataEntry
    still holds, and so does the first instance visited. On a heap of one
    object the whole command returns true with three nodes of id 1; the ids
    are odd where the specification has them even, and they are not
    distinct. *)
Theorem snapshot_nodes_share_the_id_1 :
  (∀ v8 indeterminate GetChildrenCount records llscan h,
     ∃ root gc instances,
       nodes_ (DataEntry v8 indeterminate GetChildrenCount records llscan h).1
       = nodes_ h ++ root :: gc :: instances
       ∧ HeapGraphNode.id root = 1 ∧ HeapGraphNode.id gc = 1)
  ∧ let r := HeapSnapshotJSONSerializer_DoExecute v8_objects sample_order 0
               GetChildrenCount_objects false (Some 1) one_object_process
               HeapSnapshotJSONSerializer_new LLScan_new in
    ex_return r.1 = true
    ∧ GetInstances
        <$> GetMapsToInstances (ex_llscan r.1) !! "Object" = Some {[4097]}
    ∧ nodes_ r.2
      = [HeapGraphNode.mk 0 1 1 0 0 0 HeapGraphNode.kSynthetic;
         HeapGraphNode.mk 0 2 1 0 0 0 HeapGraphNode.kSynthetic;
         HeapGraphNode.mk 4097 3 1 24 0 0 HeapGraphNode.kObject]
    ∧ strings_ r.2 = [""; "(GC roots)"; "Object"]
    ∧ HeapGraphNode.id <$> nodes_ r.2 = [1; 1; 1]
    ∧ ¬ NoDup (HeapGraphNode.id <$> nodes_ r.2)
    ∧ ¬ node_ids_as_specified (strings_ r.2) (nodes_ r.2).
Proof.
  split; [intros; apply DataEntry_synthetic_ids|].
  intros r.
  assert (Hnodes : nodes_ r.2
                   = [HeapGraphNode.mk 0 1 1 0 0 0 HeapGraphNode.kSynthetic;
                      HeapGraphNode.mk 0 2 1 0 0 0 HeapGraphNode.kSynthetic;
                      HeapGraphNode.mk 4097 3 1 24 0 0 HeapGraphNode.kObject])
    by (vm_compute; reflexivity).
  split; [vm_compute; reflexivity|]. split; [vm_compute; reflexivity|].
  split; [exact Hnodes|]. split; [vm_compute; reflexivity|].
  rewrite Hnodes. split; [reflexivity|]. split.
  - cbn. intros Hnd. apply NoDup_cons in Hnd as [Hin _].
    apply Hin. by left.
  - intros (root & gc & instances & Heq & _ & _ & _ & _ & _ & Heven & _).
    injection Heq as _ Hgc _. rewrite <- Hgc in Heven. discriminate Heven.
Qed.

(** ** The text of the snapshot *)

Lemma last_non_blank_app_r a b c :
  last_non_blank b = Some c → last_non_blank (a +:+ b) = Some c.
Proof. intros Hb. induction a as [|d a IH]; simpl; [done|by rewrite IH]. Qed.

(** Whatever the nodes, the edges and the strings, the text that
    ImplementSnapshot writes ends with "]," and a line end: the brace opened
    by its first character is never closed. *)
Lemma ImplementSnapshot_never_closes_object err_fail h :
  last_non_blank (ImplementSnapshot_text err_fail h) = Some (Ascii.ascii_of_nat 44)
  ∧ json_object_closed (ImplementSnapshot_text err_fail h) = false.
Proof.
  assert (Hlast : last_non_blank (ImplementSnapshot_text err_fail h)
                  = Some (Ascii.ascii_of_nat 44)).
  { unfold ImplementSnapshot_text.
    repeat first [reflexivity | apply last_non_blank_app_r]. }
  split; [done|]. unfold json_object_closed. by rewrite Hlast.
Qed.

(** C3. The snapshot of a heap without objects (the two synthetic nodes, no
    edge), written by a new serializer. The header announces the two nodes
    and no edge, but the text is not a JSON document: no comma follows the
    "edges", "trace_function_infos" and "trace_tree" arrays, none separates
    "<dummy>" from the first string, a comma trails the last string, and the
    text ends with "]," instead of the closing brace. *)
Theorem snapshot_of_empty_heap_is_not_json :
  let h := (HeapSnapshotJSONSerializer_DoExecute sample_v8 sample_order 0
              no_children false (Some 1) empty_process
              HeapSnapshotJSONSerializer_new LLScan_new).2 in
  length (nodes_ h) = 2%nat ∧ edges_ h = []
  ∧ strings_ h = [""; "(GC roots)"]
  ∧ occurs_in (quote +:+ "node_count" +:+ quote +:+ ":2,"
               +:+ quote +:+ "edge_count" +:+ quote +:+ ":0,") (write_ h) = true
  ∧ occurs_in (quote +:+ "edges" +:+ quote +:+ ":[]" +:+ endl
               +:+ quote +:+ "trace_function_infos" +:+ quote +:+ ":[]" +:+ endl
               +:+ quote +:+ "trace_tree" +:+ quote +:+ ":[]" +:+ endl
               +:+ quote +:+ "samples" +:+ quote) (write_ h) = true
  ∧ occurs_in (quote +:+ "strings" +:+ quote +:+ ":["
               +:+ quote +:+ "<dummy>" +:+ quote +:+ quote +:+ quote +:+ ","
               +:+ endl +:+ quote +:+ "(GC roots)" +:+ quote +:+ "," +:+ endl
               +:+ "]," +:+ endl) (write_ h) = true
  ∧ last_non_blank (write_ h) = Some (Ascii.ascii_of_nat 44)
  ∧ json_object_closed (write_ h) = false.
Proof. vm_compute. split_and!; reflexivity. Qed.

(** * Further properties *)

(** ** The order of the histogram rows *)

Lemma Ascii_compare_trans a b c :
  Ascii.compare a b = Lt → Ascii.compare b c = Lt → Ascii.compare a c = Lt.
Proof.
  unfold Ascii.compare. rewrite !N.compare_lt_iff. lia.
Qed.

Lemma String_compare_refl s : String.compare s s = Eq.
Proof.
  induction s as [|a s IH]; simpl; [done|].
  unfold Ascii.compare. by rewrite N.compare_refl.
Qed.

Lemma String_compare_lt_trans s1 : ∀ s2 s3,
  String.compare s1 s2 = Lt → String.compare s2 s3 = Lt →
  String.compare s1 s3 = Lt.
Proof.
  induction s1 as [|a s1 IH]; intros [|b s2] [|c s3]; simpl; try done.
  destruct (Ascii.compare a b) eqn:Hab; try done;
    destruct (Ascii.compare b c) eqn:Hbc; try done; intros H12 H23.
  - apply Ascii.compare_eq_iff in Hab, Hbc. subst.
    unfold Ascii.compare. rewrite N.compare_refl. by eapply IH.
  - apply Ascii.compare_eq_iff in Hab. subst. by rewrite Hbc.
  - apply Ascii.compare_eq_iff in Hbc. subst. by rewrite Hab.
  - by rewrite (Ascii_compare_trans a b c).
Qed.

Lemma String_ltb_irrefl s : String.ltb s s = false.
Proof. unfold String.ltb. by rewrite String_compare_refl. Qed.

Lemma String_ltb_trans s1 s2 s3 :
  String.ltb s1 s2 = true → String.ltb s2 s3 = true → String.ltb s1 s3 = true.
Proof.
  unfold String.ltb. intros H12 H23.
  destruct (String.compare s1 s2) eqn:E12; try done.
  destruct (String.compare s2 s3) eqn:E23; try done.
  by rewrite (String_compare_lt_trans s1 s2 s3).
Qed.

Lemma String_ltb_total s1 s2 :
  String.ltb s1 s2 = false → String.ltb s2 s1 = false → s1 = s2.
Proof.
  unfold String.ltb. rewrite (String.compare_antisym s2 s1).
  destruct (String.compare s1 s2) eqn:E; simpl; try done.
  intros _ _. by apply String.compare_eq_iff.
Qed.

Lemma CompareInstanceCounts_spec a b :
  CompareInstanceCounts a b = true ↔
  instance_count_ a < instance_count_ b
  ∨ (instance_count_ a = instance_count_ b
     ∧ (total_instance_size_ a < total_instance_size_ b
        ∨ (total_instance_size_ a = total_instance_size_ b
           ∧ String.ltb (type_name_ a) (type_name_ b) = true))).
Proof.
  unfold CompareInstanceCounts.
  repeat case_decide; rewrite ?bool_decide_eq_true; split; intros Hc;
    try lia; try naive_solver lia.
Qed.

(** X1. TypeRecord::CompareInstanceCounts is a strict order on the records, first
    by instance count, then by total size, then by type name; it never puts a
    record before itself, and it leaves two records unordered only when they
    agree on all three, so the comparison is one that std::sort accepts and
    the rows of the histogram come in one order only. *)
Theorem CompareInstanceCounts_strict_total_order (a b c : TypeRecord) :
  CompareInstanceCounts a a = false
  ∧ (CompareInstanceCounts a b = true → CompareInstanceCounts b a = false)
  ∧ (CompareInstanceCounts a b = true → CompareInstanceCounts b c = true →
     CompareInstanceCounts a c = true)
  ∧ (CompareInstanceCounts a b = false → CompareInstanceCounts b a = false →
     sort_key a = sort_key b)
  ∧ (sort_key a = sort_key b → CompareInstanceCounts a b = false).
Proof.
  assert (Hirr : ∀ x y, sort_key x = sort_key y → CompareInstanceCounts x y = false).
  { intros x y Hk. unfold sort_key in Hk. injection Hk as Hc Hs Hn.
    apply not_true_is_false. rewrite CompareInstanceCounts_spec.
    intros [?|[_ [?|[_ Hlt]]]]; try lia.
    rewrite Hn in Hlt. by rewrite String_ltb_irrefl in Hlt. }
  split_and!.
  - by apply Hirr.
  - rewrite CompareInstanceCounts_spec. intros Hab.
    apply not_true_is_false. rewrite CompareInstanceCounts_spec. intros Hba.
    destruct Hab as [?|[? [?|[? Hab]]]], Hba as [?|[? [?|[? Hba]]]]; try lia.
    pose proof (String_ltb_trans _ _ _ Hab Hba) as Haa.
    by rewrite String_ltb_irrefl in Haa.
  - rewrite !CompareInstanceCounts_spec. intros Hab Hbc.
    destruct Hab as [?|[? [?|[? Hab]]]], Hbc as [?|[? [?|[? Hbc]]]];
      try (left; lia); try (right; split; [lia|left; lia]).
    right. split; [lia|]. right. split; [lia|]. by eapply String_ltb_trans.
  - intros Hab Hba.
    apply not_true_iff_false in Hab, Hba.
    rewrite CompareInstanceCounts_spec in Hab, Hba.
    assert (instance_count_ a = instance_count_ b) as Hc by lia.
    assert (total_instance_size_ a = total_instance_size_ b) as Hs by lia.
    assert (type_name_ a = type_name_ b) as Hn.
    { apply String_ltb_total; apply not_true_is_false; intros Hlt.
      - apply Hab. right. split; [done|]. right. by split.
      - apply Hba. right. split; [done|]. right. by split. }
    unfold sort_key. by rewrite Hc, Hs, Hn.
  - by apply Hirr.
Qed.

(** Two records that differ in the instance count only. *)
Lemma CompareInstanceCounts_strict_total_order_witness :
  CompareInstanceCounts (mkTypeRecord "A" 1 24 {[4097]})
    (mkTypeRecord "B" 3 24 {[4129]}) = true
  ∧ CompareInstanceCounts (mkTypeRecord "B" 3 24 {[4129]})
      (mkTypeRecord "A" 1 24 {[4097]}) = false.
Proof.
  destruct (CompareInstanceCounts_strict_total_order
              (mkTypeRecord "A" 1 24 {[4097]}) (mkTypeRecord "B" 3 24 {[4129]})
              (mkTypeRecord "A" 1 24 {[4097]}))
    as (_ & Hasym & _).
  split; [reflexivity|]. apply Hasym. reflexivity.
Defined.

(** ** The options *)

Lemma ParseScanOptions_loop_no_type pre : ∀ options,
  Forall (λ a, is_scan_type_option a = false) pre →
  ∀ rest,
    ParseScanOptions_loop (pre ++ rest) false options
    = ParseScanOptions_loop rest false
        (mkScanOptions
           (if forallb (λ a, bool_decide (a = opt_r)) pre
            then scan_type options else kBadOption)
           (recursive_scan options || bool_decide (opt_r ∈ pre))).
Proof.
  induction pre as [|a pre IH]; intros options Hpre rest.
  - cbn [app forallb].
    rewrite bool_decide_eq_false_2 by (by intros ?%elem_of_nil).
    rewrite orb_false_r. by destruct options.
  - apply Forall_cons in Hpre as [Ha Hpre].
    unfold is_scan_type_option in Ha. apply bool_decide_eq_false in Ha.
    cbn [app ParseScanOptions_loop forallb].
    destruct (decide (a = opt_r)) as [->|Hr].
    + rewrite IH by done. cbn [scan_type recursive_scan].
      rewrite (bool_decide_eq_true_2 (opt_r = opt_r)) by done. cbn [andb orb].
      rewrite (bool_decide_eq_true_2 (opt_r ∈ opt_r :: pre)) by set_solver.
      by rewrite orb_true_r.
    + rewrite !decide_False by tauto.
      rewrite IH by done. cbn [scan_type recursive_scan].
      rewrite (bool_decide_eq_false_2 (a = opt_r)) by done. cbn [andb].
      replace (bool_decide (opt_r ∈ a :: pre)) with (bool_decide (opt_r ∈ pre))
        by (apply bool_decide_ext; set_solver).
      by destruct (forallb _ pre).
Qed.

Lemma ParseScanOptions_loop_type t rest options :
  is_scan_type_option t = true →
  ParseScanOptions_loop (t :: rest) false options
  = mkScanOptions
      (match rest with [] => scan_type_of_option t | _ => kBadOption end)
      (recursive_scan options).
Proof.
  unfold is_scan_type_option, scan_type_of_option. intros Ht%bool_decide_eq_true.
  cbn [ParseScanOptions_loop].
  assert (t ≠ opt_r) by (unfold opt_r, opt_v, opt_n, opt_s in *; lia).
  rewrite (decide_False (P := t = opt_r)) by done.
  repeat case_decide; try (exfalso; tauto); by destruct rest.
Qed.

(** X2. ParseScanOptions accepts a search-type option (-v, -n, -s) only as the
    last option. Of the options before it only -r counts: an option unknown
    to findrefs that comes before the type option is forgotten, while any
    option at all that comes after it, -r included, leaves kBadOption.
    Without a type option the default type is kept when every option is -r,
    and kBadOption is left otherwise. *)
Theorem ParseScanOptions_type_option_last (pre post : list Z) (t : Z)
    (options : ScanOptions) :
  Forall (λ a, is_scan_type_option a = false) pre →
  is_scan_type_option t = true →
  ParseScanOptions (pre ++ t :: post) options
  = mkScanOptions
      (match post with [] => scan_type_of_option t | _ => kBadOption end)
      (recursive_scan options || bool_decide (opt_r ∈ pre))
  ∧ ParseScanOptions pre options
    = mkScanOptions
        (if forallb (λ a, bool_decide (a = opt_r)) pre
         then scan_type options else kBadOption)
        (recursive_scan options || bool_decide (opt_r ∈ pre)).
Proof.
  intros Hpre Ht. unfold ParseScanOptions. split.
  - rewrite ParseScanOptions_loop_no_type by done.
    by rewrite ParseScanOptions_loop_type.
  - rewrite <- (app_nil_r pre) at 1.
    by rewrite ParseScanOptions_loop_no_type.
Qed.

(** findrefs -r -s text is a recursive search for a string; findrefs -s -r
    text is refused. *)
Lemma ParseScanOptions_type_option_last_witness :
  ParseScanOptions [opt_r; opt_s] ScanOptions_new = mkScanOptions kStringValue true
  ∧ ParseScanOptions [opt_s; opt_r] ScanOptions_new = mkScanOptions kBadOption false.
Proof.
  split.
  - apply (ParseScanOptions_type_option_last [opt_r] [] opt_s ScanOptions_new).
    + repeat constructor.
    + reflexivity.
  - apply (ParseScanOptions_type_option_last [] [opt_r] opt_s ScanOptions_new).
    + constructor.
    + reflexivity.
Defined.

Lemma ParsePrinterOptions_arg_limit options arg :
  0 ≤ po_output_limit options < 2 ^ 31 →
  0 ≤ po_output_limit (ParsePrinterOptions_arg options arg) < 2 ^ 31.
Proof.
  intros Hl. destruct arg as [arg optarg]. unfold ParsePrinterOptions_arg.
  repeat case_decide; cbn [po_output_limit]; try done.
  assert (- 2 ^ 31 ≤ wrap_int optarg < 2 ^ 31).
  { unfold wrap_int. pose proof (Z.mod_pos_bound (optarg + 2 ^ 31) (2 ^ 32)). lia. }
  destruct (decide (wrap_int optarg > 0));
    [rewrite !bool_decide_eq_true_2 by lia
    |rewrite (bool_decide_eq_false_2 (wrap_int optarg > 0)) by lia;
     rewrite andb_false_r]; cbn [andb]; lia.
Qed.

Lemma ParsePrinterOptions_arg_other options arg :
  arg.1 ≠ opt_n →
  po_output_limit (ParsePrinterOptions_arg options arg) = po_output_limit options.
Proof.
  destruct arg as [arg optarg]. cbn [fst]. intros Hn.
  unfold ParsePrinterOptions_arg. repeat case_decide; done.
Qed.

(** X3. The limit that ParsePrinterOptions leaves is the one of the last -n
    option, turned into 0 (no limit) when it is not positive as an int; it is
    never negative, whatever the options are. *)
Theorem ParsePrinterOptions_output_limit (before after : list (Z * Z))
    (optarg : Z) (options : PrinterOptions) :
  Forall (λ arg, arg.1 ≠ opt_n) after →
  0 ≤ po_output_limit options < 2 ^ 31 →
  po_output_limit
    (ParsePrinterOptions (before ++ (opt_n, optarg) :: after) options)
  = Z.max 0 (wrap_int optarg)
  ∧ 0 ≤ po_output_limit (ParsePrinterOptions before options) < 2 ^ 31
  ∧ po_output_limit (ParsePrinterOptions after options) = po_output_limit options.
Proof.
  intros Hafter Hl.
  assert (Hkeep : ∀ o, po_output_limit (ParsePrinterOptions after o)
                       = po_output_limit o).
  { intros o. unfold ParsePrinterOptions. revert o.
    induction Hafter as [|arg after Harg _ IH]; intros o; simpl; [done|].
    rewrite IH. by apply ParsePrinterOptions_arg_other. }
  split; [|split].
  - unfold ParsePrinterOptions in *. rewrite foldl_app. cbn [foldl].
    rewrite Hkeep. generalize (foldl ParsePrinterOptions_arg options before).
    intros o. unfold ParsePrinterOptions_arg.
    assert (opt_n ≠ opt_F ∧ opt_n ≠ opt_m ∧ opt_n ≠ opt_l ∧ opt_n ≠ opt_s
            ∧ opt_n ≠ opt_d ∧ opt_n ≠ opt_v) as (?&?&?&?&?&?) by done.
    repeat case_decide; try done; try (exfalso; tauto).
    all: cbn [po_output_limit].
    all: destruct (decide (wrap_int optarg > 0));
      [rewrite !bool_decide_eq_true_2 by lia
      |rewrite (bool_decide_eq_false_2 (wrap_int optarg > 0)) by lia;
       rewrite andb_false_r]; cbn [andb]; lia.
  - unfold ParsePrinterOptions.
    by apply (foldl_invariant (λ o, 0 ≤ po_output_limit o < 2 ^ 31));
      [intros o arg; apply ParsePrinterOptions_arg_limit|].
  - apply Hkeep.
Qed.

(** -n 5 -n -3 -m leaves no limit. *)
Lemma ParsePrinterOptions_output_limit_witness :
  po_output_limit
    (ParsePrinterOptions [(opt_n, 5); (opt_n, -3); (opt_m, 0)]
       (mkPrinterOptions 16 false false false 0)) = 0.
Proof.
  destruct (ParsePrinterOptions_output_limit [(opt_n, 5)] [(opt_m, 0)] (-3)
              (mkPrinterOptions 16 false false false 0)) as (H & _ & _).
  - repeat constructor. simpl. discriminate.
  - simpl. lia.
  - exact H.
Defined.

(** ** What the scanners change *)

Section IndexGrows.
Context `{Countable K}.
Implicit Types (m : gmap K ReferencesVector) (k : K) (P : Z → Prop).

Lemma index_grows_refl P m : index_grows P m m.
Proof. intros k. split; [done|]. exists []. by rewrite app_nil_r. Qed.

Lemma index_grows_trans P m1 m2 m3 :
  index_grows P m1 m2 → index_grows P m2 m3 → index_grows P m1 m3.
Proof.
  intros H12 H23 k.
  destruct (H12 k) as (Hk2 & added2 & Hv2 & Hp2).
  destruct (H23 k) as (Hk3 & added3 & Hv3 & Hp3).
  split; [tauto|]. exists (added2 ++ added3). split.
  - by rewrite Hv3, Hv2, app_assoc.
  - by apply Forall_app.
Qed.

Lemma index_grows_weaken (P Q : Z → Prop) m m' :
  (∀ a, P a → Q a) → index_grows P m m' → index_grows Q m m'.
Proof.
  intros HPQ Hg k. destruct (Hg k) as (Hk & added & Hv & Hp).
  split; [done|]. exists added. split; [done|].
  eapply Forall_impl; [exact Hp|done].
Qed.

Lemma GetReferences_default k k' m :
  default [] ((GetReferences k m).2 !! k') = default [] (m !! k').
Proof.
  destruct (decide (k = k')) as [->|Hne].
  - destruct (m !! k') as [v|] eqn:Hk.
    + rewrite (GetReferences_present k' m v) by done. cbn [snd]. by rewrite Hk.
    + rewrite GetReferences_absent by done. cbn [snd]. by rewrite lookup_insert_eq.
  - by rewrite GetReferences_other.
Qed.

Lemma GetReferences_grows P k m : index_grows P m (GetReferences k m).2.
Proof.
  intros k'. split.
  - intros [v Hv]. destruct (decide (k = k')) as [->|Hne].
    + by rewrite (GetReferences_present k' m v).
    + by rewrite GetReferences_other.
  - exists []. by rewrite GetReferences_default, app_nil_r.
Qed.

Lemma push_back_reference_lookup k src m :
  push_back_reference k src m !! k = Some (default [] (m !! k) ++ [src]).
Proof.
  unfold push_back_reference.
  destruct (GetReferences k m) as [references m'] eqn:Hget.
  rewrite lookup_insert_eq. f_equal. f_equal.
  destruct (m !! k) as [v|] eqn:Hk.
  - rewrite (GetReferences_present k m v) in Hget by done. by simplify_eq.
  - rewrite GetReferences_absent in Hget by done. by simplify_eq.
Qed.

Lemma push_back_reference_other k k' src m :
  k ≠ k' → push_back_reference k src m !! k' = m !! k'.
Proof.
  intros Hne. unfold push_back_reference.
  destruct (GetReferences k m) as [references m'] eqn:Hget.
  rewrite lookup_insert_ne by done.
  replace m' with (GetReferences k m).2 by (by rewrite Hget).
  by apply GetReferences_other.
Qed.

Lemma push_back_reference_grows P k src m :
  P src → index_grows P m (push_back_reference k src m).
Proof.
  intros Hsrc k'. destruct (decide (k = k')) as [->|Hne].
  - rewrite push_back_reference_lookup. split; [by eauto|].
    exists [src]. split; [done|]. by apply Forall_singleton.
  - rewrite push_back_reference_other by done. split; [done|].
    exists []. by rewrite app_nil_r.
Qed.
End IndexGrows.

#[local] Instance only_references_differ_refl : Reflexive only_references_differ.
Proof. by intros s. Qed.
#[local] Instance only_references_differ_trans : Transitive only_references_differ.
Proof.
  intros s1 s2 s3 (A1 & A2 & A3 & A4) (B1 & B2 & B3 & B4).
  unfold only_references_differ. split_and!; congruence.
Qed.

#[local] Instance scanner_effect_refl P scanner :
  Reflexive (scanner_effect P scanner).
Proof.
  intros s. split; [reflexivity|].
  destruct scanner; split_and!; first [done|apply index_grows_refl].
Qed.
#[local] Instance scanner_effect_trans P scanner :
  Transitive (scanner_effect P scanner).
Proof.
  intros s1 s2 s3 [A1 A2] [B1 B2]. split; [by etrans|].
  destruct scanner; destruct A2 as (A21 & A22 & A23), B2 as (B21 & B22 & B23);
    split_and!; first [congruence|by eapply index_grows_trans].
Qed.

#[local] Instance references_grow_refl P : Reflexive (references_grow P).
Proof.
  intros s. split; [reflexivity|]. split_and!; apply index_grows_refl.
Qed.
#[local] Instance references_grow_trans P : Transitive (references_grow P).
Proof.
  intros s1 s2 s3 [A1 (A2 & A3 & A4)] [B1 (B2 & B3 & B4)].
  split; [by etrans|]. split_and!; by eapply index_grows_trans.
Qed.
#[local] Instance print_references_grow_refl : Reflexive print_references_grow.
Proof. intros st. unfold print_references_grow. reflexivity. Qed.
#[local] Instance print_references_grow_trans : Transitive print_references_grow.
Proof. intros s1 s2 s3 H1 H2. unfold print_references_grow in *. by etrans. Qed.

Lemma scanner_effect_grow P scanner s s' :
  scanner_effect P scanner s s' → references_grow P s s'.
Proof.
  intros [A1 A2]. split; [done|].
  destruct scanner; destruct A2 as (A21 & A22 & A23);
    rewrite ?A21, ?A22, ?A23; split_and!;
    first [done|apply index_grows_refl].
Qed.

Lemma references_grow_weaken (P Q : Z → Prop) s s' :
  (∀ a, P a → Q a) → references_grow P s s' → references_grow Q s s'.
Proof.
  intros HPQ (A1 & A2 & A3 & A4).
  split; [done|]. split_and!; by eapply index_grows_weaken.
Qed.

Lemma save_by_value_effect P x v src s :
  P src → scanner_effect P (ReferenceScanner x) s (save_by_value v src s).
Proof.
  intros Hsrc. split; [done|]. split_and!; [|done..].
  by apply push_back_reference_grows.
Qed.

Lemma save_by_property_effect P x key src s :
  P src → scanner_effect P (PropertyScanner x) s (save_by_property key src s).
Proof.
  intros Hsrc. split; [done|]. split_and!; [done| |done].
  by apply push_back_reference_grows.
Qed.

Lemma save_by_string_effect P x value src s :
  P src → scanner_effect P (StringScanner x) s (save_by_string value src s).
Proof.
  intros Hsrc. split; [done|]. split_and!; [done..|].
  by apply push_back_reference_grows.
Qed.

Lemma ScannerGetReferences_effect P scanner s :
  scanner_effect P scanner s (ScannerGetReferences scanner s).2.
Proof.
  destruct scanner; cbn [ScannerGetReferences];
    rewrite ?GetReferencesByValue_unfold, ?GetReferencesByProperty_unfold,
      ?GetReferencesByString_unfold;
    (split; [done|]); split_and!; first [done|apply GetReferences_grows].
Qed.

Section ScannerEffect.
Variable v8 : LLV8.
Variable order : gset Z → list Z.
Variable P : Z → Prop.

Lemma ReferenceScanner_scan_elements_effect x js_obj indices :
  P js_obj →
  ∀ already_saved s,
    scanner_effect P (ReferenceScanner x) s
      (ReferenceScanner_scan_elements v8 js_obj indices already_saved s).2.
Proof.
  intros Hobj.
  induction indices as [|i indices IH]; intros already_saved s; simpl;
    [reflexivity|].
  destruct (GetArrayElement v8 js_obj i) as [v|]; [|reflexivity].
  case_decide; [apply IH|].
  etrans; [|apply IH]. by apply save_by_value_effect.
Qed.

Lemma StringScanner_scan_value_effect x js_obj acc v :
  P js_obj →
  scanner_effect P (StringScanner x) acc.2
    (StringScanner_scan_value v8 js_obj acc v).2.
Proof.
  intros Hobj. destruct acc as [saved s]. unfold StringScanner_scan_value.
  repeat case_match; cbn [snd];
    first [reflexivity|by apply save_by_string_effect].
Qed.

Lemma ScanRefs_JSObject_effect scanner js_obj s :
  P js_obj →
  scanner_effect P scanner s (ScanRefs_JSObject v8 scanner js_obj s).
Proof.
  intros Hobj. destruct scanner as [x|x|x]; cbn [ScanRefs_JSObject].
  - unfold ReferenceScanner_ScanRefs_JSObject.
    pose proof (ReferenceScanner_scan_elements_effect x js_obj
                  (seqZ 0 (GetArrayLength v8 js_obj)) Hobj ∅ s) as Hel.
    destruct (ReferenceScanner_scan_elements _ _ _ _ _) as [saved s1].
    destruct (Entries v8 js_obj) as [entries|]; [|done].
    apply (foldl_invariant
             (λ acc, scanner_effect P (ReferenceScanner x) s acc.2)); [|done].
    intros [saved' s'] entry Hacc. unfold ReferenceScanner_scan_entry.
    case_decide; [done|]. cbn [snd] in *.
    etrans; [exact Hacc|by apply save_by_value_effect].
  - unfold PropertyScanner_ScanRefs_JSObject.
    destruct (Entries v8 js_obj) as [entries|]; [|reflexivity].
    apply (foldl_invariant (scanner_effect P (PropertyScanner x) s));
      [|reflexivity].
    intros s' entry Hs'. unfold PropertyScanner_scan_entry.
    destruct (ToString v8 entry.1); [|done].
    etrans; [exact Hs'|by apply save_by_property_effect].
  - unfold StringScanner_ScanRefs_JSObject.
    assert (Hel : scanner_effect P (StringScanner x) s
              (foldl (StringScanner_scan_element v8 js_obj) (∅, s)
                 (seqZ 0 (GetArrayLength v8 js_obj))).2).
    { apply (foldl_invariant
               (λ acc, scanner_effect P (StringScanner x) s acc.2));
        [|reflexivity].
      intros acc i Hacc. unfold StringScanner_scan_element.
      destruct (GetArrayElement v8 js_obj i); [|done].
      etrans; [exact Hacc|by apply StringScanner_scan_value_effect]. }
    destruct (Entries v8 js_obj) as [entries|]; [|done].
    apply (foldl_invariant
             (λ acc, scanner_effect P (StringScanner x) s acc.2)); [|done].
    intros acc entry Hacc.
    etrans; [exact Hacc|by apply StringScanner_scan_value_effect].
Qed.

Lemma StringScanner_scan_part_effect x str part s s' :
  P str →
  StringScanner_scan_part v8 str part s = Some s' →
  scanner_effect P (StringScanner x) s s'.
Proof.
  intros Hstr. unfold StringScanner_scan_part.
  repeat case_match; intros Hs; simplify_eq;
    first [reflexivity|by apply save_by_string_effect].
Qed.

Lemma ScanRefs_String_effect scanner str s :
  P str →
  scanner_effect P scanner s (ScanRefs_String v8 scanner str s).
Proof.
  intros Hstr.
  destruct scanner as [x|x|x]; cbn [ScanRefs_String]; [|reflexivity|].
  - unfold ReferenceScanner_ScanRefs_String.
    destruct (Representation v8 str) as [repr valid].
    destruct (negb valid); [reflexivity|].
    destruct (decide (repr = kSlicedStringTag v8));
      [|destruct (decide (repr = kConsStringTag v8));
        [|destruct (decide (repr = kThinStringTag v8)); [|reflexivity]]].
    + destruct (Parent v8 str).2; [by apply save_by_value_effect|reflexivity].
    + etrans; [|destruct (_ && _); [by apply save_by_value_effect|reflexivity]].
      destruct (First v8 str).2; [by apply save_by_value_effect|reflexivity].
    + destruct (Actual v8 str).2; [by apply save_by_value_effect|reflexivity].
  - unfold StringScanner_ScanRefs_String.
    destruct (Representation v8 str) as [repr valid].
    destruct (negb valid); [reflexivity|].
    destruct (decide (repr = kSlicedStringTag v8));
      [|destruct (decide (repr = kConsStringTag v8)); [|reflexivity]].
    + destruct (negb _); [reflexivity|].
      destruct (ToString v8 _); [by apply save_by_string_effect|reflexivity].
    + destruct (StringScanner_scan_part v8 str (First v8 str) s) as [s1|] eqn:H1;
        [|reflexivity].
      apply (StringScanner_scan_part_effect x) in H1; [|done].
      destruct (StringScanner_scan_part v8 str (Second v8 str) s1) as [s2|] eqn:H2;
        cbn [default]; [|done].
      apply (StringScanner_scan_part_effect x) in H2; [|done]. by etrans.
Qed.

Lemma ScanForReferences_instance_effect scanner s addr :
  P addr →
  scanner_effect P scanner s (ScanForReferences_instance v8 scanner s addr).
Proof.
  intros Haddr. unfold ScanForReferences_instance. repeat case_match;
    first [by apply ScanRefs_JSObject_effect|by apply ScanRefs_String_effect
          |reflexivity].
Qed.
End ScannerEffect.

Lemma TypeRecordMap_iteration_lookup m entry :
  entry ∈ TypeRecordMap_iteration m → m !! entry.1 = Some entry.2.
Proof.
  unfold TypeRecordMap_iteration. rewrite merge_sort_Permutation.
  destruct entry as [k t]. by rewrite elem_of_map_to_list.
Qed.

Lemma foldl_invariant_in {A B : Type} (Q : B → Prop) (f : B → A → B) (l : list A) :
  (∀ b x, x ∈ l → Q b → Q (f b x)) → ∀ b, Q b → Q (foldl f b l).
Proof.
  induction l as [|x l IH]; intros Hf b Hb; simpl; [done|].
  apply IH.
  - intros b' y Hy. apply Hf. by right.
  - apply Hf; [by left|done].
Qed.

Lemma ScanForReferences_effect v8 order scanner s :
  scanner_effect (scanned_address order s) scanner s
    (ScanForReferences v8 order scanner s).
Proof.
  unfold ScanForReferences.
  apply (foldl_invariant_in (scanner_effect (scanned_address order s) scanner s));
    [|reflexivity].
  intros s1 entry Hentry Hs1.
  apply (foldl_invariant_in (scanner_effect (scanned_address order s) scanner s));
    [|done].
  intros s2 addr Haddr Hs2. etrans; [exact Hs2|].
  apply ScanForReferences_instance_effect. by exists entry.
Qed.

Lemma scanned_address_is_instance order s a :
  iterates_members order → scanned_address order s a → is_instance s a.
Proof.
  intros Horder (entry & Hentry & Ha).
  apply TypeRecordMap_iteration_lookup in Hentry.
  exists entry.1, entry.2. split; [done|]. by apply Horder.
Qed.

Lemma scanner_effect_weaken (P Q : Z → Prop) scanner s s' :
  (∀ a, P a → Q a) → scanner_effect P scanner s s' → scanner_effect Q scanner s s'.
Proof.
  intros HPQ [A1 A2]. split; [done|].
  destruct scanner; destruct A2 as (A21 & A22 & A23); split_and!;
    first [done|by eapply index_grows_weaken].
Qed.

Section PrintGrow.
Variable v8 : LLV8.
Variable order : gset Z → list Z.

Lemma Printf_grow o st : print_references_grow st (Printf o st).
Proof. unfold print_references_grow. cbn [Printf ps_llscan]. reflexivity. Qed.

Lemma PrintReferences_grow rec references scanner options level st st' :
  (∀ o a l s s', rec o a l s = Some s' → print_references_grow s s') →
  PrintReferences v8 order rec references scanner options level st = Some st' →
  print_references_grow st st'.
Proof.
  intros Hrec. unfold PrintReferences.
  destruct (for_each _ references st) as [s1|] eqn:Hfor; simpl; [|done].
  intros Hctx. etrans.
  - eapply (for_each_partial print_references_grow); [|exact Hfor].
    intros addr s s'. unfold PrintReferences_addr.
    repeat case_match; intros Hs;
      first [apply Hrec in Hs; etrans; [apply Printf_grow|exact Hs]
            |simplify_eq; first [reflexivity|apply Printf_grow]].
  - unfold PrintContextRefs in Hctx. destruct scanner; simplify_eq;
      try reflexivity.
    eapply (for_each_partial print_references_grow); [|exact Hctx].
    intros ctx s s'. cbv beta. destruct (Locals v8 ctx) as [locals|];
      [|intros ?; simplify_eq; reflexivity].
    apply (for_each_partial print_references_grow).
    intros local t t'. unfold PrintContextRefs_local.
    repeat case_match; intros Ht;
      first [apply Hrec in Ht; etrans; [apply Printf_grow|exact Ht]
            |simplify_eq; first [reflexivity|apply Printf_grow]].
Qed.

Lemma PrintRecursiveReferences_grow fuel :
  ∀ options address level st st',
    PrintRecursiveReferences v8 order fuel options address level st = Some st' →
    print_references_grow st st'.
Proof.
  induction fuel as [|fuel IH]; intros options address level st st'; [done|].
  cbn [PrintRecursiveReferences]. cbn zeta.
  case_decide;
    [intros ?; simplify_eq; etrans; [apply Printf_grow|apply Printf_grow]|].
  rewrite GetReferencesByValue_unfold.
  intros Hrun. apply PrintReferences_grow in Hrun; [|exact IH].
  etrans; [|exact Hrun]. unfold print_references_grow. cbn [ps_llscan Printf].
  apply (scanner_effect_grow _ (ReferenceScanner 0)).
  pose proof (ScannerGetReferences_effect (λ _, False) (ReferenceScanner address)
                (ps_llscan st)) as Hget.
  cbn [ScannerGetReferences] in Hget.
  by rewrite GetReferencesByValue_unfold in Hget.
Qed.
End PrintGrow.

(** ** The histograms *)

Lemma AddInstance_type_name address sz t :
  type_name_ (AddInstance address sz t) = type_name_ t.
Proof. unfold AddInstance. by case_bool_decide. Qed.

Lemma AddInstance_record_wf address sz t :
  instance_count_ t = wrap64 (Z.of_nat (size (instances_ t))) →
  record_wf (AddInstance address sz t).
Proof.
  intros Hc. split.
  - destruct (decide (address ∈ instances_ t)) as [Hin|Hn].
    + by rewrite AddInstance_present.
    + rewrite AddInstance_fresh by done. cbn [instance_count_ instances_].
      rewrite Hc, wrap64_add_l. f_equal.
      rewrite (size_union {[address]} (instances_ t)) by set_solver.
      rewrite size_singleton. lia.
  - rewrite AddInstance_instances. set_solver.
Qed.

Lemma InsertOnMaps_histogram_wf word sz map_info s :
  histogram_wf s →
  histogram_wf
    (InsertOnDetailedMapsToInstances word sz map_info
       (InsertOnMapsToInstances word sz map_info s)).
Proof.
  intros (Hc & Hd & Hcd).
  set (name := GetTypeNameWithProperties map_info kShowArrayLength 0).
  assert (Hnew : ∃ d, detailedmapstoinstances_
                        (InsertOnDetailedMapsToInstances word sz map_info
                           (InsertOnMapsToInstances word sz map_info s))
                      !! name = Some d
                      ∧ word ∈ instances_ (dtr_record d)).
  { eexists. split; [apply lookup_insert_eq|].
    cbn [dtr_record]. rewrite AddInstance_instances. set_solver. }
  split; [|split].
  - intros k t. cbn [mapstoinstances_ InsertOnDetailedMapsToInstances
                     InsertOnMapsToInstances].
    destruct (decide (type_name map_info = k)) as [<-|Hne].
    + rewrite lookup_insert_eq. intros [= <-].
      rewrite AddInstance_type_name.
      destruct (mapstoinstances_ s !! type_name map_info) as [t0|] eqn:Ht0;
        cbn [default].
      * destruct (Hc _ _ Ht0) as [Hname [Hcount _]].
        split; [done|by apply AddInstance_record_wf].
      * split; [done|by apply AddInstance_record_wf].
    + rewrite lookup_insert_ne by done. apply Hc.
  - intros k d. cbn [detailedmapstoinstances_ InsertOnDetailedMapsToInstances
                     InsertOnMapsToInstances]. fold name.
    destruct (decide (name = k)) as [<-|Hne].
    + rewrite lookup_insert_eq. intros [= <-]. cbn [dtr_record].
      apply AddInstance_record_wf.
      destruct (detailedmapstoinstances_ s !! name) as [d0|] eqn:Hd0;
        [by apply (Hd _ _ Hd0)|done].
    + rewrite lookup_insert_ne by done. apply Hd.
  - intros k t a Hk Ha.
    cbn [mapstoinstances_ InsertOnDetailedMapsToInstances
         InsertOnMapsToInstances] in Hk.
    assert (Hold : ∀ k0 t0, mapstoinstances_ s !! k0 = Some t0 →
              a ∈ instances_ t0 →
              ∃ k' d, detailedmapstoinstances_
                        (InsertOnDetailedMapsToInstances word sz map_info
                           (InsertOnMapsToInstances word sz map_info s))
                      !! k' = Some d ∧ a ∈ instances_ (dtr_record d)).
    { intros k0 t0 Hk0 Ha0. destruct (Hcd _ _ _ Hk0 Ha0) as (k' & d & Hk' & Hin).
      destruct (InsertOnDetailedMapsToInstances_kept word sz map_info
                  (InsertOnMapsToInstances word sz map_info s) k' d Hk')
        as (d' & Hd' & Hsub).
      exists k', d'. split; [done|set_solver]. }
    destruct (decide (type_name map_info = k)) as [<-|Hne].
    + rewrite lookup_insert_eq in Hk. injection Hk as <-.
      rewrite AddInstance_instances in Ha.
      apply elem_of_union in Ha as [->%elem_of_singleton|Ha].
      * destruct Hnew as (d & Hd' & Hin). by exists name, d.
      * destruct (mapstoinstances_ s !! type_name map_info) as [t0|] eqn:Ht0;
          cbn [default] in Ha; [by eapply Hold|].
        cbn [TypeRecord_new instances_] in Ha. set_solver.
    + rewrite lookup_insert_ne in Hk by done. by eapply Hold.
Qed.

Lemma Visit_histogram_wf d word v s :
  histogram_wf s → histogram_wf (Visit d word (v, s)).2.
Proof.
  intros Hs. unfold Visit.
  repeat case_match; simplify_eq; cbn [snd];
    first [exact Hs | by apply InsertOnMaps_histogram_wf].
Qed.

Lemma ScanMemoryRegions_histogram_wf process v s :
  histogram_wf s → histogram_wf (ScanMemoryRegions process (v, s)).2.
Proof.
  intros Hs. unfold ScanMemoryRegions.
  apply (foldl_invariant (λ vs, histogram_wf vs.2)); [|done].
  intros [v' s'] word Hs'. by apply Visit_histogram_wf.
Qed.

Lemma ClearMapsToInstances_histogram_wf s :
  histogram_wf s → histogram_wf (ClearMapsToInstances s).
Proof.
  intros (Hc & Hd & Hcd). split; [|split].
  - intros k t Hk. cbn [mapstoinstances_ ClearMapsToInstances] in Hk.
    by rewrite lookup_empty in Hk.
  - exact Hd.
  - intros k t a Hk. cbn [mapstoinstances_ ClearMapsToInstances] in Hk.
    by rewrite lookup_empty in Hk.
Qed.

Lemma only_references_differ_histogram_wf s s' :
  only_references_differ s s' → histogram_wf s → histogram_wf s'.
Proof.
  intros (_ & Hm & Hd & _). unfold histogram_wf. by rewrite Hm, Hd.
Qed.

Lemma ScanHeapForObjects_histogram_wf target process s :
  histogram_wf s → histogram_wf (ScanHeapForObjects target process s).
Proof.
  intros Hs. unfold ScanHeapForObjects.
  destruct (decide (target_ s ≠ target)).
  - assert (histogram_wf (ClearReferences (ClearMapsToInstances s))) as Hs'.
    { by apply ClearMapsToInstances_histogram_wf in Hs. }
    case_decide; [by apply ScanMemoryRegions_histogram_wf|done].
  - case_decide; [by apply ScanMemoryRegions_histogram_wf|done].
Qed.

Lemma DataEntry_only_references v8 indeterminate GetChildrenCount records s h :
  only_references_differ s
    (DataEntry v8 indeterminate GetChildrenCount records s h).2.
Proof.
  unfold DataEntry.
  set (st0 := mkDataEntryState _ _ _ _).
  assert (Hloop : ∀ records st,
            only_references_differ (de_llscan st)
              (de_llscan (DataEntry_instances v8 indeterminate GetChildrenCount
                            records st).2)).
  { clear. induction records as [|[type_name record] records IH]; intros st;
      simpl; [done|].
    destruct (DataEntry_instance _ _ _ _ _ _) as [st1|] eqn:Hstep; [|done].
    etrans; [|apply IH].
    unfold DataEntry_instance in Hstep.
    repeat case_match; simplify_eq; done. }
  specialize (Hloop records st0).
  destruct (DataEntry_instances _ _ _ _ _) as [finished st].
  simpl in Hloop. by destruct finished.
Qed.

Lemma index_grows_loaded `{Countable K} P (m m' : gmap K ReferencesVector) :
  index_grows P m m' →
  AreReferencesLoaded m = true → AreReferencesLoaded m' = true.
Proof.
  unfold AreReferencesLoaded. intros Hg Hm%bool_decide_eq_true.
  apply bool_decide_eq_true.
  assert (size m ≠ 0%nat) as Hne by lia.
  apply map_size_ne_0_lookup in Hne as [k Hk].
  assert (size m' ≠ 0%nat); [|lia].
  apply map_size_ne_0_lookup. exists k. by apply (Hg k).
Qed.

Lemma GetReferences_loaded `{Countable K} (k : K) (m : gmap K ReferencesVector) :
  AreReferencesLoaded (GetReferences k m).2 = true.
Proof.
  unfold AreReferencesLoaded. apply bool_decide_eq_true.
  assert (size (GetReferences k m).2 ≠ 0%nat); [|lia].
  apply map_size_ne_0_lookup. exists k. rewrite GetReferences_lookup. eauto.
Qed.

Lemma ScannerGetReferences_loaded scanner s :
  ScannerAreReferencesLoaded scanner (ScannerGetReferences scanner s).2 = true.
Proof.
  destruct scanner; cbn [ScannerGetReferences ScannerAreReferencesLoaded];
    rewrite ?GetReferencesByValue_unfold, ?GetReferencesByProperty_unfold,
      ?GetReferencesByString_unfold;
    apply GetReferences_loaded.
Qed.

Lemma references_grow_loaded P scanner s s' :
  references_grow P s s' →
  ScannerAreReferencesLoaded scanner s = true →
  ScannerAreReferencesLoaded scanner s' = true.
Proof.
  intros (_ & Hv & Hp & Hs).
  destruct scanner; cbn [ScannerAreReferencesLoaded];
    by eapply index_grows_loaded.
Qed.

(** What a run of findrefs that returns amounts to. *)
Lemma FindReferencesCmd_DoExecute_inv v8 order fuel a s e :
  FindReferencesCmd_DoExecute v8 order fuel a s = Some e →
  let scanned := ScanHeapForObjects (target a) (process a) s in
  (ex_return e = false ∧ ex_llscan e = s ∧ res_output (ex_result e) = []
   ∧ is_Some (res_error (ex_result e))
   ∧ Forall (λ step, step = StepLoad) (ex_steps e))
  ∨ (ex_return e = true
     ∧ ex_result e
       = mkResult None (Some eReturnStatusSuccessFinishResult)
           (res_output (ex_result e))
     ∧ references_grow (scanned_address order scanned) scanned (ex_llscan e)
     ∧ ∃ scanner, DoExecute_scanner v8 a = inr scanner
         ∧ ScannerAreReferencesLoaded scanner (ex_llscan e) = true).
Proof.
  unfold FindReferencesCmd_DoExecute, fail_with.
  destruct (cmd_given a); simpl;
    [|intros; simplify_eq; left; simpl; split_and!; eauto].
  destruct (IsValid (target a)); simpl;
    [|intros; simplify_eq; left; simpl; split_and!; eauto].
  destruct (start a) as [|word words];
    [intros; simplify_eq; left; simpl; split_and!; eauto|].
  destruct (DoExecute_scanner v8 a) as [error|scanner];
    [intros; simplify_eq; left; simpl; split_and!; eauto|].
  set (s1 := ScanHeapForObjects (target a) (process a) s).
  set (p2 := if negb (ScannerAreReferencesLoaded scanner s1) then _ else _).
  assert (H2 : references_grow (scanned_address order s1) s1 p2.1).
  { unfold p2. destruct (negb _); [|reflexivity].
    eapply scanner_effect_grow. apply ScanForReferences_effect. }
  destruct p2 as [s2 steps2]. simpl in H2.
  assert (Hinst : ∀ s', only_references_differ s1 s' →
            ∀ x, scanned_address order s' x → scanned_address order s1 x).
  { intros s' (_ & Hm & _) x. unfold scanned_address. by rewrite Hm. }
  set (p3 := if recursive_scan (scan_options a) then _ else _).
  assert (H3 : references_grow (scanned_address order s1) s2 p3.1).
  { unfold p3. destruct (recursive_scan _); [|reflexivity].
    destruct (negb _); [|reflexivity].
    eapply references_grow_weaken; [apply (Hinst s2), H2|].
    eapply scanner_effect_grow. apply ScanForReferences_effect. }
  destruct p3 as [s3 steps3]. simpl in H3.
  pose proof (ScannerGetReferences_effect (scanned_address order s1) scanner s3) as H4.
  apply scanner_effect_grow in H4.
  pose proof (ScannerGetReferences_loaded scanner s3) as Hloaded.
  destruct (ScannerGetReferences scanner s3) as [references s4].
  simpl in H4, Hloaded.
  destruct (PrintReferences _ _ _ _ _ _ _ _) as [st|] eqn:Hprint; simpl;
    [|done].
  intros He. simplify_eq. right. simpl.
  apply PrintReferences_grow in Hprint;
    [|by intros o a' l t t'; apply PrintRecursiveReferences_grow].
  unfold print_references_grow in Hprint. simpl in Hprint.
  split_and!; [done|done| |].
  - etrans; [exact H2|]. etrans; [exact H3|]. etrans; [exact H4|].
    eapply references_grow_weaken; [|exact Hprint]. done.
  - exists scanner. split; [done|].
    by eapply references_grow_loaded.
Qed.

Lemma session_step_histogram_wf s op :
  histogram_wf s → histogram_wf (session_step s op).
Proof.
  intros Hs. destruct op; cbn [session_step].
  - by apply ScanHeapForObjects_histogram_wf.
  - by apply ClearMapsToInstances_histogram_wf.
  - exact Hs.
  - exact Hs.
  - by apply Visit_histogram_wf.
  - by rewrite GetReferencesByValue_unfold.
  - by rewrite GetReferencesByProperty_unfold.
  - by rewrite GetReferencesByString_unfold.
  - eapply only_references_differ_histogram_wf; [|exact Hs].
    apply (ScanForReferences_effect v8 order scanner s).
  - destruct (FindReferencesCmd_DoExecute _ _ _ _ _) as [e|] eqn:Hrun; simpl;
      [|done].
    apply FindReferencesCmd_DoExecute_inv in Hrun. cbn zeta in Hrun.
    destruct Hrun as [(_ & -> & _)|(_ & _ & Hgrow & _)]; [done|].
    eapply only_references_differ_histogram_wf; [apply Hgrow|].
    by apply ScanHeapForObjects_histogram_wf.
  - unfold FindInstancesCmd_DoExecute, fail_with.
    repeat case_match; simplify_eq; simpl; try done;
      by apply ScanHeapForObjects_histogram_wf.
  - unfold HeapSnapshotJSONSerializer_DoExecute, fail_with.
    destruct (negb _); simpl; [done|].
    match goal with |- context [DataEntry ?a ?b ?c ?d ?e ?f] =>
      pose proof (DataEntry_only_references a b c d e f) as Hde;
      destruct (DataEntry a b c d e f) as [h' s'] end.
    simpl in *. eapply only_references_differ_histogram_wf; [exact Hde|].
    by apply ScanHeapForObjects_histogram_wf.
Qed.

(** X4. Whatever commands have run on a session since it was created, the two
    histograms are consistent: every coarse record is stored under its own
    type name, every record, coarse or detailed, holds at least one instance
    and its counter is the number of its instances (modulo 2^64), and every
    instance of a coarse record is an instance of some detailed record. *)
Theorem histograms_stay_consistent (ops : list SessionOp) :
  histogram_wf (session_run ops LLScan_new).
Proof.
  unfold session_run. apply (foldl_invariant histogram_wf).
  - intros s op Hs. by apply session_step_histogram_wf.
  - split; [|split].
    + intros k t Hk. cbn in Hk. by rewrite lookup_empty in Hk.
    + intros k d Hk. cbn in Hk. by rewrite lookup_empty in Hk.
    + intros k t a Hk. cbn in Hk. by rewrite lookup_empty in Hk.
Qed.

(** ** What a search for references changes *)

(** X5. ScanForReferences changes nothing in the session but the index of the
    kind of its scanner (by value, by property or by string). In that index
    no key is lost and every vector keeps what it held, followed by what the
    scan appends; and every address appended is an instance of a coarse
    record of the histogram. *)
Theorem ScanForReferences_appends_instances_to_one_index (v8 : LLV8)
    (order : gset Z → list Z) (scanner : ObjectScanner) (s : LLScan) :
  iterates_members order →
  scanner_effect (is_instance s) scanner s (ScanForReferences v8 order scanner s).
Proof.
  intros Horder. eapply scanner_effect_weaken; [|apply ScanForReferences_effect].
  intros a. by apply scanned_address_is_instance.
Qed.

Lemma ScanForReferences_appends_instances_to_one_index_witness :
  scanner_effect (is_instance cyclic_session) (ReferenceScanner 4097)
    cyclic_session
    (ScanForReferences sample_v8 sample_order (ReferenceScanner 4097)
       cyclic_session).
Proof.
  apply (ScanForReferences_appends_instances_to_one_index sample_v8
           sample_order (ReferenceScanner 4097) cyclic_session).
  intros X x. unfold sample_order. apply elem_of_elements.
Defined.

(** X6. A findrefs that returns false has left the session exactly as it was,
    has printed nothing, has set an error and has not gone beyond loading
    the constants. A findrefs that returns true has set the success status
    and no error; against the session as ScanHeapForObjects leaves it, it has
    changed nothing but the three indices, where it has lost no key and has
    only appended instances of the histogram; and the index of its scanner
    counts as loaded afterwards, even when no reference was found. *)
Theorem findrefs_effect_on_the_session (v8 : LLV8) (order : gset Z → list Z)
    (fuel : nat) (a : FindReferencesArgs) (s : LLScan) (e : Execution) :
  iterates_members order →
  FindReferencesCmd_DoExecute v8 order fuel a s = Some e →
  let scanned := ScanHeapForObjects (target a) (process a) s in
  (ex_return e = false →
   ex_llscan e = s ∧ res_output (ex_result e) = []
   ∧ is_Some (res_error (ex_result e))
   ∧ Forall (λ step, step = StepLoad) (ex_steps e))
  ∧ (ex_return e = true →
     res_status (ex_result e) = Some eReturnStatusSuccessFinishResult
     ∧ res_error (ex_result e) = None
     ∧ references_grow (is_instance scanned) scanned (ex_llscan e)
     ∧ ∃ scanner, DoExecute_scanner v8 a = inr scanner
         ∧ ScannerAreReferencesLoaded scanner (ex_llscan e) = true).
Proof.
  intros Horder Hrun. apply FindReferencesCmd_DoExecute_inv in Hrun.
  cbn zeta in *.
  destruct Hrun as [(Hret & Hs & Hout & Herr & Hsteps)
                   |(Hret & Hres & Hgrow & Hscanner)].
  - split; [done|]. intros Htrue. congruence.
  - split; [intros Hfalse; congruence|]. intros _.
    split_and!; [by rewrite Hres|by rewrite Hres| |done].
    eapply references_grow_weaken; [|exact Hgrow].
    intros x. by apply scanned_address_is_instance.
Qed.

(** A search by value for the word 6 in a process with one object. *)
Lemma findrefs_effect_on_the_session_witness :
  ∃ e, FindReferencesCmd_DoExecute sample_v8 sample_order 0 findrefs_of_smi
         LLScan_new = Some e
       ∧ res_status (ex_result e) = Some eReturnStatusSuccessFinishResult
       ∧ AreReferencesByValueLoaded (ex_llscan e) = true.
Proof.
  assert (Hr : ∃ e, FindReferencesCmd_DoExecute sample_v8 sample_order 0
                      findrefs_of_smi LLScan_new = Some e
                    ∧ ex_return e = true
                    ∧ DoExecute_scanner sample_v8 findrefs_of_smi
                      = inr (ReferenceScanner 6)).
  { vm_compute. eexists. split; [reflexivity|]. split; reflexivity. }
  destruct Hr as (e & Hrun & Hret & Hsc).
  exists e. split; [exact Hrun|].
  destruct (findrefs_effect_on_the_session sample_v8 sample_order 0
              findrefs_of_smi LLScan_new e) as [_ Htrue].
  - intros X x. unfold sample_order. apply elem_of_elements.
  - exact Hrun.
  - destruct (Htrue Hret) as (Hstatus & _ & _ & scanner & Hscanner & Hloaded).
    split; [exact Hstatus|].
    rewrite Hsc in Hscanner. injection Hscanner as <-. exact Hloaded.
Defined.

(** ** Printing without recursion *)

Lemma append_output_nil st : append_output [] st = st.
Proof. destruct st. unfold append_output. simpl. by rewrite app_nil_r. Qed.

Lemma append_output_app out1 out2 st :
  append_output out2 (append_output out1 st) = append_output (out1 ++ out2) st.
Proof. unfold append_output. simpl. by rewrite app_assoc. Qed.

Lemma for_each_append {A : Type} (body : A → PrintState → option PrintState)
    (f : A → list Output) (l : list A) :
  (∀ x st, body x st = Some (append_output (f x) st)) →
  ∀ st, for_each body l st = Some (append_output (x ← l; f x) st).
Proof.
  intros Hbody. induction l as [|x l IH]; intros st.
  - simpl. by rewrite append_output_nil.
  - cbn [for_each]. rewrite Hbody. cbn [mbind option_bind].
    rewrite IH, bind_cons. by rewrite append_output_app.
Qed.

Lemma bind_filter_fmap {A B : Type} (p : A → Prop) `{∀ x, Decision (p x)}
    (o : A → B) (l : list A) :
  (x ← l; if decide (p x) then [o x] else []) = o <$> filter p l.
Proof.
  induction l as [|x l IH]; [done|].
  rewrite bind_cons, IH, filter_cons.
  by destruct (decide (p x)).
Qed.

Lemma PrintReferences_plain v8 order rec references scanner options level st :
  recursive_scan options = false →
  PrintReferences v8 order rec references scanner options level st
  = Some (append_output
            (printed_references v8 order scanner level references (ps_llscan st))
            st).
Proof.
  intros Hplain. unfold PrintReferences, printed_references.
  rewrite (for_each_append _
             (λ addr, if decide (is_printed v8 addr = true)
                      then [OutPrintRefs scanner addr level] else [])).
  2:{ intros addr st'. unfold PrintReferences_addr, is_printed. rewrite Hplain.
      destruct (is_object_or_array v8 _); cbn [orb].
      - by rewrite decide_True.
      - destruct (bool_decide _); [by rewrite decide_True|].
        rewrite decide_False by done. by rewrite append_output_nil. }
  rewrite bind_filter_fmap. cbn [mbind option_bind].
  rewrite <- append_output_app.
  set (st1 := append_output _ st).
  change (ps_llscan st) with (ps_llscan st1). clearbody st1.
  unfold PrintContextRefs, context_lines. destruct scanner as [sv|sv|sv];
    [|by rewrite append_output_nil..].
  apply for_each_append. intros ctx st'.
  destruct (Locals v8 ctx) as [locals|]; [|by rewrite append_output_nil].
  rewrite (for_each_append _
             (λ local, if decide (local = sv)
                       then [OutContextRef ctx sv] else [])).
  - by rewrite bind_filter_fmap.
  - intros local st''. unfold PrintContextRefs_local. rewrite Hplain.
    case_decide; [done|by rewrite append_output_nil].
Qed.

(** X7. Without -r nothing recurses: PrintReferences returns whatever the
    recursive function would do, and it prints one entry for each referrer
    that is an object, an array or a string, in the order of the vector, and
    then, for a search by value, one line for each local of each context
    that is the value searched for; the session and the vector of visited
    addresses are left alone. The command then returns the same result with
    any bound on the depth of recursion, the bound 0 included. *)
Theorem findrefs_without_recursion (v8 : LLV8) (order : gset Z → list Z)
    (a : FindReferencesArgs) (s : LLScan) :
  recursive_scan (scan_options a) = false →
  (∀ rec references scanner level st,
     PrintReferences v8 order rec references scanner (scan_options a) level st
     = Some (append_output
               (printed_references v8 order scanner level references
                  (ps_llscan st)) st))
  ∧ ∃ e, ∀ fuel, FindReferencesCmd_DoExecute v8 order fuel a s = Some e.
Proof.
  intros Hplain. split.
  - intros. by apply PrintReferences_plain.
  - unfold FindReferencesCmd_DoExecute.
    destruct (negb (cmd_given a)); [by eexists|].
    destruct (negb (IsValid (target a))); [by eexists|].
    cbv zeta.
    destruct (start a) as [|word words]; [by eexists|].
    destruct (DoExecute_scanner v8 a) as [error|scanner]; [by eexists|].
    rewrite Hplain.
    destruct (if negb _ then _ else _) as [s2 steps2].
    destruct (ScannerGetReferences scanner s2) as [references s3].
    eexists. intros fuel. by rewrite PrintReferences_plain.
Qed.

(** The cyclic index searched without -r. *)
Lemma findrefs_without_recursion_witness :
  PrintReferences sample_v8 sample_order (λ _ _ _ _, None) [4129]
    (ReferenceScanner 4097) ScanOptions_new 0
    (mkPrintState cyclic_session [] [])
  = Some (mkPrintState cyclic_session []
            [OutPrintRefs (ReferenceScanner 4097) 4129 0]).
Proof.
  destruct (findrefs_without_recursion sample_v8 sample_order findrefs_of_smi
              cyclic_session) as [Hprint _].
  - reflexivity.
  - rewrite Hprint. vm_compute. reflexivity.
Defined.

(** ** An index is built once *)

Lemma ScanHeapForObjects_target target process s :
  target_ (ScanHeapForObjects target process s) = target.
Proof.
  unfold ScanHeapForObjects.
  destruct (decide (target_ s ≠ target)) as [Hne|Heq].
  - case_decide; [|done].
    match goal with |- context [ScanMemoryRegions ?p (?v, ?s0)] =>
      destruct (ScanMemoryRegions_frame p v s0) as (_ & _ & Ht & _) end.
    by rewrite Ht.
  - apply dec_stable in Heq.
    case_decide; [|done].
    match goal with |- context [ScanMemoryRegions ?p (?v, ?s0)] =>
      destruct (ScanMemoryRegions_frame p v s0) as (_ & _ & Ht & _) end.
    by rewrite Ht.
Qed.

Lemma ScanHeapForObjects_same_target target process s :
  target_ s = target → visit_frame s (ScanHeapForObjects target process s).
Proof.
  intros Ht. unfold ScanHeapForObjects.
  destruct (decide (target_ s ≠ target)) as [Hne|_]; [done|].
  case_decide; [apply ScanMemoryRegions_frame|apply visit_frame_refl].
Qed.

Lemma same_kind_loaded sc sc' s :
  same_kind sc sc' = true →
  ScannerAreReferencesLoaded sc' s = ScannerAreReferencesLoaded sc s.
Proof. by destruct sc, sc'. Qed.

Lemma visit_frame_loaded sc s s' :
  visit_frame s s' →
  ScannerAreReferencesLoaded sc s' = ScannerAreReferencesLoaded sc s.
Proof.
  intros (_ & _ & _ & Hv & Hp & Hs).
  destruct sc; cbn [ScannerAreReferencesLoaded];
    unfold AreReferencesByValueLoaded, AreReferencesByPropertyLoaded,
      AreReferencesByStringLoaded; congruence.
Qed.

(** A run scans for references only into an index that was not loaded. *)
Lemma FindReferencesCmd_DoExecute_scans v8 order fuel a s e sc :
  FindReferencesCmd_DoExecute v8 order fuel a s = Some e →
  StepScanForReferences sc ∈ ex_steps e →
  ScannerAreReferencesLoaded sc
    (ScanHeapForObjects (target a) (process a) s) = false.
Proof.
  unfold FindReferencesCmd_DoExecute, fail_with.
  destruct (cmd_given a); simpl; [|intros; simplify_eq; set_solver].
  destruct (IsValid (target a)); simpl; [|intros; simplify_eq; set_solver].
  destruct (start a) as [|word words]; [intros; simplify_eq; set_solver|].
  destruct (DoExecute_scanner v8 a) as [error|scanner];
    [intros; simplify_eq; set_solver|].
  set (s1 := ScanHeapForObjects (target a) (process a) s).
  set (steps1 := [StepLoad; StepNewScanner scanner; StepScanHeapForObjects]).
  set (p2 := if negb (ScannerAreReferencesLoaded scanner s1) then _ else _).
  assert (H2 : references_grow (scanned_address order s1) s1 p2.1
               ∧ (StepScanForReferences sc ∈ p2.2 →
                  ScannerAreReferencesLoaded sc s1 = false)).
  { unfold p2.
    destruct (ScannerAreReferencesLoaded scanner s1) eqn:Hl; cbn [negb fst snd].
    - split; [reflexivity|]. unfold steps1. set_solver.
    - split; [eapply scanner_effect_grow; apply ScanForReferences_effect|].
      unfold steps1. intros Hin.
      assert (sc = scanner) as -> by set_solver. done. }
  destruct p2 as [s2 steps2]. cbn [fst snd] in H2. destruct H2 as [H2 Hsteps2].
  set (p3 := if recursive_scan (scan_options a) then _ else _).
  assert (H3 : StepScanForReferences sc ∈ p3.2 →
               ScannerAreReferencesLoaded sc s1 = false).
  { unfold p3. destruct (recursive_scan _); [|done].
    destruct (AreReferencesByValueLoaded s2) eqn:Hl; cbn [negb snd]; intros Hin.
    { apply elem_of_app in Hin as [Hin|Hin%list_elem_of_singleton];
        [by apply Hsteps2|done]. }
    apply elem_of_app in Hin as [Hin|Hin%list_elem_of_singleton].
    { apply elem_of_app in Hin as [Hin|Hin%list_elem_of_singleton];
        [by apply Hsteps2|done]. }
    injection Hin as ->.
    apply not_true_is_false. intros Hl1.
    apply (references_grow_loaded _ _ _ _ H2) in Hl1.
    cbn [ScannerAreReferencesLoaded] in Hl1. congruence. }
  destruct p3 as [s3 steps3]. cbn [snd] in H3.
  destruct (ScannerGetReferences scanner s3) as [references s4].
  destruct (PrintReferences _ _ _ _ _ _ _ _) as [st|]; simpl; [|done].
  intros He Hin. simplify_eq. simpl in Hin. apply H3. set_solver.
Qed.

(** X8. Once a findrefs has returned true, a later findrefs on the same target
    does not scan again for references of that kind, whatever it searches
    for and whatever the memory of the process holds by then: the index that
    the first run left is the one it answers from. *)
Theorem findrefs_builds_an_index_once (v8 v8' : LLV8)
    (order order' : gset Z → list Z) (fuel fuel' : nat)
    (a a' : FindReferencesArgs) (s : LLScan) (e e' : Execution)
    (scanner sc : ObjectScanner) :
  FindReferencesCmd_DoExecute v8 order fuel a s = Some e →
  ex_return e = true →
  DoExecute_scanner v8 a = inr scanner →
  target a' = target a →
  FindReferencesCmd_DoExecute v8' order' fuel' a' (ex_llscan e) = Some e' →
  same_kind scanner sc = true →
  StepScanForReferences sc ∉ ex_steps e'.
Proof.
  intros Hrun Hret Hscanner Htarget Hrun' Hkind Hin.
  apply (FindReferencesCmd_DoExecute_scans _ _ _ _ _ _ _ Hrun') in Hin.
  apply FindReferencesCmd_DoExecute_inv in Hrun. cbn zeta in Hrun.
  destruct Hrun as [(Hf & _)|(_ & _ & Hgrow & scanner0 & Hsc0 & Hloaded)];
    [congruence|].
  rewrite Hscanner in Hsc0. injection Hsc0 as <-.
  assert (target_ (ex_llscan e) = target a') as Ht.
  { destruct Hgrow as [(Ht & _) _]. rewrite Ht, Htarget.
    apply ScanHeapForObjects_target. }
  rewrite (visit_frame_loaded sc _ _
             (ScanHeapForObjects_same_target _ (process a') _ Ht)) in Hin.
  rewrite (same_kind_loaded scanner sc) in Hin by done. congruence.
Qed.

(** Two searches by value in a row on the same process. *)
Lemma findrefs_builds_an_index_once_witness :
  ∃ e e',
    FindReferencesCmd_DoExecute sample_v8 sample_order 0 findrefs_of_smi
      LLScan_new = Some e
    ∧ StepScanForReferences (ReferenceScanner 6) ∈ ex_steps e
    ∧ FindReferencesCmd_DoExecute sample_v8 sample_order 0 findrefs_of_smi
        (ex_llscan e) = Some e'
    ∧ StepScanForReferences (ReferenceScanner 6) ∉ ex_steps e'.
Proof.
  pose (none := mkExecution false SBCommandReturnObject_new LLScan_new []).
  pose (e := default none
               (FindReferencesCmd_DoExecute sample_v8 sample_order 0
                  findrefs_of_smi LLScan_new)).
  pose (e' := default none
                (FindReferencesCmd_DoExecute sample_v8 sample_order 0
                   findrefs_of_smi (ex_llscan e))).
  assert (Hrun : FindReferencesCmd_DoExecute sample_v8 sample_order 0
                   findrefs_of_smi LLScan_new = Some e)
    by (vm_compute; reflexivity).
  assert (Hrun' : FindReferencesCmd_DoExecute sample_v8 sample_order 0
                    findrefs_of_smi (ex_llscan e) = Some e')
    by (vm_compute; reflexivity).
  exists e, e'. split; [exact Hrun|]. split; [|split; [exact Hrun'|]].
  - vm_compute. do 3 right. left.
  - apply (findrefs_builds_an_index_once sample_v8 sample_v8 sample_order
             sample_order 0 0 findrefs_of_smi findrefs_of_smi LLScan_new e e'
             (ReferenceScanner 6) (ReferenceScanner 6) Hrun);
      [vm_compute; reflexivity|vm_compute; reflexivity|reflexivity
      |exact Hrun'|reflexivity].
Defined.

(** ** The cache of maps *)

Lemma cached_entry_app decode before w map :
  cached_entry decode (before ++ [w]) map
  = match cached_entry decode before map with
    | Some e => Some e
    | None => if decide (reaches_map (decode w) = Some map)
              then load_result (decode w) else None
    end.
Proof.
  induction before as [|w0 before IH]; simpl.
  - by destruct (if decide _ then _ else _).
  - destruct (if decide (reaches_map (decode w0) = Some map) then _ else _);
      [done|apply IH].
Qed.

Lemma Visit_unfold d w v s :
  Visit d w (v, s)
  = match reaches_map d with
    | None => (v, s)
    | Some map =>
        match map_cache_ v !! map with
        | Some e => Visit_insert e d w (v, s)
        | None =>
            match load_result d with
            | None => (v, s)
            | Some e =>
                Visit_insert e d w
                  (mkVisitor (found_count_ v) (<[map := e]> (map_cache_ v)), s)
            end
        end
    end.
Proof.
  unfold Visit, reaches_map, Visit_insert.
  destruct (smi_check d); [done|].
  destruct (heap_object_check d); [|done]. cbn [negb].
  destruct (map_raw d) as [map|]; [|done].
  destruct (map_cache_ v !! map) as [e|]; [done|].
  by destruct (load_result d).
Qed.

Lemma Visit_insert_session e d w v v' s :
  (Visit_insert e d w (v, s)).2 = (Visit_insert e d w (v', s)).2.
Proof. unfold Visit_insert. by repeat case_match. Qed.

Lemma Visit_insert_cache e d w v s :
  map_cache_ (Visit_insert e d w (v, s)).1 = map_cache_ v.
Proof. unfold Visit_insert. by repeat case_match. Qed.

Lemma Visit_insert_decoded e d d' w vs :
  instance_size d' = instance_size d →
  instance_size_fails d' = instance_size_fails d →
  Visit_insert e d' w vs = Visit_insert e d w vs.
Proof. intros H1 H2. unfold Visit_insert. by rewrite H1, H2. Qed.

Lemma Visit_with_cache decode before w v s :
  (∀ map, map_cache_ v !! map = cached_entry decode before map) →
  let r := Visit (decode w) w (v, s) in
  r.2 = (Visit (with_cache decode before w) w (FindJSObjectsVisitor_new, s)).2
  ∧ ∀ map, map_cache_ r.1 !! map = cached_entry decode (before ++ [w]) map.
Proof.
  intros Hcache. cbn zeta. rewrite !Visit_unfold.
  assert (Hkeep : ∀ map,
            (reaches_map (decode w) = Some map →
             is_Some (cached_entry decode before map)
             ∨ load_result (decode w) = None) →
            cached_entry decode (before ++ [w]) map
            = cached_entry decode before map).
  { intros map Hmap. rewrite cached_entry_app.
    destruct (cached_entry decode before map) as [e|] eqn:He; [done|].
    case_decide as Hr; [|done].
    destruct (Hmap Hr) as [[? ?]|Hl]; done. }
  assert (Hreach : reaches_map (with_cache decode before w)
                   = reaches_map (decode w)).
  { unfold with_cache. destruct (reaches_map (decode w)) as [m|] eqn:Hm; [|done].
    by destruct (cached_entry decode before m). }
  rewrite Hreach.
  destruct (reaches_map (decode w)) as [m|] eqn:Hm.
  2:{ cbn [fst snd]. split; [done|]. intros map. rewrite Hcache.
      symmetry. by apply Hkeep. }
  change (map_cache_ FindJSObjectsVisitor_new !! m) with
    ((∅ : gmap Z MapCacheEntry) !! m).
  rewrite lookup_empty, Hcache. unfold with_cache. rewrite Hm.
  destruct (cached_entry decode before m) as [e|] eqn:He.
  - cbn [load_result]. split.
    + rewrite (Visit_insert_decoded e (decode w) (mkDecoded _ _ _ _ _ _)) by done.
      apply Visit_insert_session.
    + intros map. rewrite Visit_insert_cache.
      rewrite Hcache. symmetry. apply Hkeep.
      intros Hr. injection Hr as <-. left. by rewrite He.
  - destruct (load_result (decode w)) as [e|] eqn:Hload.
    + split; [apply Visit_insert_session|].
      intros map. rewrite Visit_insert_cache.
      cbn [map_cache_]. rewrite cached_entry_app.
      destruct (decide (m = map)) as [->|Hne].
      * rewrite lookup_insert_eq, He. by rewrite decide_True.
      * rewrite lookup_insert_ne by done. rewrite Hcache.
        destruct (cached_entry decode before map); [done|].
        by rewrite decide_False by congruence.
    + cbn [fst snd]. split; [done|].
      intros map. rewrite Hcache. symmetry. apply Hkeep. by right.
Qed.

Lemma ScanMemoryRegions_with_cache decode rest : ∀ before v s,
  (∀ map, map_cache_ v !! map = cached_entry decode before map) →
  (foldl (λ vs word, Visit (decode word) word vs) (v, s) rest).2
  = scan_without_cache decode before rest s.
Proof.
  induction rest as [|w rest IH]; intros before v s Hcache; [done|].
  cbn [foldl scan_without_cache].
  destruct (Visit_with_cache decode before w v s Hcache) as [Hs Hc].
  destruct (Visit (decode w) w (v, s)) as [v' s'] eqn:Hv. cbn [fst snd] in *.
  rewrite <- Hs. by apply IH.
Qed.

Lemma with_cache_consistent process before w :
  map_consistent process →
  w ∈ memory_words process →
  (∀ x, x ∈ before → x ∈ memory_words process) →
  with_cache (decode process) before w = decode process w.
Proof.
  intros Hcons Hw Hbefore. unfold with_cache.
  destruct (reaches_map (decode process w)) as [m|] eqn:Hm; [|done].
  destruct (cached_entry (decode process) before m) as [e|] eqn:He; [|done].
  assert (load_result (decode process w) = Some e) as Hl.
  { induction before as [|x before IH]; [done|].
    cbn [cached_entry] in He.
    case_decide as Hx.
    - destruct (load_result (decode process x)) as [e'|] eqn:Hlx.
      + injection He as ->.
        apply (Hcons x w m e); [apply Hbefore; by left|done..].
      + apply IH; [|done]. intros y Hy. apply Hbefore. by right.
    - apply IH; [|done]. intros y Hy. apply Hbefore. by right. }
  destruct (decode process w). simpl in *. by rewrite Hl.
Qed.

Lemma scan_without_cache_consistent process rest : ∀ before s,
  map_consistent process →
  (∀ x, x ∈ before → x ∈ memory_words process) →
  (∀ x, x ∈ rest → x ∈ memory_words process) →
  scan_without_cache (decode process) before rest s
  = foldl (λ s word,
             (Visit (decode process word) word (FindJSObjectsVisitor_new, s)).2)
      s rest.
Proof.
  induction rest as [|w rest IH]; intros before s Hcons Hbefore Hrest; [done|].
  cbn [scan_without_cache foldl].
  rewrite with_cache_consistent; [|done|apply Hrest; by left|done].
  apply IH; [done| |].
  - intros x [Hx|Hx%list_elem_of_singleton]%elem_of_app; [by apply Hbefore|].
    subst. apply Hrest. by left.
  - intros x Hx. apply Hrest. by right.
Qed.

(** X9. The cache of maps decides how a word is classified. A scan does to the
    session what a scan without cache would do if every object showed the
    entry loaded for the first object met with its map (the first whose Load
    succeeded): the type name and the number of elements, which Load reads
    from the object and not from the map, are those of that first object.
    When Load gives the same entry for all objects of a map, the cache
    cannot be observed: the scan is the scan in which every word is visited
    with an empty cache. *)
Theorem ScanMemoryRegions_first_object_of_a_map_decides (process : SBProcess)
    (s : LLScan) :
  (ScanMemoryRegions process (FindJSObjectsVisitor_new, s)).2
  = scan_without_cache (decode process) [] (memory_words process) s
  ∧ (map_consistent process →
     (ScanMemoryRegions process (FindJSObjectsVisitor_new, s)).2
     = foldl (λ s word,
                (Visit (decode process word) word
                   (FindJSObjectsVisitor_new, s)).2)
         s (memory_words process)).
Proof.
  assert (Hscan : (ScanMemoryRegions process (FindJSObjectsVisitor_new, s)).2
                  = scan_without_cache (decode process) []
                      (memory_words process) s).
  { unfold ScanMemoryRegions. apply ScanMemoryRegions_with_cache.
    intros map. apply lookup_empty. }
  split; [exact Hscan|].
  intros Hcons. rewrite Hscan.
  apply scan_without_cache_consistent; [done| |done].
  by intros x Hx%elem_of_nil.
Qed.

Lemma ScanMemoryRegions_first_object_of_a_map_decides_witness :
  (ScanMemoryRegions two_objects_process (FindJSObjectsVisitor_new, LLScan_new)).2
  = foldl (λ s word,
             (Visit (decode two_objects_process word) word
                (FindJSObjectsVisitor_new, s)).2)
      LLScan_new (memory_words two_objects_process).
Proof.
  apply (ScanMemoryRegions_first_object_of_a_map_decides two_objects_process
           LLScan_new).
  intros w1 w2 m e _ _ _ _ Hload. exact Hload.
Defined.

(** Two arrays of one map, of 1 and of 2 elements: both are counted in the
    detailed record of the arrays of 1 element. *)
Example second_array_counted_with_the_first :
  let s := ScanHeapForObjects (Some 1) two_arrays_process LLScan_new in
  (instances_ ∘ dtr_record <$> detailedmapstoinstances_ s !! "Array[1]")
  = Some {[4097; 4129]}
  ∧ detailedmapstoinstances_ s !! "Array[2]" = None.
Proof. vm_compute. split; reflexivity. Qed.

(** ** The page of findjsinstances *)











(** ** The table of strings *)

Lemma find_position_le name strings :
  (find_position name strings ≤ length strings)%nat.
Proof. induction strings as [|s strings IH]; simpl; [done|]. case_decide; lia. Qed.

Lemma find_position_lookup name strings :
  (find_position name strings < length strings)%nat →
  strings !! find_position name strings = Some name.
Proof.
  induction strings as [|s strings IH]; simpl; [lia|].
  case_decide; [by subst|]. intros Hlt. apply IH. lia.
Qed.

Lemma find_position_absent name strings :
  name ∉ strings ↔ find_position name strings = length strings.
Proof.
  induction strings as [|s strings IH]; simpl.
  - split; [done|]. intros _. apply not_elem_of_nil.
  - rewrite not_elem_of_cons. case_decide as Hs.
    + subst. split; [by intros []|done].
    + rewrite IH. split; [intros [_ ->]; done|]. intros Heq. split; [done|lia].
Qed.

Lemma find_position_app name strings more :
  name ∈ strings →
  find_position name (strings ++ more) = find_position name strings.
Proof.
  induction strings as [|s strings IH]; simpl; [by intros ?%elem_of_nil|].
  intros Hin. case_decide as Hs; [done|]. f_equal. apply IH.
  apply elem_of_cons in Hin as [->|Hin]; done.
Qed.

Lemma find_position_first name strings i :
  strings !! i = Some name → (find_position name strings ≤ i)%nat.
Proof.
  revert i. induction strings as [|s strings IH]; intros i; simpl; [done|].
  case_decide; [lia|]. destruct i as [|i]; simpl; [congruence|].
  intros Hi. apply IH in Hi. lia.
Qed.

Lemma GetStringId_present name strings :
  name ∈ strings →
  GetStringId name strings
  = (wrap64 (Z.of_nat (find_position name strings) + 1), strings).
Proof.
  intros Hin. unfold GetStringId.
  rewrite decide_False; [done|].
  pose proof (find_position_le name strings) as Hle.
  assert (find_position name strings ≠ length strings); [|lia].
  intros Heq. by apply find_position_absent in Heq.
Qed.

Lemma GetStringId_absent name strings :
  name ∉ strings →
  GetStringId name strings
  = (wrap64 (Z.of_nat (length strings) + 1), strings ++ [name]).
Proof.
  intros Hn. unfold GetStringId.
  apply find_position_absent in Hn. rewrite decide_True by lia. done.
Qed.

Lemma GetStringId_lookup name strings :
  Z.of_nat (length strings) < 2 ^ 64 - 1 →
  serialized_strings (GetStringId name strings).2
    !! Z.to_nat (GetStringId name strings).1 = Some name.
Proof.
  intros Hlen. unfold serialized_strings.
  destruct (decide (name ∈ strings)) as [Hin|Hn].
  - rewrite GetStringId_present by done. cbn [fst snd].
    pose proof (find_position_le name strings) as Hle.
    rewrite wrap64_small by lia.
    replace (Z.to_nat (Z.of_nat (find_position name strings) + 1))
      with (S (find_position name strings)) by lia.
    cbn [lookup list_lookup]. apply find_position_lookup.
    assert (find_position name strings ≠ length strings); [|lia].
    intros Heq. by apply find_position_absent in Heq.
  - rewrite GetStringId_absent by done. cbn [fst snd].
    rewrite wrap64_small by lia.
    replace (Z.to_nat (Z.of_nat (length strings) + 1))
      with (S (length strings)) by lia.
    cbn [lookup list_lookup].
    change (list_lookup (length strings) (strings ++ [name]))
      with ((strings ++ [name]) !! length strings).
    by apply list_lookup_middle.
Qed.

Lemma GetStringId_in name strings : name ∈ (GetStringId name strings).2.
Proof.
  destruct (decide (name ∈ strings)) as [Hin|Hn].
  - by rewrite GetStringId_present.
  - rewrite GetStringId_absent by done. cbn [snd]. set_solver.
Qed.

(** X11. GetStringId is the position of the name in the array of strings that
    the snapshot writes, where position 0 holds the dummy: looking the
    returned id up in that array gives the name back. The table only grows
    at its end and never holds a name twice; asking again for the same name
    gives the same id and leaves the table alone; and the names already in
    the table keep their ids. Two names with the same id are the same name. *)
Theorem GetStringId_is_the_position_written (name : string)
    (strings : list string) :
  Z.of_nat (length strings) < 2 ^ 64 - 1 →
  let id := (GetStringId name strings).1 in
  let strings' := (GetStringId name strings).2 in
  serialized_strings strings' !! Z.to_nat id = Some name
  ∧ 1 ≤ id ≤ Z.of_nat (length strings')
  ∧ strings `prefix_of` strings'
  ∧ (NoDup strings → NoDup strings')
  ∧ GetStringId name strings' = (id, strings')
  ∧ (∀ other, other ∈ strings →
       (GetStringId other strings').1 = (GetStringId other strings).1)
  ∧ (∀ other, (GetStringId other strings').1 = id → other = name).
Proof.
  intros Hlen id strings'.
  assert (Hin : name ∈ strings') by apply GetStringId_in.
  assert (Hlen' : Z.of_nat (length strings') ≤ Z.of_nat (length strings) + 1).
  { unfold strings', GetStringId. case_decide; cbn [snd];
      rewrite ?length_app; simpl; lia. }
  assert (Hid : id = Z.of_nat (find_position name strings') + 1
                ∧ (find_position name strings' < length strings')%nat).
  { assert (find_position name strings' ≠ length strings') as Hne
      by (intros Heq; by apply find_position_absent in Heq).
    pose proof (find_position_le name strings').
    split; [|lia]. unfold id, strings'.
    destruct (decide (name ∈ strings)) as [Hin0|Hn0].
    - rewrite GetStringId_present by done. cbn [fst snd].
      pose proof (find_position_le name strings).
      apply wrap64_small. lia.
    - rewrite GetStringId_absent by done. cbn [fst snd].
      rewrite wrap64_small by lia. f_equal.
      assert (find_position name (strings ++ [name]) = length strings);
        [|lia].
      clear -Hn0. induction strings as [|s strings IH]; simpl.
      + by rewrite decide_True.
      + apply not_elem_of_cons in Hn0 as [Hs Hn0].
        rewrite decide_False by done. f_equal. by apply IH. }
  destruct Hid as [Hid Hpos].
  split; [by apply GetStringId_lookup|].
  split; [lia|].
  split; [apply GetStringId_prefix|].
  split.
  { intros Hnd. unfold strings'.
    destruct (decide (name ∈ strings)) as [Hin0|Hn0].
    - by rewrite GetStringId_present.
    - rewrite GetStringId_absent by done. cbn [snd].
      apply NoDup_app. split; [done|]. split; [|apply NoDup_singleton].
      intros x Hx ->%list_elem_of_singleton. done. }
  split.
  { rewrite GetStringId_present by done. f_equal.
    rewrite Hid. apply wrap64_small. lia. }
  split.
  { intros other Hother. unfold strings'.
    destruct (decide (name ∈ strings)) as [Hin0|Hn0].
    - by rewrite (GetStringId_present name).
    - rewrite (GetStringId_absent name) by done. cbn [snd].
      rewrite !(GetStringId_present other) by set_solver. cbn [fst].
      by rewrite find_position_app. }
  intros other Hother.
  destruct (decide (other ∈ strings')) as [Hino|Hno].
  - rewrite GetStringId_present in Hother by done. cbn [fst] in Hother.
    pose proof (find_position_le other strings').
    assert (find_position other strings' ≠ length strings') as Hne
      by (intros Hx; by apply find_position_absent in Hx).
    rewrite wrap64_small in Hother by lia.
    assert (find_position other strings' = find_position name strings')
      as Heq by lia.
    assert (strings' !! find_position other strings' = Some other) as Ho
      by (apply find_position_lookup; lia).
    rewrite Heq, find_position_lookup in Ho by done. congruence.
  - rewrite GetStringId_absent in Hother by done. cbn [fst] in Hother.
    destruct (decide (Z.of_nat (length strings') + 1 < 2 ^ 64)) as [Hs|Hs].
    + rewrite wrap64_small in Hother by lia. lia.
    + replace (Z.of_nat (length strings') + 1) with (2 ^ 64) in Hother by lia.
      change (wrap64 (2 ^ 64)) with 0 in Hother. lia.
Qed.

Lemma GetStringId_is_the_position_written_witness :
  (GetStringId "Object" [""; "(GC roots)"]).1 = 3
  ∧ serialized_strings (GetStringId "Object" [""; "(GC roots)"]).2
      !! 3%nat = Some "Object"
  ∧ (GetStringId "(GC roots)" (GetStringId "Object" [""; "(GC roots)"]).2).1 = 2.
Proof.
  destruct (GetStringId_is_the_position_written "Object" [""; "(GC roots)"])
    as (Hlookup & _ & _ & _ & _ & Hkeep & _).
  - simpl. lia.
  - split; [reflexivity|]. split; [exact Hlookup|].
    rewrite Hkeep; [reflexivity|]. set_solver.
Defined.

(** ** The nodes and edges of a snapshot *)

Section SnapshotNodes.
Variable v8 : LLV8.
Variable indeterminate : Z.
Variable GetChildrenCount : Z → ChildrenState → Z * ChildrenState.
Hypothesis Happend : appends_strings GetChildrenCount.

Lemma pushed_node_mono seen seen' strings strings' n :
  (∀ x, x ∈ seen → x ∈ seen') → strings `prefix_of` strings' →
  pushed_node v8 seen strings n → pushed_node v8 seen' strings' n.
Proof.
  intros Hseen Hpre (H1 & H2 & H3 & H4 & type_name & Hin & Hname).
  split_and!; [done..|]. exists type_name. split; [by apply Hseen|].
  unfold serialized_strings in *.
  eapply prefix_lookup_Some; [exact Hname|]. by apply prefix_cons.
Qed.

Lemma DataEntry_instance_nodes pre seen type_name record st st' :
  nodes_invariant v8 pre seen st →
  DataEntry_instance v8 indeterminate GetChildrenCount type_name record st
  = Some st' →
  nodes_invariant v8 pre (seen ++ [(type_name, record)]) st'.
Proof.
  intros (instances & Hnodes & Hnd & Hvis & Hseen & Hpushed).
  unfold DataEntry_instance.
  destruct (decide (is_Some (de_visitedNode st !! record))) as [|Hfresh];
    [done|].
  pose proof (GetStringId_prefix type_name (strings_ (de_serializer st))) as Hid.
  pose proof (GetStringId_lookup type_name (strings_ (de_serializer st)))
    as Hlookup.
  destruct (GetStringId type_name _) as [name strings1].
  cbn [fst snd] in Hid, Hlookup.
  match goal with |- context [GetChildrenCount ?a ?cs] =>
    pose proof (Happend a cs) as Hcs;
    destruct (GetChildrenCount a cs) as [children cs'] end.
  cbn [snd cs_strings] in Hcs.
  assert (Hold : ∀ strings, cs_strings cs' `prefix_of` strings →
            Z.of_nat (length strings) < 2 ^ 64 - 1 →
            Forall (pushed_node v8 (seen ++ [(type_name, record)]) strings)
              instances).
  { intros strings Hpre Hlen. eapply Forall_impl; [apply (Hpushed strings)|].
    - etrans; [exact Hid|]. by etrans.
    - done.
    - intros n. apply pushed_node_mono; [|done]. set_solver. }
  assert (Hseen' : ∀ a, is_Some (de_visitedNode st !! a) →
            a ∈ (seen ++ [(type_name, record)]).*2).
  { intros a Ha. rewrite fmap_app. apply elem_of_app. left. by apply Hseen. }
  destruct (decide (children = UINT64_MAX)) as [Hmax|Hmax].
  { intros [= <-]. exists instances. cbn. by split_and!. }
  destruct (decide (GetInstanceType v8 record = HeapGraphNode.kInvalid))
    as [Hinv|Hinv].
  { intros [= <-]. exists instances. cbn. by split_and!. }
  intros [= <-].
  set (node := HeapGraphNode.mk record name (de_next_id st)
                 (GetNodeSelfSize v8 record) children indeterminate
                 (GetInstanceType v8 record)).
  exists (instances ++ [node]). cbn. split_and!.
  - by rewrite Hnodes, app_assoc.
  - rewrite fmap_app. apply NoDup_app. split; [done|].
    split; [|apply NoDup_singleton].
    intros a Ha ->%list_elem_of_singleton.
    apply list_elem_of_fmap in Ha as (n & Hn & Hin). cbn in Hn.
    apply Hfresh. exists n. apply Hvis. by split.
  - intros a n. destruct (decide (record = a)) as [<-|Hne].
    + rewrite lookup_insert_eq. split.
      * intros [= <-]. split; [set_solver|done].
      * intros [[Hin|Hin%list_elem_of_singleton]%elem_of_app Haddr];
          [|by rewrite Hin].
        exfalso. apply Hfresh. exists n. apply Hvis. by split.
    + rewrite lookup_insert_ne by done. rewrite Hvis. split.
      * intros [Hin Haddr]. split; [set_solver|done].
      * intros [[Hin|Hin%list_elem_of_singleton]%elem_of_app Haddr];
          [done|]. rewrite Hin in Haddr. cbn in Haddr. done.
  - intros a. destruct (decide (record = a)) as [<-|Hne].
    + intros _. rewrite fmap_app. set_solver.
    + rewrite lookup_insert_ne by done. apply Hseen'.
  - intros strings Hpre Hlen. apply Forall_app. split; [by apply Hold|].
    apply Forall_singleton. split_and!; [done..|].
    exists type_name. split; [set_solver|]. cbn.
    assert (strings1 `prefix_of` strings) as Hp1 by (by etrans).
    unfold serialized_strings in *.
    eapply prefix_lookup_Some; [apply Hlookup|by apply prefix_cons].
    apply prefix_length in Hid, Hp1. lia.
Qed.

Lemma DataEntry_instances_nodes pre records : ∀ seen st,
  nodes_invariant v8 pre seen st →
  let r := DataEntry_instances v8 indeterminate GetChildrenCount records st in
  nodes_invariant v8 pre (seen ++ records) r.2
  ∧ (NoDup (seen ++ records).*2 → r.1 = true).
Proof.
  induction records as [|[type_name record] records IH]; intros seen st Hinv.
  - cbn. by rewrite app_nil_r.
  - cbn [DataEntry_instances].
    destruct (DataEntry_instance _ _ _ _ _ _) as [st1|] eqn:Hstep.
    + apply DataEntry_instance_nodes with (pre := pre) (seen := seen) in Hstep;
        [|done].
      destruct (IH _ _ Hstep) as [Hinv' Hfin].
      rewrite <- app_assoc in Hinv', Hfin. done.
    + cbn [fst snd]. split.
      * destruct Hinv as (instances & Hnodes & Hnd & Hvis & Hseen & Hpushed).
        exists instances. split_and!; [done..| |].
        -- intros a Ha. rewrite fmap_app. apply elem_of_app. left.
           by apply Hseen.
        -- intros strings Hpre Hlen.
           eapply Forall_impl; [by apply (Hpushed strings)|].
           intros n. apply pushed_node_mono; [set_solver|done].
      * intros Hnd. exfalso.
        unfold DataEntry_instance in Hstep.
        destruct (decide (is_Some (de_visitedNode st !! record))) as [Hvisited|];
          [|by repeat case_match].
        destruct Hinv as (_ & _ & _ & _ & Hseen & _).
        apply Hseen in Hvisited.
        rewrite fmap_app in Hnd. apply NoDup_app in Hnd as (_ & Hdisj & _).
        apply (Hdisj record Hvisited). cbn. by left.
Qed.
End SnapshotNodes.

(** X12. The nodes and the edges that DataEntry leaves. The nodes come after
    those the serializer already held, which are never removed: the two
    synthetic nodes, then one node for an instance of the histogram only if
    its type is known and its children could be counted. No two of these
    nodes have the same address, each carries the type and the size of its
    address, and its name is the position of its type name in the array of
    strings as written. When no address occurs twice among the instances,
    every edge is resolved: its node id is six times the id of the node at
    the address it points to, or 0 when no node has that address. *)
Theorem DataEntry_nodes_and_edges (v8 : LLV8) (indeterminate : Z)
    (GetChildrenCount : Z → ChildrenState → Z * ChildrenState)
    (records : list (string * Z)) (llscan : LLScan)
    (h : HeapSnapshotJSONSerializer) :
  appends_strings GetChildrenCount →
  let r := (DataEntry v8 indeterminate GetChildrenCount records llscan h).1 in
  ∃ root gc instances,
    nodes_ r = nodes_ h ++ root :: gc :: instances
    ∧ HeapGraphNode.type_ root = HeapGraphNode.kSynthetic
    ∧ HeapGraphNode.type_ gc = HeapGraphNode.kSynthetic
    ∧ NoDup (HeapGraphNode.address <$> instances)
    ∧ (Z.of_nat (length (strings_ r)) < 2 ^ 64 - 1 →
       Forall (pushed_node v8 records (strings_ r)) instances)
    ∧ (NoDup records.*2 → Forall (resolved_edge instances) (edges_ r)).
Proof.
  intros Happend. unfold DataEntry. cbv zeta.
  set (h0 := AddGCRootsEntry indeterminate 1 (InitialEntry indeterminate 1 h)).
  assert (Hh0 : ∃ root gc,
            nodes_ h0 = (nodes_ h ++ [root; gc])
            ∧ HeapGraphNode.type_ root = HeapGraphNode.kSynthetic
            ∧ HeapGraphNode.type_ gc = HeapGraphNode.kSynthetic).
  { unfold h0, AddGCRootsEntry, InitialEntry.
    destruct (GetStringId "" (strings_ h)) as [name1 strings1]. cbn.
    destruct (GetStringId "(GC roots)" strings1) as [name2 strings2]. cbn.
    do 2 eexists. rewrite <- app_assoc. cbn. split; [done|]. by split. }
  destruct Hh0 as (root & gc & Hnodes0 & Hroot & Hgc).
  set (st0 := mkDataEntryState 1 ∅ h0 llscan).
  assert (Hinv0 : nodes_invariant v8 (nodes_ h ++ [root; gc]) [] st0).
  { exists []. cbn. split_and!.
    - by rewrite app_nil_r.
    - constructor.
    - intros a n. rewrite lookup_empty. split; [done|].
      by intros [?%elem_of_nil _].
    - intros a [n Hn]. by rewrite lookup_empty in Hn.
    - intros. constructor. }
  destruct (DataEntry_instances_nodes v8 indeterminate GetChildrenCount Happend
              (nodes_ h ++ [root; gc]) records [] st0 Hinv0) as [Hinv Hfin].
  cbn [app] in Hinv, Hfin.
  destruct (DataEntry_instances v8 indeterminate GetChildrenCount records st0)
    as [finished st]. cbn [fst snd] in *.
  destruct Hinv as (instances & Hnodes & Hnd & Hvis & Hseen & Hpushed).
  exists root, gc, instances.
  assert (Hn : ∀ b : bool,
            nodes_ (if b
                    then mkSerializer (nodes_ (de_serializer st))
                           (resolve_edge (de_visitedNode st)
                              <$> edges_ (de_serializer st))
                           (strings_ (de_serializer st))
                           (write_ (de_serializer st))
                           (write_is_open_ (de_serializer st))
                           (write_fail_ (de_serializer st))
                    else de_serializer st)
            = nodes_ (de_serializer st)
            ∧ strings_ (if b
                        then mkSerializer (nodes_ (de_serializer st))
                               (resolve_edge (de_visitedNode st)
                                  <$> edges_ (de_serializer st))
                               (strings_ (de_serializer st))
                               (write_ (de_serializer st))
                               (write_is_open_ (de_serializer st))
                               (write_fail_ (de_serializer st))
                        else de_serializer st)
              = strings_ (de_serializer st)) by (by intros []).
  destruct finished; cbn [fst].
  - cbn [nodes_ strings_ edges_]. split_and!; [|done|done|done| |].
    + by rewrite Hnodes, <- app_assoc.
    + intros Hlen. by apply Hpushed.
    + intros _. apply Forall_fmap, Forall_forall. intros e _.
      unfold resolve_edge, resolved_edge. cbn.
      destruct (de_visitedNode st !! HeapGraphEdge.to_address e) as [n|] eqn:Hn'.
      * apply Hvis in Hn' as [Hin Haddr].
        rewrite decide_False by (intros Hne; by apply Hne).
        right. exists n. by split_and!.
      * left. split; [done|]. intros n Hin Haddr.
        assert (de_visitedNode st !! HeapGraphEdge.to_address e = Some n)
          as Hsome by (apply Hvis; by split).
        congruence.
  - split_and!; [|done|done|done| |].
    + by rewrite Hnodes, <- app_assoc.
    + intros Hlen. by apply Hpushed.
    + intros Hnd'. by apply Hfin in Hnd'.
Qed.

(** One object without children, exported by a new serializer. *)
Lemma DataEntry_nodes_and_edges_witness :
  let r := (DataEntry sample_v8 0 no_children [("Object", 4097)] LLScan_new
              HeapSnapshotJSONSerializer_new).1 in
  ∃ root gc instances,
    nodes_ r = root :: gc :: instances
    ∧ NoDup (HeapGraphNode.address <$> instances)
    ∧ Forall (pushed_node sample_v8 [("Object", 4097)] (strings_ r)) instances
    ∧ Forall (resolved_edge instances) (edges_ r).
Proof.
  destruct (DataEntry_nodes_and_edges sample_v8 0 no_children
              [("Object", 4097)] LLScan_new HeapSnapshotJSONSerializer_new)
    as (root & gc & instances & Hnodes & _ & _ & Hnd & Hpushed & Hedges).
  - intros a cs. reflexivity.
  - exists root, gc, instances. split; [exact Hnodes|]. split; [exact Hnd|].
    split.
    + apply Hpushed. vm_compute. reflexivity.
    + apply Hedges. repeat constructor. set_solver.
Defined.

(** ** Strings that refer to strings *)

Lemma save_by_value_times src v k s :
  times_referenced src k (references_by_value_ (save_by_value v src s))
  = ((if decide (v = k) then 1 else 0)
     + times_referenced src k (references_by_value_ s))%nat.
Proof.
  unfold save_by_value. cbn [references_by_value_ set_references_by_value].
  case_decide as Hk.
  - subst. by rewrite times_referenced_push_same.
  - by rewrite times_referenced_push_other.
Qed.

Lemma save_by_string_times src v k s :
  times_referenced src k (references_by_string_ (save_by_string v src s))
  = ((if decide (v = k) then 1 else 0)
     + times_referenced src k (references_by_string_ s))%nat.
Proof.
  unfold save_by_string. cbn [references_by_string_ set_references_by_string].
  case_decide as Hk.
  - subst. by rewrite times_referenced_push_same.
  - by rewrite times_referenced_push_other.
Qed.

(** X13. A string that is built from other strings is recorded by the scanner by
    value at most once under each of them: a cons string whose two halves
    are one and the same string is recorded under it once. The scanner by
    string compares nothing: a cons string whose two halves read as the same
    text is recorded twice under that text. *)
Theorem ScanRefs_String_once_by_value_twice_by_text (v8 : LLV8) (str : Z)
    (s : LLScan) (text : string) :
  (∀ k, (times_referenced str k
           (references_by_value_ (ReferenceScanner_ScanRefs_String v8 str s))
         ≤ times_referenced str k (references_by_value_ s) + 1)%nat)
  ∧ (Representation v8 str = (kConsStringTag v8, true) →
     kConsStringTag v8 ≠ kSlicedStringTag v8 →
     (First v8 str).2 = true → (Second v8 str).2 = true →
     (GetType v8 (First v8 str).1).2 = true →
     (GetType v8 (Second v8 str).1).2 = true →
     (GetType v8 (First v8 str).1).1 < kFirstNonstringType v8 →
     (GetType v8 (Second v8 str).1).1 < kFirstNonstringType v8 →
     ToString v8 (First v8 str).1 = Some text →
     ToString v8 (Second v8 str).1 = Some text →
     times_referenced str text
       (references_by_string_ (StringScanner_ScanRefs_String v8 str s))
     = (times_referenced str text (references_by_string_ s) + 2)%nat).
Proof.
  split.
  - intros k. unfold ReferenceScanner_ScanRefs_String.
    destruct (Representation v8 str) as [repr valid].
    destruct (negb valid); [lia|].
    destruct (decide (repr = kSlicedStringTag v8));
      [|destruct (decide (repr = kConsStringTag v8));
        [|destruct (decide (repr = kThinStringTag v8)); [|lia]]].
    + destruct (Parent v8 str).2; [|lia].
      rewrite save_by_value_times. case_decide; lia.
    + destruct (First v8 str) as [first first_ok].
      destruct (Second v8 str) as [second second_ok]. cbn [fst snd].
      destruct first_ok, second_ok; cbn [andb];
        try case_bool_decide; rewrite ?save_by_value_times;
        repeat case_decide; subst; try lia; done.
    + destruct (Actual v8 str).2; [|lia].
      rewrite save_by_value_times. case_decide; lia.
  - intros Hrepr Hne Hf Hs Hft Hst Hftype Hstype Hftext Hstext.
    unfold StringScanner_ScanRefs_String. rewrite Hrepr. cbn [negb].
    rewrite decide_False by done. rewrite decide_True by done.
    unfold StringScanner_scan_part. rewrite Hf, Hs. cbn [negb].
    destruct (GetType v8 (First v8 str).1) as [ftype fok].
    destruct (GetType v8 (Second v8 str).1) as [stype sok].
    cbn [fst snd] in *. subst fok sok. cbn [negb].
    rewrite !bool_decide_eq_true_2 by done.
    rewrite Hftext, Hstext. cbn [default from_option id].
    rewrite !save_by_string_times. rewrite !decide_True by done. lia.
Qed.

Lemma ScanRefs_String_once_by_value_twice_by_text_witness :
  times_referenced 4097 "ab"
    (references_by_string_
       (StringScanner_ScanRefs_String v8_cons_string 4097 LLScan_new))
  = 2%nat.
Proof.
  destruct (ScanRefs_String_once_by_value_twice_by_text v8_cons_string 4097
              LLScan_new "ab") as [_ Htwice].
  rewrite Htwice; [reflexivity| | |reflexivity..].
  - reflexivity.
  - vm_compute. discriminate.
Defined.

(** ** findjsobjects *)

Lemma sorted_by_count_spec a b :
  sorted_by_count a b ↔
  instance_count_ a < instance_count_ b
  ∨ (instance_count_ a = instance_count_ b
     ∧ (total_instance_size_ a < total_instance_size_ b
        ∨ (total_instance_size_ a = total_instance_size_ b
           ∧ String.ltb (type_name_ b) (type_name_ a) = false))).
Proof.
  unfold sorted_by_count. rewrite <- not_true_iff_false.
  rewrite CompareInstanceCounts_spec.
  destruct (String.ltb (type_name_ b) (type_name_ a)); split; intros Hx;
    try lia; try (exfalso; apply Hx); try naive_solver lia.
Qed.

Lemma String_ltb_asym s1 s2 :
  String.ltb s1 s2 = true → String.ltb s2 s1 = false.
Proof.
  intros H12. apply not_true_is_false. intros H21.
  pose proof (String_ltb_trans _ _ _ H12 H21) as Hx.
  by rewrite String_ltb_irrefl in Hx.
Qed.

#[local] Instance sorted_by_count_total : Total sorted_by_count.
Proof.
  intros a b. rewrite !sorted_by_count_spec.
  destruct (String.ltb (type_name_ b) (type_name_ a)) eqn:Hba.
  - apply String_ltb_asym in Hba. rewrite Hba.
    destruct (Z.lt_trichotomy (instance_count_ a) (instance_count_ b))
      as [?|[?|?]]; [naive_solver| |naive_solver lia].
    destruct (Z.lt_trichotomy (total_instance_size_ a) (total_instance_size_ b))
      as [?|[?|?]]; naive_solver lia.
  - destruct (Z.lt_trichotomy (instance_count_ a) (instance_count_ b))
      as [?|[?|?]]; [naive_solver| |naive_solver lia].
    destruct (Z.lt_trichotomy (total_instance_size_ a) (total_instance_size_ b))
      as [?|[?|?]]; naive_solver lia.
Qed.

#[local] Instance sorted_by_count_trans : Transitive sorted_by_count.
Proof.
  intros a b c. rewrite !sorted_by_count_spec. intros Hab Hbc.
  destruct Hab as [?|[? [?|[? Hab]]]], Hbc as [?|[? [?|[? Hbc]]]];
    try (left; lia); try (right; split; [lia|left; lia]).
  right. split; [lia|]. right. split; [lia|].
  apply not_true_is_false. intros Hca.
  destruct (String.ltb (type_name_ b) (type_name_ c)) eqn:Hbc'.
  - pose proof (String_ltb_trans _ _ _ Hbc' Hca). congruence.
  - assert (type_name_ b = type_name_ c) as Heq
      by (by apply String_ltb_total).
    rewrite Heq in Hab. congruence.
Qed.

Lemma sorted_by_count_antisym a b :
  sorted_by_count a b → sorted_by_count b a → sort_key a = sort_key b.
Proof.
  rewrite !sorted_by_count_spec. intros Hab Hba. unfold sort_key.
  destruct Hab as [?|[? [?|[? Hab]]]], Hba as [?|[? [?|[? Hba]]]]; try lia.
  assert (type_name_ a = type_name_ b) as -> by (by apply String_ltb_total).
  congruence.
Qed.

Lemma sample_sort_sorts : sorts_by_count id sample_sort.
Proof.
  intros l. split; [apply merge_sort_Permutation|].
  apply (StronglySorted_merge_sort sorted_by_count).
Qed.

Lemma sample_sort_detailed_sorts : sorts_by_count dtr_record sample_sort_detailed.
Proof.
  intros l. split; [apply merge_sort_Permutation|].
  assert (Transitive (λ a b : DetailedTypeRecord,
                        sorted_by_count (dtr_record a) (dtr_record b)))
    by (intros a b c; apply sorted_by_count_trans).
  assert (Total (λ a b : DetailedTypeRecord,
                   sorted_by_count (dtr_record a) (dtr_record b)))
    by (intros a b; apply sorted_by_count_total).
  by apply StronglySorted_merge_sort.
Qed.

Lemma sumZ_Permutation l1 l2 : l1 ≡ₚ l2 → sumZ l1 = sumZ l2.
Proof.
  unfold sumZ. induction 1; simpl; lia.
Qed.

Lemma print_rows_spec {A : Type} (row : A → HistogramOutput)
    (record : A → TypeRecord) (sorted : list A) :
  print_rows row record sorted
  = (row <$> sorted,
     wrap64 (sumZ (instance_count_ ∘ record <$> sorted)),
     wrap64 (sumZ (total_instance_size_ ∘ record <$> sorted))).
Proof.
  unfold print_rows.
  assert (Hgen : ∀ l rows x y,
            foldl (λ '(rows, total_objects, total_size) t,
                     (rows ++ [row t],
                      wrap64 (total_objects + GetInstanceCount (record t)),
                      wrap64 (total_size + GetTotalInstanceSize (record t))))
              (rows, wrap64 x, wrap64 y) l
            = (rows ++ (row <$> l),
               wrap64 (x + sumZ (instance_count_ ∘ record <$> l)),
               wrap64 (y + sumZ (total_instance_size_ ∘ record <$> l)))).
  { induction l as [|t l IH]; intros rows x y.
    - cbn. by rewrite app_nil_r, !Z.add_0_r.
    - cbn [foldl]. rewrite !wrap64_add_l, IH.
      rewrite !fmap_cons. unfold sumZ. cbn [foldr].
      rewrite <- app_assoc. cbn [app]. unfold GetInstanceCount,
        GetTotalInstanceSize, compose.
      f_equal; [f_equal|]; f_equal; lia. }
  apply (Hgen sorted [] 0 0).
Qed.

Lemma ParsePrinterOptions_arg_detailed options arg :
  po_detailed (ParsePrinterOptions_arg options arg)
  = po_detailed options || bool_decide (arg.1 = opt_d ∨ arg.1 = opt_v).
Proof.
  destruct arg as [arg optarg]. cbn [fst]. unfold ParsePrinterOptions_arg.
  destruct (decide (arg = opt_F)) as [->|?];
    [by rewrite bool_decide_eq_false_2, orb_false_r by (by intros [?|?])|].
  destruct (decide (arg = opt_m)) as [->|?];
    [by rewrite bool_decide_eq_false_2, orb_false_r by (by intros [?|?])|].
  destruct (decide (arg = opt_l)) as [->|?];
    [by rewrite bool_decide_eq_false_2, orb_false_r by (by intros [?|?])|].
  destruct (decide (arg = opt_s)) as [->|?];
    [by rewrite bool_decide_eq_false_2, orb_false_r by (by intros [?|?])|].
  destruct (decide (arg = opt_d ∨ arg = opt_v)) as [Hd|Hd].
  - rewrite bool_decide_eq_true_2 by done. by rewrite orb_true_r.
  - rewrite (bool_decide_eq_false_2 (arg = opt_d ∨ arg = opt_v)) by done.
    rewrite orb_false_r. by destruct (decide (arg = opt_n)).
Qed.

Lemma ParsePrinterOptions_detailed args options :
  po_detailed (ParsePrinterOptions args options)
  = po_detailed options
    || existsb (λ arg, bool_decide (arg.1 = opt_d ∨ arg.1 = opt_v)) args.
Proof.
  unfold ParsePrinterOptions. revert options.
  induction args as [|arg args IH]; intros options.
  - cbn. by rewrite orb_false_r.
  - cbn [foldl existsb]. rewrite IH, ParsePrinterOptions_arg_detailed.
    by rewrite orb_assoc.
Qed.

Lemma histogram_wf_new : histogram_wf LLScan_new.
Proof.
  split; [|split].
  - intros k t Hk. cbn in Hk. by rewrite lookup_empty in Hk.
  - intros k d Hk. cbn in Hk. by rewrite lookup_empty in Hk.
  - intros k t a Hk. cbn in Hk. by rewrite lookup_empty in Hk.
Qed.

Lemma iterates_all_head order (X : gset Z) :
  iterates_all order → X ≠ ∅ →
  ∃ sample, head (order X) = Some sample ∧ sample ∈ X.
Proof.
  intros Horder Hne. destruct (order X) as [|x l] eqn:Hx.
  - exfalso. apply Hne. apply set_eq. intros x.
    rewrite <- elem_of_elements, <- (Horder X), Hx. set_solver.
  - exists x. split; [done|]. apply elem_of_elements.
    rewrite <- (Horder X), Hx. by left.
Qed.

Lemma TypeRecordMap_iteration_Permutation m :
  (TypeRecordMap_iteration m).*2 ≡ₚ (map_to_list m).*2.
Proof.
  unfold TypeRecordMap_iteration. apply fmap_Permutation.
  apply merge_sort_Permutation.
Qed.

Lemma DetailedTypeRecordMap_iteration_Permutation m :
  (DetailedTypeRecordMap_iteration m).*2 ≡ₚ (map_to_list m).*2.
Proof.
  unfold DetailedTypeRecordMap_iteration. apply fmap_Permutation.
  apply merge_sort_Permutation.
Qed.

Lemma histogram_records_distinct s x1 x2 :
  histogram_wf s →
  x1 ∈ (map_to_list (mapstoinstances_ s)).*2 →
  x2 ∈ (map_to_list (mapstoinstances_ s)).*2 →
  sort_key x1 = sort_key x2 → x1 = x2.
Proof.
  intros (Hc & _ & _) H1 H2 Hkey.
  apply list_elem_of_fmap in H1 as ([k1 t1] & -> & H1).
  apply list_elem_of_fmap in H2 as ([k2 t2] & -> & H2).
  apply elem_of_map_to_list in H1, H2. cbn [snd] in *.
  destruct (Hc _ _ H1) as [Hn1 _]. destruct (Hc _ _ H2) as [Hn2 _].
  unfold sort_key in Hkey. injection Hkey as _ _ Hname.
  assert (k1 = k2) as -> by congruence. congruence.
Qed.

Lemma SimpleOutput_table std_sort s :
  sorts_by_count id std_sort → histogram_wf s →
  let records := (map_to_list (mapstoinstances_ s)).*2 in
  ∃ sorted,
    SimpleOutput std_sort s
    = [OutSimpleHeader] ++ (simple_row <$> sorted)
      ++ [OutSimpleTotals
            (as_int64 (wrap64 (sumZ (instance_count_ <$> records))))
            (as_int64 (wrap64 (sumZ (total_instance_size_ <$> records))))]
    ∧ sorted ≡ₚ records
    ∧ StronglySorted sorted_by_count sorted
    ∧ ∀ other, other ≡ₚ records → StronglySorted sorted_by_count other →
        other = sorted.
Proof.
  intros Hsort Hwf records.
  set (listed := (TypeRecordMap_iteration (GetMapsToInstances s)).*2).
  destruct (Hsort listed) as [Hperm Hsorted].
  assert (Hrecords : std_sort listed ≡ₚ records).
  { rewrite Hperm. apply TypeRecordMap_iteration_Permutation. }
  exists (std_sort listed). split_and!; [|done|done|].
  - unfold SimpleOutput. fold listed. cbv zeta. rewrite print_rows_spec.
    change (instance_count_ ∘ id) with instance_count_.
    change (total_instance_size_ ∘ id) with total_instance_size_.
    rewrite (sumZ_Permutation (instance_count_ <$> std_sort listed)
               (instance_count_ <$> records)) by (by apply fmap_Permutation).
    rewrite (sumZ_Permutation (total_instance_size_ <$> std_sort listed)
               (total_instance_size_ <$> records))
      by (by apply fmap_Permutation).
    done.
  - intros other Hother Hsorted'.
    apply (StronglySorted_unique_strong sorted_by_count); [|done|done|].
    + intros x1 x2 Hx1 Hx2 H12 H21.
      apply (histogram_records_distinct s); [done| | |].
      * rewrite Hother in Hx1. exact Hx1.
      * rewrite Hrecords in Hx2. exact Hx2.
      * by apply sorted_by_count_antisym.
    + by rewrite Hrecords.
Qed.

Lemma DetailedOutput_table std_sort_detailed order indeterminate s :
  sorts_by_count dtr_record std_sort_detailed → iterates_all order →
  histogram_wf s →
  let records := (map_to_list (detailedmapstoinstances_ s)).*2 in
  ∃ sorted,
    DetailedOutput std_sort_detailed order indeterminate s
    = [OutDetailedHeader] ++ (detailed_row order indeterminate <$> sorted)
      ++ [OutDetailedTotals
            (as_int64 (wrap64 (sumZ (instance_count_ ∘ dtr_record <$> records))))
            (as_int64
               (wrap64 (sumZ (total_instance_size_ ∘ dtr_record <$> records))))]
    ∧ sorted ≡ₚ records
    ∧ StronglySorted (λ a b, sorted_by_count (dtr_record a) (dtr_record b))
        sorted
    ∧ Forall (λ d, ∃ sample,
                head (order (instances_ (dtr_record d))) = Some sample
                ∧ sample ∈ instances_ (dtr_record d)) sorted.
Proof.
  intros Hsort Horder (_ & Hd & _) records.
  set (listed :=
         (DetailedTypeRecordMap_iteration (GetDetailedMapsToInstances s)).*2).
  destruct (Hsort listed) as [Hperm Hsorted].
  assert (Hrecords : std_sort_detailed listed ≡ₚ records).
  { rewrite Hperm. apply DetailedTypeRecordMap_iteration_Permutation. }
  exists (std_sort_detailed listed). split_and!; [|done|done|].
  - unfold DetailedOutput. fold listed. cbv zeta. rewrite print_rows_spec.
    rewrite (sumZ_Permutation
               (instance_count_ ∘ dtr_record <$> std_sort_detailed listed)
               (instance_count_ ∘ dtr_record <$> records))
      by (by apply fmap_Permutation).
    rewrite (sumZ_Permutation
               (total_instance_size_ ∘ dtr_record <$> std_sort_detailed listed)
               (total_instance_size_ ∘ dtr_record <$> records))
      by (by apply fmap_Permutation).
    done.
  - apply Forall_forall. intros d Hin. rewrite Hrecords in Hin.
    apply list_elem_of_fmap in Hin as ([k d'] & -> & Hin).
    apply elem_of_map_to_list in Hin. cbn [snd].
    destruct (Hd _ _ Hin) as [_ Hne].
    by apply iterates_all_head.
Qed.

(** X14. What findjsobjects shows for a valid target. Without -d and -v it is
    the simple table: one row for each coarse record of the histogram after
    the scan, in ascending order of CompareInstanceCounts, and this order is
    the only one a sort could produce; the last line holds the sums of the
    counts and of the sizes modulo 2^64. With -d or -v anywhere among the
    options it is the detailed table, sorted in the same way; the sample
    object of each row is an instance of its record, so begin() is never
    read from an empty set. *)
Theorem findjsobjects_table (std_sort : list TypeRecord → list TypeRecord)
    (std_sort_detailed : list DetailedTypeRecord → list DetailedTypeRecord)
    (order : gset Z → list Z) (indeterminate : Z) (a : FindObjectsArgs)
    (s : LLScan) :
  sorts_by_count id std_sort →
  sorts_by_count dtr_record std_sort_detailed →
  iterates_all order →
  histogram_wf s →
  IsValid (fo_target a) = true →
  let e := FindObjectsCmd_DoExecute std_sort std_sort_detailed order
             indeterminate a s in
  let scanned := ScanHeapForObjects (fo_target a) (fo_process a) s in
  let records := (map_to_list (mapstoinstances_ scanned)).*2 in
  let detailed_records := (map_to_list (detailedmapstoinstances_ scanned)).*2 in
  he_return e = true
  ∧ he_status e = Some eReturnStatusSuccessFinishResult
  ∧ he_llscan e = scanned
  ∧ (po_detailed (fo_printer_options a) = false →
     Forall (λ arg, arg.1 ≠ opt_d ∧ arg.1 ≠ opt_v) (fo_options a) →
     ∃ sorted,
       he_output e
       = [OutSimpleHeader] ++ (simple_row <$> sorted)
         ++ [OutSimpleTotals
               (as_int64 (wrap64 (sumZ (instance_count_ <$> records))))
               (as_int64 (wrap64 (sumZ (total_instance_size_ <$> records))))]
       ∧ sorted ≡ₚ records
       ∧ StronglySorted sorted_by_count sorted
       ∧ ∀ other, other ≡ₚ records → StronglySorted sorted_by_count other →
           other = sorted)
  ∧ (∀ arg, arg ∈ fo_options a → arg.1 = opt_d ∨ arg.1 = opt_v →
     ∃ sorted,
       he_output e
       = [OutDetailedHeader] ++ (detailed_row order indeterminate <$> sorted)
         ++ [OutDetailedTotals
               (as_int64
                  (wrap64 (sumZ (instance_count_ ∘ dtr_record
                                   <$> detailed_records))))
               (as_int64
                  (wrap64 (sumZ (total_instance_size_ ∘ dtr_record
                                   <$> detailed_records))))]
       ∧ sorted ≡ₚ detailed_records
       ∧ StronglySorted (λ a b, sorted_by_count (dtr_record a) (dtr_record b))
           sorted
       ∧ Forall (λ d, ∃ sample,
                   head (order (instances_ (dtr_record d))) = Some sample
                   ∧ sample ∈ instances_ (dtr_record d)) sorted).
Proof.
  intros Hsort Hsortd Horder Hwf Hvalid e scanned records detailed_records.
  assert (Hscanned : histogram_wf scanned)
    by (by apply ScanHeapForObjects_histogram_wf).
  unfold e, FindObjectsCmd_DoExecute. rewrite Hvalid. cbn [negb].
  cbv zeta. cbn [he_return he_status he_llscan he_output].
  rewrite ParsePrinterOptions_detailed.
  split; [done|]. split; [done|]. split; [done|]. split.
  - intros Hdefault Hnone. rewrite Hdefault. cbn [orb].
    assert (existsb (λ arg, bool_decide (arg.1 = opt_d ∨ arg.1 = opt_v))
              (fo_options a) = false) as ->.
    { apply not_true_is_false. intros (arg & Hin & Harg)%existsb_exists.
      apply bool_decide_eq_true in Harg. apply list_elem_of_In in Hin.
      rewrite Forall_forall in Hnone. destruct (Hnone arg Hin).
      tauto. }
    by apply SimpleOutput_table.
  - intros arg Hin Harg.
    assert (existsb (λ arg, bool_decide (arg.1 = opt_d ∨ arg.1 = opt_v))
              (fo_options a) = true) as ->.
    { apply existsb_exists. exists arg. split; [by apply list_elem_of_In|].
      by apply bool_decide_eq_true. }
    rewrite orb_true_r. by apply DetailedOutput_table.
Qed.

(** The histogram of the process with two objects, shown plainly. *)
Lemma findjsobjects_table_witness :
  ∃ sorted,
    he_output
      (FindObjectsCmd_DoExecute sample_sort sample_sort_detailed sample_order 0
         (mkFindObjectsArgs (Some 1) two_objects_process
            (mkPrinterOptions 16 false false false 0) [])
         LLScan_new)
    = [OutSimpleHeader] ++ (simple_row <$> sorted) ++ [OutSimpleTotals 2 48]
    ∧ StronglySorted sorted_by_count sorted.
Proof.
  destruct (findjsobjects_table sample_sort sample_sort_detailed sample_order 0
              (mkFindObjectsArgs (Some 1) two_objects_process
                 (mkPrinterOptions 16 false false false 0) [])
              LLScan_new)
    as (_ & _ & _ & Hsimple & _).
  - apply sample_sort_sorts.
  - apply sample_sort_detailed_sorts.
  - intros X. reflexivity.
  - apply histogram_wf_new.
  - reflexivity.
  - destruct Hsimple as (sorted & Hout & _ & Hsorted & _);
      [reflexivity|constructor|].
    exists sorted. split; [|exact Hsorted].
    rewrite Hout. do 3 f_equal; vm_compute; reflexivity.
Defined.

(** ** Scanning twice *)

Lemma Visit_new_session d w s :
  (Visit d w (FindJSObjectsVisitor_new, s)).2
  = match entry_used d with
    | Some e => (Visit_insert e d w (FindJSObjectsVisitor_new, s)).2
    | None => s
    end.
Proof.
  rewrite Visit_unfold. unfold entry_used.
  destruct (reaches_map d) as [m|]; [|done].
  change (map_cache_ FindJSObjectsVisitor_new !! m) with
    ((∅ : gmap Z MapCacheEntry) !! m).
  rewrite lookup_empty. destruct (load_result d) as [e|]; [|done].
  apply Visit_insert_session.
Qed.

Lemma Visit_insert_absorbed e d w v s :
  absorbed e w s → (Visit_insert e d w (v, s)).2 = s.
Proof.
  unfold absorbed, Visit_insert.
  destruct (is_context e).
  { intros Hin. cbn [snd]. destruct s. unfold InsertOnContexts. cbn in *.
    f_equal. set_solver. }
  destruct (is_histogram e); cbn [negb]; [|done].
  intros [(t & Ht & Hin) (dr & Hd & Hind)].
  assert (InsertOnMapsToInstances w (instance_size d) e s = s) as ->.
  { unfold InsertOnMapsToInstances. rewrite Ht. cbn [default].
    rewrite AddInstance_present by done. rewrite insert_id by done.
    by destruct s. }
  assert (InsertOnDetailedMapsToInstances w (instance_size d) e s = s) as ->.
  { unfold InsertOnDetailedMapsToInstances. cbv zeta. rewrite Hd.
    rewrite AddInstance_present by done.
    replace (mkDetailedTypeRecord (dtr_record dr)
               (dtr_own_descriptors_count_ dr)
               (dtr_indexed_properties_count_ dr)) with dr by (by destruct dr).
    rewrite insert_id by done. by destruct s. }
  by destruct (instance_size_fails d).
Qed.

Lemma InsertOnMapsToInstances_kept word sz map_info s :
  coarse_records_kept s (InsertOnMapsToInstances word sz map_info s).
Proof.
  intros key t Ht. unfold InsertOnMapsToInstances. cbn [mapstoinstances_].
  destruct (decide (type_name map_info = key)) as [->|Hne].
  - rewrite Ht, lookup_insert_eq. eexists. split; [done|].
    cbn [default]. apply AddInstance_superset.
  - rewrite lookup_insert_ne by done. by exists t.
Qed.

Lemma Visit_insert_absorbs e d w v s :
  absorbed e w (Visit_insert e d w (v, s)).2.
Proof.
  unfold absorbed, Visit_insert.
  destruct (is_context e); [cbn; set_solver|].
  destruct (is_histogram e); cbn [negb]; [|done].
  assert (∀ b : bool,
            (if b
             then (v, InsertOnDetailedMapsToInstances w (instance_size d) e
                        (InsertOnMapsToInstances w (instance_size d) e s))
             else (mkVisitor ((found_count_ v + 1) mod 2 ^ 32) (map_cache_ v),
                   InsertOnDetailedMapsToInstances w (instance_size d) e
                     (InsertOnMapsToInstances w (instance_size d) e s))).2
            = InsertOnDetailedMapsToInstances w (instance_size d) e
                (InsertOnMapsToInstances w (instance_size d) e s)) as ->
    by (by intros []).
  split.
  - eexists. split; [apply lookup_insert_eq|].
    rewrite AddInstance_instances. set_solver.
  - eexists. split; [apply lookup_insert_eq|].
    cbn [dtr_record]. rewrite AddInstance_instances. set_solver.
Qed.

Lemma Visit_insert_keeps e2 d2 w2 v s :
  contexts_ s ⊆ contexts_ (Visit_insert e2 d2 w2 (v, s)).2
  ∧ coarse_records_kept s (Visit_insert e2 d2 w2 (v, s)).2
  ∧ detailed_records_kept s (Visit_insert e2 d2 w2 (v, s)).2.
Proof.
  unfold Visit_insert.
  destruct (is_context e2).
  { cbn. split; [set_solver|]. split; intros key t Ht; by exists t. }
  destruct (negb (is_histogram e2)).
  { cbn. split; [done|]. split; intros key t Ht; by exists t. }
  assert (∀ b : bool,
            (if b
             then (v, InsertOnDetailedMapsToInstances w2 (instance_size d2) e2
                        (InsertOnMapsToInstances w2 (instance_size d2) e2 s))
             else (mkVisitor ((found_count_ v + 1) mod 2 ^ 32) (map_cache_ v),
                   InsertOnDetailedMapsToInstances w2 (instance_size d2) e2
                     (InsertOnMapsToInstances w2 (instance_size d2) e2 s))).2
            = InsertOnDetailedMapsToInstances w2 (instance_size d2) e2
                (InsertOnMapsToInstances w2 (instance_size d2) e2 s)) as ->
    by (by intros []).
  split; [done|]. split.
  - intros key t Ht.
    by apply (InsertOnMapsToInstances_kept w2 (instance_size d2) e2 s).
  - eapply detailed_records_kept_trans;
      [|apply InsertOnDetailedMapsToInstances_kept].
    intros key t Ht. by exists t.
Qed.

Lemma absorbed_kept e w s s' :
  contexts_ s ⊆ contexts_ s' → coarse_records_kept s s' →
  detailed_records_kept s s' →
  absorbed e w s → absorbed e w s'.
Proof.
  intros Hc Hm Hd. unfold absorbed.
  destruct (is_context e); [set_solver|].
  destruct (negb (is_histogram e)); [done|].
  intros [(t & Ht & Hin) (dr & Hdr & Hind)]. split.
  - destruct (Hm _ _ Ht) as (t' & Ht' & Hsub). exists t'. split; [done|set_solver].
  - destruct (Hd _ _ Hdr) as (d' & Hd' & Hsub). exists d'. split; [done|set_solver].
Qed.

Lemma scan_without_cache_keeps decode rest : ∀ before s,
  contexts_ s ⊆ contexts_ (scan_without_cache decode before rest s)
  ∧ coarse_records_kept s (scan_without_cache decode before rest s)
  ∧ detailed_records_kept s (scan_without_cache decode before rest s).
Proof.
  induction rest as [|w rest IH]; intros before s.
  - cbn. split; [done|]. split; intros key t Ht; by exists t.
  - cbn [scan_without_cache]. rewrite Visit_new_session.
    destruct (IH (before ++ [w])
                (match entry_used (with_cache decode before w) with
                 | Some e => (Visit_insert e (with_cache decode before w) w
                                (FindJSObjectsVisitor_new, s)).2
                 | None => s
                 end)) as (Hc & Hm & Hd).
    destruct (entry_used (with_cache decode before w)) as [e|]; [|done].
    destruct (Visit_insert_keeps e (with_cache decode before w) w
                FindJSObjectsVisitor_new s) as (Hc1 & Hm1 & Hd1).
    split; [by etrans|]. split.
    + intros key t Ht. destruct (Hm1 _ _ Ht) as (t1 & Ht1 & Hs1).
      destruct (Hm _ _ Ht1) as (t2 & Ht2 & Hs2). exists t2.
      split; [done|set_solver].
    + by eapply detailed_records_kept_trans.
Qed.

Lemma scan_without_cache_absorbs decode rest : ∀ before s,
  all_absorbed decode before rest (scan_without_cache decode before rest s).
Proof.
  induction rest as [|w rest IH]; intros before s; [done|].
  cbn [scan_without_cache all_absorbed]. split; [|apply IH].
  rewrite Visit_new_session.
  destruct (entry_used (with_cache decode before w)) as [e|]; [|done].
  match goal with |- absorbed e w (scan_without_cache _ _ _ ?s1) =>
    destruct (scan_without_cache_keeps decode rest (before ++ [w]) s1)
      as (Hc & Hm & Hd) end.
  eapply absorbed_kept; [done..|]. apply Visit_insert_absorbs.
Qed.

Lemma scan_without_cache_absorbed decode rest : ∀ before S,
  all_absorbed decode before rest S →
  scan_without_cache decode before rest S = S.
Proof.
  induction rest as [|w rest IH]; intros before S; [done|].
  cbn [scan_without_cache all_absorbed]. intros [Hw Hrest].
  rewrite Visit_new_session.
  destruct (entry_used (with_cache decode before w)) as [e|]; [|by apply IH].
  rewrite Visit_insert_absorbed by done. by apply IH.
Qed.

Lemma ScanMemoryRegions_twice process s :
  (ScanMemoryRegions process
     (FindJSObjectsVisitor_new,
      (ScanMemoryRegions process (FindJSObjectsVisitor_new, s)).2)).2
  = (ScanMemoryRegions process (FindJSObjectsVisitor_new, s)).2.
Proof.
  assert (Hscan : ∀ s0,
            (ScanMemoryRegions process (FindJSObjectsVisitor_new, s0)).2
            = scan_without_cache (decode process) [] (memory_words process) s0).
  { intros s0. unfold ScanMemoryRegions. apply ScanMemoryRegions_with_cache.
    intros map. apply lookup_empty. }
  rewrite !Hscan. apply scan_without_cache_absorbed, scan_without_cache_absorbs.
Qed.

(** X15. Scanning the same memory again changes nothing: a second scan of the
    process, with a new visitor, leaves the session that the first scan
    left, with no instance counted twice and no record added. So
    ScanHeapForObjects called again for the same target is the identity,
    whether the histogram is empty (and memory is scanned again) or not. *)
Theorem ScanHeapForObjects_twice (target : SBTarget) (process : SBProcess)
    (s : LLScan) :
  (ScanMemoryRegions process
     (FindJSObjectsVisitor_new,
      (ScanMemoryRegions process (FindJSObjectsVisitor_new, s)).2)).2
  = (ScanMemoryRegions process (FindJSObjectsVisitor_new, s)).2
  ∧ ScanHeapForObjects target process (ScanHeapForObjects target process s)
    = ScanHeapForObjects target process s.
Proof.
  split; [apply ScanMemoryRegions_twice|].
  pose proof (ScanHeapForObjects_target target process s) as Ht.
  unfold ScanHeapForObjects at 1.
  destruct (decide (target_ (ScanHeapForObjects target process s) ≠ target))
    as [Hne|_]; [done|].
  destruct (decide (mapstoinstances_ (ScanHeapForObjects target process s) = ∅))
    as [Hempty|Hfull]; [|done].
  revert Hempty. unfold ScanHeapForObjects.
  destruct (decide (target_ s ≠ target)).
  - destruct (decide (mapstoinstances_
                        (mkLLScan target
                           (mapstoinstances_ (ClearReferences (ClearMapsToInstances s)))
                           (detailedmapstoinstances_ (ClearReferences (ClearMapsToInstances s)))
                           (references_by_value_ (ClearReferences (ClearMapsToInstances s)))
                           (references_by_property_ (ClearReferences (ClearMapsToInstances s)))
                           (references_by_string_ (ClearReferences (ClearMapsToInstances s)))
                           (contexts_ (ClearReferences (ClearMapsToInstances s))))
                      = ∅)) as [_|Hx]; [|by destruct Hx].
    intros _. apply ScanMemoryRegions_twice.
  - destruct (decide (mapstoinstances_ s = ∅)); [|done].
    intros _. apply ScanMemoryRegions_twice.
Qed.

(** ** Reading the memory of the process *)

Lemma byte_value_range b : 0 ≤ byte_value b < 256.
Proof. unfold byte_value. pose proof (Byte.to_N_bounded b). lia. Qed.

Lemma bytes_of_little_endian vals :
  Forall (λ b, 0 ≤ b < 256) vals →
  bytes_of (length vals) (little_endian vals) = vals.
Proof.
  induction 1 as [|b vals Hb _ IH]; [done|].
  cbn [length bytes_of little_endian foldr]. fold (little_endian vals).
  replace (b + 256 * little_endian vals) with (b + little_endian vals * 256)
    by lia.
  rewrite Z.mod_add, Z.div_add by lia.
  rewrite Z.mod_small, Z.div_small by lia. rewrite Z.add_0_l. by rewrite IH.
Qed.

Lemma bswap_little_endian vals n :
  Forall (λ b, 0 ≤ b < 256) vals → length vals = n →
  bswap n (little_endian vals) = big_endian vals.
Proof.
  intros Hvals <-. unfold bswap, big_endian.
  by rewrite bytes_of_little_endian.
Qed.

Lemma bswap_big_endian vals n :
  Forall (λ b, 0 ≤ b < 256) vals → length vals = n →
  bswap n (big_endian vals) = little_endian vals.
Proof.
  intros Hvals <-. unfold bswap, big_endian.
  rewrite <- (length_reverse vals).
  rewrite bytes_of_little_endian by (by apply Forall_reverse).
  by rewrite reverse_involutive.
Qed.

Lemma GetHostByteOrder_spec host_big_endian :
  GetHostByteOrder host_big_endian
  = if host_big_endian then eByteOrderBig else eByteOrderLittle.
Proof. by destruct host_big_endian. Qed.

Lemma length_memory_bytes memory address n :
  length (memory_bytes memory address n) = Z.to_nat n.
Proof. unfold memory_bytes. by rewrite length_fmap, length_seqZ. Qed.

Lemma block_bytes memory a L rest j A :
  0 ≤ j → 0 ≤ A → j + A ≤ L →
  take (Z.to_nat A) (drop (Z.to_nat j) (memory_bytes memory a L ++ rest))
  = memory_bytes memory (a + j) A.
Proof.
  intros Hj HA HL.
  apply (list_eq_same_length _ _ (Z.to_nat A)).
  - apply length_memory_bytes.
  - rewrite length_take, length_drop, length_app, length_memory_bytes. lia.
  - intros i x y Hi. rewrite lookup_take_lt, lookup_drop by done.
    rewrite lookup_app_l by (rewrite length_memory_bytes; lia).
    unfold memory_bytes. rewrite !list_lookup_fmap.
    rewrite !lookup_seqZ_lt by lia. cbn. intros [= <-] [= <-].
    f_equal. lia.
Qed.

Section ReadsEveryWord.
Variable host_big_endian : bool.
Variable process : ProcessMemory.
Variable memory : Z → Byte.byte.
Hypothesis Hreadable : readable process memory.

#[local] Abbreviation A := (GetAddressByteSize process).
#[local] Abbreviation swap_bytes :=
  (bool_decide (GetByteOrder process ≠ GetHostByteOrder host_big_endian)).
#[local] Abbreviation visit :=
  (λ (vs : FindJSObjectsVisitor * LLScan) (w : Z),
     Visit (decode_word process w) w vs).

Lemma read_value_word block j address :
  take (Z.to_nat A) (drop (Z.to_nat j) block) = memory_bytes memory address A →
  read_value host_big_endian A swap_bytes block j
  = Some (word_at process memory address).
Proof.
  destruct Hreadable as (HA & Horder & _ & _). intros Hbytes.
  unfold read_value, word_at, host_read. rewrite GetHostByteOrder_spec.
  assert (Hrange : Forall (λ b, 0 ≤ b < 256)
                     (byte_value <$> memory_bytes memory address A)).
  { apply Forall_fmap, Forall_forall. intros b _. apply byte_value_range. }
  assert (Hlen : length (byte_value <$> memory_bytes memory address A)
                 = Z.to_nat A)
    by (by rewrite length_fmap, length_memory_bytes).
  destruct HA as [HA|HA]; rewrite HA in *;
    [rewrite decide_True by done
    |rewrite decide_False by done; rewrite decide_True by done];
    change (Z.to_nat 4) with 4%nat in *; change (Z.to_nat 8) with 8%nat in *;
    rewrite Hbytes; f_equal;
    destruct Horder as [-> | ->], host_big_endian;
    try (rewrite bool_decide_eq_false_2 by (intros Hne; by apply Hne); done);
    rewrite bool_decide_eq_true_2 by done;
    first [by apply bswap_big_endian | by apply bswap_little_endian].
Qed.

Lemma scan_block_words a loaded rest fuel :
  0 ≤ loaded < 2 ^ 63 →
  ∀ j increment vs,
    0 ≤ j ≤ loaded → (Z.to_nat (loaded - j) < fuel)%nat → increment ≠ 0 →
    ∃ increment',
      increment' ≠ 0
      ∧ scan_block host_big_endian fuel process swap_bytes
          (memory_bytes memory a loaded ++ rest) loaded j increment vs
        = Some (increment',
                foldl visit vs
                  ((λ k, word_at process memory (a + j + k * A))
                     <$> seqZ 0 ((loaded - j) `div` A))).
Proof.
  intros Hloaded.
  assert (HA : A = 4 ∨ A = 8) by apply Hreadable.
  induction fuel as [|fuel IH]; intros j increment vs Hj Hfuel Hinc; [lia|].
  cbn [scan_block]. cbv zeta.
  rewrite (wrap64_small (j + A)) by lia.
  destruct (decide (j + A ≤ loaded)) as [Hfit|Hend].
  - rewrite (read_value_word _ j (a + j))
      by (apply block_bytes; lia).
    assert (A mod 2 ^ 32 = A) as -> by (apply Z.mod_small; lia).
    rewrite decide_False by lia.
    rewrite (wrap64_small (j + A)) by lia.
    destruct (IH (j + A) A (visit vs (word_at process memory (a + j))))
      as (increment' & Hinc' & ->); [lia|lia|lia|].
    exists increment'. split; [done|]. do 2 f_equal.
    assert ((loaded - j) `div` A = 1 + (loaded - (j + A)) `div` A) as ->.
    { replace (loaded - j) with (loaded - (j + A) + 1 * A) by lia.
      rewrite Z.div_add by lia. lia. }
    assert (0 ≤ (loaded - (j + A)) `div` A) by (apply Z.div_pos; lia).
    set (n := (loaded - (j + A)) `div` A) in *.
    rewrite (seqZ_cons 0 (1 + n)) by lia.
    replace (Z.pred (1 + n)) with n by lia.
    rewrite fmap_cons. cbn [foldl].
    replace (a + j + 0 * A) with (a + j) by lia. f_equal.
    change (Z.succ 0) with (1 + 0). rewrite <- fmap_add_seqZ.
    rewrite <- list_fmap_compose. apply list_fmap_ext.
    intros i k _. cbn. f_equal. lia.
  - exists increment. split; [done|].
    rewrite Z.div_small by lia. done.
Qed.

Lemma scan_blocks_words e inner fuel :
  0 ≤ e → e + 1024 * 1024 * 8 < 2 ^ 64 →
  (Z.to_nat (1024 * 1024 * A) < inner)%nat →
  ∀ a block vs,
    0 ≤ a → (Z.to_nat (e - a) < fuel)%nat →
    ∃ block',
      scan_blocks host_big_endian fuel inner process swap_bytes
        (wrap64 (1024 * 1024 * A)) e a block vs
      = Some (block',
              foldl visit vs
                ((λ k, word_at process memory (a + k * A))
                   <$> seqZ 0 ((e - a) `div` A))).
Proof.
  remember (1024 * 1024) as M eqn:HM.
  intros He Hbound Hinner.
  assert (HA : A = 4 ∨ A = 8) by apply Hreadable.
  assert (Hread : ∀ address n, ReadMemory process address n
                               = Some (memory_bytes memory address n))
    by apply Hreadable.
  rewrite (wrap64_small (M * A)) by lia.
  induction fuel as [|fuel IH]; intros a block vs Ha Hfuel; [lia|].
  cbn [scan_blocks]. cbv zeta.
  destruct (decide (a < e)) as [Hlt|Hge].
  - rewrite (wrap64_small (e - a)) by lia. rewrite Hread.
    set (loaded := Z.min (e - a) (M * A)).
    destruct (scan_block_words a loaded
                (drop (length (memory_bytes memory a loaded)) block) inner
                ltac:(lia) 0 1 vs) as (increment' & Hinc' & Hblock);
      [lia|lia|lia|].
    rewrite Hblock. cbn [mbind option_bind]. rewrite decide_False by done.
    rewrite (wrap64_small (a + M * A)) by lia.
    match goal with |- context [scan_blocks _ _ _ _ _ _ _ _ ?b ?v] =>
      destruct (IH (a + M * A) b v) as (block' & ->); [lia|lia|] end.
    exists block'. f_equal. f_equal. rewrite <- foldl_app. f_equal.
    rewrite Z.sub_0_r.
    destruct (decide (e - a ≤ M * A)) as [Hlast|Hmore].
    + replace loaded with (e - a) by lia.
      assert ((e - (a + M * A)) `div` A ≤ 0) as Hn.
      { assert ((e - (a + M * A)) `div` A ≤ 0 `div` A) as Hd
          by (apply Z.div_le_mono; lia).
        by rewrite Z.div_0_l in Hd by lia. }
      rewrite (seqZ_nil _ ((e - (a + M * A)) `div` A)) by done.
      rewrite app_nil_r. apply list_fmap_ext. intros i k _. f_equal. lia.
    + replace loaded with (M * A) by lia.
      assert ((M * A) `div` A = M) as -> by (apply Z.div_mul; lia).
      assert ((e - a) `div` A = M + (e - (a + M * A)) `div` A) as ->.
      { replace (e - a) with (e - (a + M * A) + M * A) by lia.
        rewrite Z.div_add by lia. lia. }
      assert (0 ≤ (e - (a + M * A)) `div` A) by (apply Z.div_pos; lia).
      set (n := (e - (a + M * A)) `div` A) in *.
      rewrite (seqZ_app 0 M n) by lia. rewrite fmap_app. f_equal.
      * apply list_fmap_ext. intros i k _. f_equal. lia.
      * replace (0 + M) with (M + 0) by lia.
        rewrite <- fmap_add_seqZ, <- list_fmap_compose.
        apply list_fmap_ext. intros i k _. cbn. f_equal. lia.
  - exists block. rewrite seqZ_nil; [done|].
    assert ((e - a) `div` A ≤ 0 `div` A) as Hd by (apply Z.div_le_mono; lia).
    by rewrite Z.div_0_l in Hd by lia.
Qed.

Lemma scan_regions_words fuel regions :
  (Z.to_nat (2 ^ 64) ≤ fuel)%nat →
  Forall (λ r, IsWritable r = true →
               0 ≤ GetRegionBase r ≤ GetRegionEnd r
               ∧ GetRegionEnd r + 1024 * 1024 * 8 < 2 ^ 64) regions →
  ∀ block vs,
    ∃ block',
      foldl (scan_region host_big_endian fuel process swap_bytes
               (wrap64 (1024 * 1024 * A)))
        (Some (block, vs)) regions
      = Some (block',
              foldl visit vs
                (region_info ← filter (λ r, IsWritable r = true) regions;
                 region_words process memory region_info)).
Proof.
  intros Hfuel.
  assert (HA : A = 4 ∨ A = 8) by apply Hreadable.
  induction 1 as [|r regions Hr _ IH]; intros block vs.
  - by exists block.
  - cbn [foldl]. rewrite filter_cons. unfold scan_region at 2.
    cbn [mbind option_bind].
    destruct (IsWritable r) eqn:Hw; cbn [negb].
    + destruct (Hr eq_refl) as [Hbase Hend].
      rewrite (wrap64_small (GetRegionEnd r - GetRegionBase r)) by lia.
      replace (GetRegionBase r + (GetRegionEnd r - GetRegionBase r))
        with (GetRegionEnd r) by lia.
      rewrite (wrap64_small (GetRegionEnd r)) by lia.
      destruct (scan_blocks_words (GetRegionEnd r) fuel fuel ltac:(lia) Hend
                  ltac:(lia) (GetRegionBase r) block vs)
        as (block1 & ->); [lia|lia|].
      match goal with |- context [Some (block1, ?v)] =>
        destruct (IH block1 v) as (block' & ->) end.
      exists block'. rewrite decide_True by done.
      rewrite bind_cons, foldl_app. done.
    + destruct (IH block vs) as (block' & ->).
      exists block'. by rewrite decide_False by done.
Qed.
End ReadsEveryWord.

(** X16. On a process that can be read in full, ScanMemoryRegions returns, and it
    hands to Visit the words of the writable regions, region after region
    and from the base of each region on, one word for every address size
    bytes as long as a whole word fits before the end of the region. Every
    word is taken in the byte order of the process, whatever the byte order
    of the host is (the bytes are swapped exactly when the two differ), and
    the content that the new buffer happens to have plays no part. A process
    of which no read succeeds is scanned without a single visit. *)
Theorem ScanMemoryRegions_reads_every_word (host_big_endian : bool)
    (process : ProcessMemory) (memory : Z → Byte.byte)
    (block : list Byte.byte) (vs : FindJSObjectsVisitor * LLScan) :
  (readable process memory →
   ∃ fuel0, ∀ fuel, (fuel0 ≤ fuel)%nat →
     ScanMemoryRegions_of_process host_big_endian fuel process block vs
     = Some (ScanMemoryRegions
               (mkProcess (process_words process memory) (decode_word process))
               vs))
  ∧ ((∀ address n, ReadMemory process address n = None) →
     ∀ fuel, (0 < fuel)%nat →
       ScanMemoryRegions_of_process host_big_endian fuel process block vs
       = Some vs).
Proof.
  split.
  - intros Hreadable. exists (Z.to_nat (2 ^ 64)). intros fuel Hfuel.
    unfold ScanMemoryRegions_of_process. cbv zeta.
    destruct (scan_regions_words host_big_endian process memory Hreadable fuel
                (GetMemoryRegions process) Hfuel
                ltac:(apply Hreadable) block vs) as (block' & ->).
    done.
  - intros Hfail fuel Hfuel. unfold ScanMemoryRegions_of_process. cbv zeta.
    generalize (wrap64 (1024 * 1024 * GetAddressByteSize process)) as B.
    generalize (bool_decide
                  (GetByteOrder process ≠ GetHostByteOrder host_big_endian))
      as swap.
    intros swap B.
    assert (Hfold : ∀ regions,
              foldl (scan_region host_big_endian fuel process swap B)
                (Some (block, vs)) regions = Some (block, vs)).
    { induction regions as [|r regions IH]; [done|].
      cbn [foldl]. unfold scan_region at 2. cbn [mbind option_bind].
      destruct (negb (IsWritable r)); [done|].
      destruct fuel as [|fuel]; [lia|]. cbn [scan_blocks].
      case_decide; [|done]. cbv zeta. by rewrite Hfail. }
    by rewrite Hfold.
Qed.

(** The sample process read on a big-endian host. *)
Lemma ScanMemoryRegions_reads_every_word_witness :
  process_words sample_memory_process sample_memory = [4097; 0]
  ∧ ∃ fuel0, ∀ fuel, (fuel0 ≤ fuel)%nat →
      ScanMemoryRegions_of_process true fuel sample_memory_process []
        (FindJSObjectsVisitor_new, LLScan_new)
      = Some (ScanMemoryRegions
                (mkProcess (process_words sample_memory_process sample_memory)
                   (decode_word sample_memory_process))
                (FindJSObjectsVisitor_new, LLScan_new)).
Proof.
  split; [vm_compute; reflexivity|].
  apply (ScanMemoryRegions_reads_every_word true sample_memory_process
           sample_memory [] (FindJSObjectsVisitor_new, LLScan_new)).
  split; [by right|]. split; [by right|]. split.
  - repeat constructor; cbn; intros; try discriminate; lia.
  - intros address n. reflexivity.
Defined.

(** ** PrintRefs and ScanRefs on one object *)

Section PrintRefsProofs.
Variable v8 : LLV8.

Lemma ReferenceScanner_scan_elements_saved js_obj v indices :
  ∀ already_saved s,
    v ∈ (ReferenceScanner_scan_elements v8 js_obj indices already_saved s).1
    ↔ v ∈ already_saved
      ∨ ReferenceScanner_print_elements v8 v js_obj indices ≠ [].
Proof.
  induction indices as [|i indices IH]; intros already_saved s;
    cbn [ReferenceScanner_scan_elements ReferenceScanner_print_elements].
  - cbn [fst]. naive_solver.
  - destruct (GetArrayElement v8 js_obj i) as [w|]; [|cbn [fst]; naive_solver].
    destruct (decide (w ∈ already_saved)) as [Hw|Hw]; rewrite IH.
    + destruct (decide (w ≠ v)) as [Hne|Heq]; [done|].
      apply dec_stable in Heq as ->. cbn [app]. naive_solver.
    + destruct (decide (w ≠ v)) as [Hne|Heq].
      * cbn [app]. set_solver.
      * apply dec_stable in Heq as ->. cbn [app]. set_solver.
Qed.

Lemma ReferenceScanner_scan_entries_saved js_obj v entries :
  ∀ acc,
    v ∈ (foldl (ReferenceScanner_scan_entry js_obj) acc entries).1
    ↔ v ∈ acc.1
      ∨ (entries ≫= ReferenceScanner_print_entry v8 v js_obj) ≠ [].
Proof.
  induction entries as [|entry entries IH]; intros [already_saved s].
  - cbn [foldl fst]. naive_solver.
  - cbn [foldl]. rewrite IH, bind_cons.
    unfold ReferenceScanner_scan_entry, ReferenceScanner_print_entry.
    cbv zeta.
    destruct (decide (entry.2 ∈ already_saved)) as [Hw|Hw];
      destruct (decide (entry.2 = v)) as [Heq|Hne]; cbn [fst app];
      try rewrite Heq in *; set_solver.
Qed.

(** The set kept by ReferenceScanner::ScanRefs ends as the set of the
    values for which PrintRefs prints a line. *)
Lemma ReferenceScanner_ScanRefs_JSObject_saved js_obj level s :
  ∃ already_saved : gset Z,
    saved_once js_obj (references_by_value_ s) already_saved
      (references_by_value_ (ReferenceScanner_ScanRefs_JSObject v8 js_obj s))
    ∧ ∀ v, v ∈ already_saved
           ↔ ReferenceScanner_PrintRefs_JSObject v8 v js_obj level ≠ [].
Proof.
  unfold ReferenceScanner_ScanRefs_JSObject, ReferenceScanner_PrintRefs_JSObject.
  cbv zeta.
  pose proof (ReferenceScanner_scan_elements_once v8 js_obj (references_by_value_ s)
                (seqZ 0 (GetArrayLength v8 js_obj)) ∅ s (saved_once_start _ _)) as Hel.
  pose proof (λ v, ReferenceScanner_scan_elements_saved js_obj v
                (seqZ 0 (GetArrayLength v8 js_obj)) ∅ s) as Hin.
  destruct (ReferenceScanner_scan_elements _ _ _ _ _) as [already_saved s1].
  cbn [fst snd] in Hel, Hin.
  destruct (Entries v8 js_obj) as [entries|].
  - exists (foldl (ReferenceScanner_scan_entry js_obj) (already_saved, s1) entries).1.
    split.
    + apply (foldl_invariant
               (λ acc, saved_once js_obj (references_by_value_ s) acc.1
                         (references_by_value_ acc.2))); [|exact Hel].
      intros acc entry Hacc. by apply ReferenceScanner_scan_entry_once.
    + intros v. rewrite ReferenceScanner_scan_entries_saved. cbn [fst].
      rewrite Hin.
      destruct (ReferenceScanner_print_elements v8 v js_obj _);
        destruct (entries ≫= _); cbn [app]; set_solver.
  - exists already_saved. split; [done|]. intros v. rewrite Hin, app_nil_r.
    set_solver.
Qed.

Lemma PropertyScanner_scan_entries_count js_obj k entries :
  ∀ s,
    times_referenced js_obj k
      (references_by_property_ (foldl (PropertyScanner_scan_entry v8 js_obj) s entries))
    = (times_referenced js_obj k (references_by_property_ s)
       + length (entries ≫= PropertyScanner_print_entry v8 k js_obj))%nat.
Proof.
  induction entries as [|entry entries IH]; intros s.
  - cbn [foldl mbind list_bind length]. lia.
  - cbn [foldl]. rewrite IH, bind_cons, length_app.
    unfold PropertyScanner_scan_entry, PropertyScanner_print_entry.
    destruct (ToString v8 entry.1) as [key|]; [|cbn [length]; lia].
    unfold save_by_property. cbn [references_by_property_ set_references_by_property].
    destruct (decide (key = k)) as [->|Hne].
    + rewrite times_referenced_push_same. cbn [length]. lia.
    + rewrite times_referenced_push_other by done. cbn [length]. lia.
Qed.

Lemma StringScanner_scan_value_mono js_obj acc v :
  acc.1 ⊆ (StringScanner_scan_value v8 js_obj acc v).1.
Proof.
  destruct acc as [already_saved s]. unfold StringScanner_scan_value.
  repeat case_match; cbn [fst]; set_solver.
Qed.

Lemma StringScanner_scan_elements_saved js_obj t indices :
  ∀ acc,
    t ∈ acc.1 ∨ (indices ≫= StringScanner_print_element v8 t js_obj) ≠ [] →
    t ∈ (foldl (StringScanner_scan_element v8 js_obj) acc indices).1.
Proof.
  induction indices as [|i indices IH]; intros acc.
  - cbn [foldl mbind list_bind]. naive_solver.
  - cbn [foldl]. rewrite bind_cons. intros Hin. apply IH.
    assert (Hmono : acc.1 ⊆ (StringScanner_scan_element v8 js_obj acc i).1).
    { unfold StringScanner_scan_element.
      destruct (GetArrayElement v8 js_obj i); [|done].
      apply StringScanner_scan_value_mono. }
    destruct Hin as [Hin|Hin]; [left; by apply Hmono|].
    destruct (indices ≫= StringScanner_print_element v8 t js_obj) eqn:Hrest;
      [|by right].
    left. rewrite app_nil_r in Hin. revert Hin Hmono.
    unfold StringScanner_print_element, StringScanner_scan_element.
    destruct (GetArrayElement v8 js_obj i) as [w|]; [|done].
    destruct acc as [already_saved s]. unfold StringScanner_scan_value.
    destruct (GetType v8 w) as [type ok]. destruct ok; cbn [negb]; [|done].
    case_bool_decide; [|done].
    destruct (ToString v8 w) as [value|]; [|done].
    destruct (decide (t = value)) as [->|]; [|done]. intros _ _.
    destruct (decide (value ∈ already_saved)); cbn [fst]; set_solver.
Qed.

Lemma StringScanner_scan_entries_saved js_obj t entries :
  ∀ acc,
    t ∈ acc.1 ∨ (entries ≫= StringScanner_print_entry v8 t js_obj) ≠ [] →
    t ∈ (foldl (λ acc entry, StringScanner_scan_value v8 js_obj acc entry.2)
           acc entries).1.
Proof.
  induction entries as [|entry entries IH]; intros acc.
  - cbn [foldl mbind list_bind]. naive_solver.
  - cbn [foldl]. rewrite bind_cons. intros Hin. apply IH.
    pose proof (StringScanner_scan_value_mono js_obj acc entry.2) as Hmono.
    destruct Hin as [Hin|Hin]; [left; by apply Hmono|].
    destruct (entries ≫= StringScanner_print_entry v8 t js_obj) eqn:Hrest;
      [|by right].
    left. rewrite app_nil_r in Hin. revert Hin Hmono.
    unfold StringScanner_print_entry.
    destruct acc as [already_saved s]. unfold StringScanner_scan_value.
    destruct (GetType v8 entry.2) as [type ok]. destruct ok; cbn [negb]; [|done].
    case_bool_decide; [|done].
    destruct (ToString v8 entry.2) as [value|]; [|done].
    destruct (decide (t = value)) as [->|]; [|done]. intros _ _.
    destruct (decide (value ∈ already_saved)); cbn [fst]; set_solver.
Qed.

(** The set kept by StringScanner::ScanRefs holds every text for which
    PrintRefs prints a line. *)
Lemma StringScanner_ScanRefs_JSObject_saved js_obj level s :
  ∃ already_saved : gset string,
    saved_once js_obj (references_by_string_ s) already_saved
      (references_by_string_ (StringScanner_ScanRefs_JSObject v8 js_obj s))
    ∧ ∀ t, StringScanner_PrintRefs_JSObject v8 t js_obj level ≠ [] →
           t ∈ already_saved.
Proof.
  unfold StringScanner_ScanRefs_JSObject, StringScanner_PrintRefs_JSObject.
  cbv zeta.
  set (Q := λ acc : gset string * LLScan,
              saved_once js_obj (references_by_string_ s) acc.1
                (references_by_string_ acc.2)).
  assert (Hel : Q (foldl (StringScanner_scan_element v8 js_obj) (∅, s)
                     (seqZ 0 (GetArrayLength v8 js_obj)))).
  { apply (foldl_invariant Q); [|apply saved_once_start].
    intros acc i Hacc. unfold StringScanner_scan_element.
    destruct (GetArrayElement v8 js_obj i); [|done].
    by apply StringScanner_scan_value_once. }
  pose proof (λ t, StringScanner_scan_elements_saved js_obj t
                (seqZ 0 (GetArrayLength v8 js_obj)) (∅, s)) as Hin.
  destruct (Entries v8 js_obj) as [entries|].
  - eexists. split.
    + apply (foldl_invariant Q); [|exact Hel].
      intros acc entry Hacc. by apply StringScanner_scan_value_once.
    + intros t Hlines. apply StringScanner_scan_entries_saved.
      destruct (seqZ 0 (GetArrayLength v8 js_obj)
                ≫= StringScanner_print_element v8 t js_obj) eqn:Hels.
      * right. by rewrite app_nil_l in Hlines.
      * left. apply Hin. right. by rewrite Hels.
  - eexists. split; [exact Hel|].
    intros t Hlines. apply Hin. right. by rewrite app_nil_r in Hlines.
Qed.

End PrintRefsProofs.

(** X17. What ScanRefs records of an object and what PrintRefs prints for it.
    For a search by value the object is appended once exactly when PrintRefs
    prints a line for it, and not at all otherwise. For a search by property
    name it is appended as many times as PrintRefs prints lines. For a search
    by string it is appended at most once, and once whenever PrintRefs prints
    a line; an object can be appended and have no line, as PrintRefs skips
    an entry whose key cannot be read and ScanRefs does not read the key. *)
Theorem PrintRefs_prints_what_ScanRefs_saved (v8 : LLV8) (js_obj level : Z)
    (s : LLScan) :
  (∀ v, appended_by_ScanRefs v8 (ReferenceScanner v) js_obj s
        = if decide (PrintRefs_JSObject v8 (ReferenceScanner v) js_obj level = [])
          then 0 else 1)
  ∧ (∀ k, appended_by_ScanRefs v8 (PropertyScanner k) js_obj s
          = Z.of_nat (length (PrintRefs_JSObject v8 (PropertyScanner k) js_obj level)))
  ∧ (∀ t, 0 ≤ appended_by_ScanRefs v8 (StringScanner t) js_obj s ≤ 1
          ∧ (PrintRefs_JSObject v8 (StringScanner t) js_obj level ≠ [] →
             appended_by_ScanRefs v8 (StringScanner t) js_obj s = 1))
  ∧ appended_by_ScanRefs v8_unreadable_key (StringScanner "x") 4097 s = 1
  ∧ PrintRefs_JSObject v8_unreadable_key (StringScanner "x") 4097 level = [].
Proof.
  split; [|split; [|split; [|split]]].
  - intros v. unfold appended_by_ScanRefs. cbn [ScanRefs_JSObject PrintRefs_JSObject].
    destruct (ReferenceScanner_ScanRefs_JSObject_saved v8 js_obj level s)
      as (already_saved & Honce & Hin).
    rewrite (Honce v).
    destruct (decide (v ∈ already_saved)) as [Hv|Hv].
    + rewrite decide_False by (by apply Hin). lia.
    + rewrite decide_True; [lia|].
      destruct (decide (ReferenceScanner_PrintRefs_JSObject v8 v js_obj level = []))
        as [|Hne]; [done|]. by apply Hin in Hne.
  - intros k. unfold appended_by_ScanRefs. cbn [ScanRefs_JSObject PrintRefs_JSObject].
    unfold PropertyScanner_ScanRefs_JSObject, PropertyScanner_PrintRefs_JSObject.
    destruct (Entries v8 js_obj) as [entries|]; [|cbn [length]; lia].
    rewrite PropertyScanner_scan_entries_count. lia.
  - intros t. unfold appended_by_ScanRefs. cbn [ScanRefs_JSObject PrintRefs_JSObject].
    destruct (StringScanner_ScanRefs_JSObject_saved v8 js_obj level s)
      as (already_saved & Honce & Hin).
    rewrite (Honce t). split; [case_decide; lia|].
    intros Hlines. rewrite decide_True by (by apply Hin). lia.
  - unfold appended_by_ScanRefs. cbn [ScanRefs_JSObject].
    change (StringScanner_ScanRefs_JSObject v8_unreadable_key 4097 s)
      with (save_by_string "x" 4097 s).
    unfold save_by_string. cbn [references_by_string_ set_references_by_string].
    rewrite times_referenced_push_same. lia.
  - reflexivity.
Qed.

(** The object of C6 with two keys that print as "x": two lines, as many as
    the times ScanRefs appends it. *)
Example PrintRefs_two_lines_for_one_name :
  PrintRefs_JSObject v8_two_entries_one_name (PropertyScanner "x") 4097 0
  = [PropertyReference 4097 (Some "x") 12289;
     PropertyReference 4097 (Some "x") 12297].
Proof. vm_compute. reflexivity. Qed.

(** ** The file of the snapshot *)

Section SnapshotFile.
Variable v8 : LLV8.
Variable order : gset Z → list Z.
Variable indeterminate : Z.
Variable GetChildrenCount : Z → ChildrenState → Z * ChildrenState.
Variable err_fail : bool.

Lemma DataEntry_instances_stream records : ∀ st,
  same_stream (de_serializer st)
    (de_serializer
       (DataEntry_instances v8 indeterminate GetChildrenCount records st).2).
Proof.
  induction records as [|[type_name record] records IH]; intros st;
    cbn [DataEntry_instances]; [done|].
  destruct (DataEntry_instance _ _ _ _ _ _) as [st1|] eqn:Hstep; [|done].
  destruct (IH st1) as (Hw & Ho & Hf).
  assert (Hstep1 : same_stream (de_serializer st) (de_serializer st1)).
  { unfold DataEntry_instance in Hstep.
    repeat case_match; simplify_eq; done. }
  destruct Hstep1 as (Hw1 & Ho1 & Hf1).
  unfold same_stream. by rewrite Hw, Ho, Hf.
Qed.

(** DataEntry writes nothing and leaves the stream as it is. *)
Lemma DataEntry_stream records llscan h :
  same_stream h
    (DataEntry v8 indeterminate GetChildrenCount records llscan h).1.
Proof.
  unfold DataEntry. cbv zeta.
  set (h0 := AddGCRootsEntry indeterminate 1 (InitialEntry indeterminate 1 h)).
  assert (Hh0 : same_stream h h0).
  { unfold h0, AddGCRootsEntry, InitialEntry.
    destruct (GetStringId "" (strings_ h)) as [name1 strings1]. cbn.
    by destruct (GetStringId "(GC roots)" strings1) as [name2 strings2]. }
  pose proof (DataEntry_instances_stream records
                (mkDataEntryState 1 ∅ h0 llscan)) as Hloop.
  destruct (DataEntry_instances _ _ _ _ _) as [finished st].
  cbn [fst snd de_serializer] in *.
  destruct Hh0 as (Hw0 & Ho0 & Hf0). destruct Hloop as (Hw & Ho & Hf).
  unfold same_stream. destruct finished; cbn; by rewrite ?Hw, ?Ho, ?Hf.
Qed.

(** One snapshot command on an invalid target. *)
Lemma HeapSnapshotJSONSerializer_DoExecute_invalid target process h llscan :
  IsValid target = false →
  HeapSnapshotJSONSerializer_DoExecute v8 order indeterminate GetChildrenCount
    err_fail target process h llscan
  = (fail_with ("Invalid process.." +:+ endl) false llscan [], ofstream_open h).
Proof.
  intros Hinvalid. unfold HeapSnapshotJSONSerializer_DoExecute.
  by rewrite Hinvalid.
Qed.

(** One snapshot command on a valid target. *)
Lemma HeapSnapshotJSONSerializer_DoExecute_valid target process h llscan :
  IsValid target = true →
  let r := HeapSnapshotJSONSerializer_DoExecute v8 order indeterminate
             GetChildrenCount err_fail target process h llscan in
  ex_return r.1 = true
  ∧ write_is_open_ r.2 = false
  ∧ write_ r.2 = (if write_is_open_ h then write_ h
                  else ImplementSnapshot_text err_fail r.2).
Proof.
  intros Hvalid. unfold HeapSnapshotJSONSerializer_DoExecute.
  rewrite Hvalid. cbn [negb]. cbv zeta.
  match goal with |- context [DataEntry ?a ?b ?c ?d ?e ?f] =>
    pose proof (DataEntry_stream d e f) as Hde;
    destruct (DataEntry a b c d e f) as [h' s'] end.
  cbn [fst snd] in *. destruct Hde as (Hw & Ho & Hf).
  unfold ImplementSnapshot, ofstream_write, ofstream_close.
  unfold ofstream_open in Hw, Ho, Hf.
  destruct (write_is_open_ h); cbn in Hw, Ho, Hf; rewrite Hf; cbn.
  - by rewrite Hw.
  - by rewrite Hw.
Qed.
End SnapshotFile.

(** X19. The file that a snapshot command leaves. The command opens the stream
    before it looks at the target and closes it only when it has written, so
    a command on an invalid target returns false with the stream open and the
    file empty. A command on a valid target returns true with the stream
    closed; it writes the text of the snapshot if the stream was closed when
    it began, and not a character if the stream was open. So the snapshot
    asked for after a command on an invalid target is an empty file, and the
    one asked for after that is written. *)
Theorem snapshot_after_a_failed_command_is_empty (v8 : LLV8)
    (order : gset Z → list Z) (indeterminate : Z)
    (GetChildrenCount : Z → ChildrenState → Z * ChildrenState)
    (err_fail : bool) (target : SBTarget) (process : SBProcess)
    (h : HeapSnapshotJSONSerializer) (llscan : LLScan) :
  let snapshot := HeapSnapshotJSONSerializer_DoExecute v8 order indeterminate
                    GetChildrenCount err_fail in
  IsValid target = true → write_is_open_ h = false →
  let r0 := snapshot target process h llscan in
  let r1 := snapshot None process h llscan in
  let r2 := snapshot target process r1.2 (ex_llscan r1.1) in
  let r3 := snapshot target process r2.2 (ex_llscan r2.1) in
  (ex_return r0.1 = true ∧ write_is_open_ r0.2 = false
   ∧ write_ r0.2 = ImplementSnapshot_text err_fail r0.2)
  ∧ (ex_return r1.1 = false ∧ write_is_open_ r1.2 = true ∧ write_ r1.2 = ""
     ∧ nodes_ r1.2 = nodes_ h ∧ ex_llscan r1.1 = llscan)
  ∧ (ex_return r2.1 = true ∧ write_is_open_ r2.2 = false ∧ write_ r2.2 = ""
     ∧ (2 ≤ length (nodes_ r2.2))%nat)
  ∧ (ex_return r3.1 = true ∧ write_is_open_ r3.2 = false
     ∧ write_ r3.2 = ImplementSnapshot_text err_fail r3.2).
Proof.
  intros snapshot Hvalid Hclosed r0 r1 r2 r3.
  assert (Hr1 : r1 = (fail_with ("Invalid process.." +:+ endl) false llscan [],
                      ofstream_open h))
    by (by apply HeapSnapshotJSONSerializer_DoExecute_invalid).
  assert (Hopen : ofstream_open h
                  = mkSerializer (nodes_ h) (edges_ h) (strings_ h) "" true false)
    by (unfold ofstream_open; by rewrite Hclosed).
  destruct (HeapSnapshotJSONSerializer_DoExecute_valid v8 order indeterminate
              GetChildrenCount err_fail target process h llscan Hvalid)
    as (Hret0 & Hopen0 & Hw0).
  destruct (HeapSnapshotJSONSerializer_DoExecute_valid v8 order indeterminate
              GetChildrenCount err_fail target process r1.2 (ex_llscan r1.1)
              Hvalid) as (Hret2 & Hopen2 & Hw2).
  destruct (HeapSnapshotJSONSerializer_DoExecute_valid v8 order indeterminate
              GetChildrenCount err_fail target process r2.2 (ex_llscan r2.1)
              Hvalid) as (Hret3 & Hopen3 & Hw3).
  fold snapshot r0 in Hret0, Hopen0, Hw0.
  fold snapshot r2 in Hret2, Hopen2, Hw2.
  fold snapshot r3 in Hret3, Hopen3, Hw3.
  rewrite Hclosed in Hw0. rewrite Hopen2 in Hw3.
  split; [done|]. split; [by rewrite Hr1, Hopen|]. split; [|done].
  split; [done|]. split; [done|]. split.
  - rewrite Hw2. by rewrite Hr1, Hopen.
  - unfold r2, snapshot, HeapSnapshotJSONSerializer_DoExecute.
    rewrite Hvalid. cbn [negb]. cbv zeta.
    match goal with |- context [DataEntry ?a ?b ?c ?d ?e ?f] =>
      destruct (DataEntry_synthetic_ids a b c d e f)
        as (root & gc & instances & Hnodes & _);
      destruct (DataEntry a b c d e f) as [h' s'] end.
    cbn [fst snd] in *.
    unfold ImplementSnapshot, ofstream_write, ofstream_close.
    destruct (write_fail_ h'); cbn [nodes_]; rewrite Hnodes, length_app;
      cbn [length]; lia.
Qed.

(** A new command object: an invalid target, then twice the heap of one
    object. *)
Lemma snapshot_after_a_failed_command_is_empty_witness :
  let snapshot := HeapSnapshotJSONSerializer_DoExecute v8_objects sample_order 0
                    GetChildrenCount_objects false in
  let r1 := snapshot None one_object_process HeapSnapshotJSONSerializer_new
              LLScan_new in
  let r2 := snapshot (Some 1) one_object_process r1.2 (ex_llscan r1.1) in
  ex_return r2.1 = true ∧ write_ r2.2 = ""
  ∧ HeapGraphNode.id <$> nodes_ r2.2 = [1; 1; 1].
Proof.
  intros snapshot r1 r2.
  destruct (snapshot_after_a_failed_command_is_empty v8_objects sample_order 0
              GetChildrenCount_objects false (Some 1) one_object_process
              HeapSnapshotJSONSerializer_new LLScan_new)
    as (_ & _ & (Hret & _ & Hw & _) & _); [reflexivity|reflexivity|].
  split; [exact Hret|]. split; [exact Hw|]. vm_compute. reflexivity.
Defined.
